(** * vidshare: the video routes of the server, verified against their specification

    The development embeds [server/routes/videos.js] (the URL classifier
    [generateThumbnailUrl] / [extractVideoId] and the Express handlers built
    on it) together with the Mongoose schema of [server/models/Video.js],
    and the pure helpers of the client that handle the same URLs and
    records: the player's [getDriveEmbedUrl] and [getVideoUrl], the card's
    [formatDuration] and [timeAgo], and the upload form's
    [normalizeDriveLink].

    - JavaScript strings are sequences of UTF-16 code units; a code unit is a
      number of type [N] and a string a [list N].  Literals of the source are
      written [js "..."].
    - The handlers run in a small state-and-exception monad over a [World]
      holding the two collections, the blob store, the console, the clock and
      the outcomes of the external calls.  *)

From Stdlib Require Import String Ascii NArith Decimal DecimalN.
From stdpp Require Import base option list gmap sorting.

Local Open Scope N_scope.

(** ** JavaScript strings *)

Abbreviation jsstring := (list N).

(** A source literal as a sequence of code units. *)
Definition js (s : string) : jsstring :=
  (λ a, N_of_ascii a) <$> list_ascii_of_string s.

Module JsString.

(** [s.startsWith(p)] *)
Fixpoint startsWith (s p : jsstring) : bool :=
  match p, s with
  | [], _ => true
  | _ :: _, [] => false
  | a :: p', b :: s' => (a =? b) && startsWith s' p'
  end.

(** [s.includes(sub)]: [sub] occurs at some position of [s]. *)
Fixpoint includes (s sub : jsstring) : bool :=
  startsWith s sub ||
  match s with
  | [] => false
  | _ :: s' => includes s' sub
  end.

(** [s.indexOf(sub)], with [None] for the source's [-1]. *)
Fixpoint indexOf (s sub : jsstring) : option nat :=
  if startsWith s sub then Some 0%nat
  else match s with
       | [] => None
       | _ :: s' => S <$> indexOf s' sub
       end.

(** [s.replace(pat, repl)] for a string pattern: only the first occurrence
    is replaced.  The replacement strings of the source hold no [$], so
    they are inserted literally. *)
Fixpoint replace (s pat repl : jsstring) : jsstring :=
  if startsWith s pat then repl ++ drop (length pat) s
  else match s with
       | [] => []
       | c :: s' => c :: replace s' pat repl
       end.

(** [s.split(sep)] for a non-empty separator.  [skip] counts the code units
    of a separator occurrence still to be passed over, [cur] is the segment
    being collected, in reverse. *)
Fixpoint split_from (sep : jsstring) (skip : nat) (cur s : jsstring)
  : list jsstring :=
  match s with
  | [] => [reverse cur]
  | c :: s' =>
      match skip with
      | S k => split_from sep k cur s'
      | O =>
          if startsWith s sep
          then reverse cur :: split_from sep (pred (length sep)) [] s'
          else split_from sep 0 (c :: cur) s'
      end
  end.

Definition split (s sep : jsstring) : list jsstring :=
  match sep with
  | [] => (λ c, [c]) <$> s
  | _ :: _ => split_from sep 0 [] s
  end.

(** [arr.join(sep)] *)
Fixpoint join (arr : list jsstring) (sep : jsstring) : jsstring :=
  match arr with
  | [] => []
  | [x] => x
  | x :: arr' => x ++ sep ++ join arr' sep
  end.

(** WhiteSpace and LineTerminator code units of ECMAScript, the ones
    [trim] strips. *)
Definition isWhiteSpace (c : N) : bool :=
  ((9 <=? c) && (c <=? 13)) || (c =? 32) || (c =? 160) || (c =? 5760)
  || ((8192 <=? c) && (c <=? 8202)) || (c =? 8232) || (c =? 8233)
  || (c =? 8239) || (c =? 8287) || (c =? 12288) || (c =? 65279).

Fixpoint trimStart (s : jsstring) : jsstring :=
  match s with
  | [] => []
  | c :: s' => if isWhiteSpace c then trimStart s' else s
  end.

Definition trimEnd (s : jsstring) : jsstring :=
  reverse (trimStart (reverse s)).

(** [s.trim()] *)
Definition trim (s : jsstring) : jsstring := trimEnd (trimStart s).

(** A string is falsy exactly when it is empty. *)
Definition truthy (s : jsstring) : bool :=
  match s with [] => false | _ :: _ => true end.

(** Decimal digits of a non-negative integer: [String(n)], [`${n}`], for
    an integer below 10^21 (every clock value is). *)
Fixpoint digits (d : Decimal.uint) : jsstring :=
  match d with
  | Nil => []
  | D0 d' => 48 :: digits d'
  | D1 d' => 49 :: digits d'
  | D2 d' => 50 :: digits d'
  | D3 d' => 51 :: digits d'
  | D4 d' => 52 :: digits d'
  | D5 d' => 53 :: digits d'
  | D6 d' => 54 :: digits d'
  | D7 d' => 55 :: digits d'
  | D8 d' => 56 :: digits d'
  | D9 d' => 57 :: digits d'
  end.

Definition ofNumber (n : N) : jsstring := digits (N.to_uint n).

(** The longest prefix of [s] without the code unit [stop]: what a greedy
    [[^stop]*] consumes. *)
Fixpoint run (stop : N) (s : jsstring) : jsstring :=
  match s with
  | [] => []
  | c :: s' => if c =? stop then [] else c :: run stop s'
  end.

(** The regular expressions of the source all have the shape
    [/(lit1|lit2|...)([^stop]+)/]: a literal followed by a captured,
    non-empty, greedy run.  [captureAt] tries the alternatives at the start
    of [s]; nothing follows the group, so the greedy run never has to give
    a code unit back. *)
Fixpoint captureAt (lits : list jsstring) (stop : N) (s : jsstring)
  : option jsstring :=
  match lits with
  | [] => None
  | lit :: lits' =>
      if startsWith s lit && truthy (run stop (drop (length lit) s))
      then Some (run stop (drop (length lit) s))
      else captureAt lits' stop s
  end.

(** [s.match(re)[1]] for an unanchored [re] of that shape: the leftmost
    position where it matches wins; [None] is the source's [null]. *)
Fixpoint capture (lits : list jsstring) (stop : N) (s : jsstring)
  : option jsstring :=
  match captureAt lits stop s with
  | Some m => Some m
  | None => match s with
            | [] => None
            | _ :: s' => capture lits stop s'
            end
  end.

End JsString.
Import JsString.

(** ** Exceptions and completions *)

Inductive exn :=
| TypeError          (* a property read on [undefined] *)
| SyntaxError        (* [new RegExp] on a string that is no pattern *)
| CastError          (* Mongoose could not cast a value to an ObjectId *)
| ValidationError    (* Mongoose schema validation *)
| PersistenceError   (* the database rejected the call *)
| BlobStoreError.    (* the blob store rejected the call *)

Inductive completion (A : Type) :=
| Normal (a : A)
| Throw (e : exn).
Arguments Normal {A} a.
Arguments Throw {A} e.

(** [arr[i]] followed by a method call: reading a method of [undefined]
    throws a TypeError. *)
Definition at_index (arr : list jsstring) (i : nat) : completion jsstring :=
  match arr !! i with
  | Some x => Normal x
  | None => Throw TypeError
  end.

(** ** The URL classifier (routes/videos.js, lines 41-118) *)

Definition placeholderThumbnail : jsstring :=
  js "https://images.unsplash.com/photo-1611162617474-5b21e879e113?w=800&h=450&fit=crop&crop=center".

(** [videoUrl.match(/[?&]id=([^&]+)/)], group 1 *)
Definition downloadMatch (videoUrl : jsstring) : option jsstring :=
  capture [js "?id="; js "&id="] 38 videoUrl.

(** [videoUrl.match(/\/file\/d\/([^/]+)/)], group 1 *)
Definition shareMatch (videoUrl : jsstring) : option jsstring :=
  capture [js "/file/d/"] 47 videoUrl.

(** The [fileId] variable of the Drive block of [generateThumbnailUrl]:
    assigned from the download match, then overwritten by the share match. *)
Definition driveFileId (videoUrl : jsstring) : option jsstring :=
  let fileId := None in
  let fileId := match downloadMatch videoUrl with
                | Some m => Some m
                | None => fileId
                end in
  let fileId := match shareMatch videoUrl with
                | Some m => Some m
                | None => fileId
                end in
  fileId.

Definition driveThumbnail (fileId : jsstring) : jsstring :=
  js "https://drive.google.com/thumbnail?id=" ++ fileId ++ js "&sz=w800-h450".

Definition youtubeThumbnail (videoId : jsstring) : jsstring :=
  js "https://img.youtube.com/vi/" ++ videoId ++ js "/maxresdefault.jpg".

Definition vimeoThumbnail (videoId : jsstring) : jsstring :=
  js "https://vumbnail.com/" ++ videoId ++ js ".jpg".

(** The [videoId] variable of the YouTube block. *)
Definition youtubeVideoId (videoUrl : jsstring) : completion jsstring :=
  if includes videoUrl (js "youtube.com/watch?v=") then
    match at_index (split videoUrl (js "v=")) 1 with
    | Normal part => at_index (split part (js "&")) 0
    | Throw e => Throw e
    end
  else if includes videoUrl (js "youtu.be/") then
    match at_index (split videoUrl (js "youtu.be/")) 1 with
    | Normal part => at_index (split part (js "?")) 0
    | Throw e => Throw e
    end
  else Normal [].

(** [videoUrl.split('/').pop().split('?')[0]] *)
Definition vimeoVideoId (videoUrl : jsstring) : completion jsstring :=
  match last (split videoUrl (js "/")) with
  | Some seg => at_index (split seg (js "?")) 0
  | None => Throw TypeError
  end.

(** The tail of [generateThumbnailUrl], from the Vimeo test on. *)
Definition vimeoOrDefault (videoUrl : jsstring) : completion jsstring :=
  if includes videoUrl (js "vimeo.com") then
    match vimeoVideoId videoUrl with
    | Normal videoId => Normal (vimeoThumbnail videoId)
    | Throw e => Throw e
    end
  else Normal placeholderThumbnail.

(** The tail of [generateThumbnailUrl], from the YouTube test on. *)
Definition youtubeOrLater (videoUrl : jsstring) : completion jsstring :=
  if includes videoUrl (js "youtube.com") || includes videoUrl (js "youtu.be")
  then
    match youtubeVideoId videoUrl with
    | Normal videoId =>
        if truthy videoId then Normal (youtubeThumbnail videoId)
        else vimeoOrDefault videoUrl
    | Throw e => Throw e
    end
  else vimeoOrDefault videoUrl.

Definition generateThumbnailUrl (videoUrl : jsstring) : completion jsstring :=
  if includes videoUrl (js "cloudinary.com") then
    Normal (replace videoUrl (js "/video/") (js "/video/so_0/"))
  else if includes videoUrl (js "drive.google.com") then
    match driveFileId videoUrl with
    | Some fileId =>
        if truthy fileId then Normal (driveThumbnail fileId)
        else youtubeOrLater videoUrl
    | None => youtubeOrLater videoUrl
    end
  else youtubeOrLater videoUrl.

(** [extractVideoId]; [None] is the source's [null]. *)
Definition extractVideoId (videoUrl : jsstring) : option jsstring :=
  if includes videoUrl (js "cloudinary.com") then
    let parts := split videoUrl (js "/") in
    match last parts with
    | Some filename => head (split filename (js "."))
    | None => None
    end
  else if includes videoUrl (js "drive.google.com") then
    match downloadMatch videoUrl with
    | Some m => Some (js "drive_" ++ m)
    | None =>
        match shareMatch videoUrl with
        | Some m => Some (js "drive_" ++ m)
        | None => None
        end
    end
  else None.

(** ** Documents (server/models/Video.js and the user record) *)

Abbreviation ObjectId := N (only parsing).

Module Video.
(** A document of the [videoSchema].  [title] and [description] are
    [None] when the field is unset ([undefined]). *)
Record doc := {
  _id : ObjectId;
  title : option jsstring;
  description : option jsstring;
  cloudinaryId : jsstring;
  videoUrl : jsstring;
  thumbnailUrl : jsstring;
  duration : N;
  views : N;
  likes : list ObjectId;
  uploader : ObjectId;
  tags : list jsstring;
  isPrivate : bool;
  createdAt : N;
  updatedAt : N
}.

Definition set_likes (l : list ObjectId) (v : doc) : doc :=
  {| _id := _id v; title := title v; description := description v;
     cloudinaryId := cloudinaryId v; videoUrl := videoUrl v;
     thumbnailUrl := thumbnailUrl v; duration := duration v;
     views := views v; likes := l; uploader := uploader v;
     tags := tags v; isPrivate := isPrivate v;
     createdAt := createdAt v; updatedAt := updatedAt v |}.

Definition set_updatedAt (t : N) (v : doc) : doc :=
  {| _id := _id v; title := title v; description := description v;
     cloudinaryId := cloudinaryId v; videoUrl := videoUrl v;
     thumbnailUrl := thumbnailUrl v; duration := duration v;
     views := views v; likes := likes v; uploader := uploader v;
     tags := tags v; isPrivate := isPrivate v;
     createdAt := createdAt v; updatedAt := t |}.

(** The validators of the schema: [required] rejects an unset or empty
    string, [maxlength] bounds the number of code units. *)
Definition required (s : option jsstring) : bool :=
  match s with
  | Some s => truthy s
  | None => false
  end.

Definition maxlength (n : nat) (s : option jsstring) : bool :=
  match s with
  | Some s => bool_decide (length s ≤ n)%nat
  | None => true
  end.

Definition valid (v : doc) : bool :=
  required (title v) && maxlength 200 (title v)
  && maxlength 2000 (description v)
  && truthy (cloudinaryId v) && truthy (videoUrl v)
  && truthy (thumbnailUrl v).
End Video.

Module User.
(** The user record, as far as the video routes read and write it. *)
Record doc := {
  _id : ObjectId;
  username : jsstring;
  avatar : jsstring;
  videos : list ObjectId
}.

Definition set_videos (l : list ObjectId) (u : doc) : doc :=
  {| _id := _id u; username := username u; avatar := avatar u;
     videos := l |}.
End User.

(** ** The world the handlers run in *)

Inductive LogEntry := ConsoleError (label : jsstring) (e : exn).

Record World := {
  Videos : gmap ObjectId Video.doc;     (* the videos collection *)
  Users : gmap ObjectId User.doc;       (* the users collection *)
  blobStore : gset jsstring;            (* public ids of the stored assets *)
  destroyCalls : list jsstring;         (* destroy requests sent so far *)
  console : list LogEntry;
  clock : nat → N;                      (* value of the n-th [Date.now()] *)
  clockReads : nat;
  nextObjectId : ObjectId;              (* the id [new Video] assigns next *)
  dbFaults : list bool;                 (* [true]: that database call rejects *)
  blobFaults : list bool                (* [true]: that blob-store call rejects *)
}.

Definition with_Videos (f : gmap ObjectId Video.doc → gmap ObjectId Video.doc)
  (w : World) : World :=
  {| Videos := f (Videos w); Users := Users w; blobStore := blobStore w;
     destroyCalls := destroyCalls w; console := console w; clock := clock w;
     clockReads := clockReads w; nextObjectId := nextObjectId w;
     dbFaults := dbFaults w; blobFaults := blobFaults w |}.

Definition with_Users (f : gmap ObjectId User.doc → gmap ObjectId User.doc)
  (w : World) : World :=
  {| Videos := Videos w; Users := f (Users w); blobStore := blobStore w;
     destroyCalls := destroyCalls w; console := console w; clock := clock w;
     clockReads := clockReads w; nextObjectId := nextObjectId w;
     dbFaults := dbFaults w; blobFaults := blobFaults w |}.

Definition with_blobStore (f : gset jsstring → gset jsstring) (w : World)
  : World :=
  {| Videos := Videos w; Users := Users w; blobStore := f (blobStore w);
     destroyCalls := destroyCalls w; console := console w;
     clock := clock w; clockReads := clockReads w;
     nextObjectId := nextObjectId w;
     dbFaults := dbFaults w; blobFaults := blobFaults w |}.

Definition with_destroyCall (publicId : jsstring) (w : World) : World :=
  {| Videos := Videos w; Users := Users w; blobStore := blobStore w;
     destroyCalls := destroyCalls w ++ [publicId]; console := console w;
     clock := clock w; clockReads := clockReads w;
     nextObjectId := nextObjectId w;
     dbFaults := dbFaults w; blobFaults := blobFaults w |}.

Definition with_console (e : LogEntry) (w : World) : World :=
  {| Videos := Videos w; Users := Users w; blobStore := blobStore w;
     destroyCalls := destroyCalls w; console := console w ++ [e];
     clock := clock w; clockReads := clockReads w;
     nextObjectId := nextObjectId w;
     dbFaults := dbFaults w; blobFaults := blobFaults w |}.

Definition with_clockReads (n : nat) (w : World) : World :=
  {| Videos := Videos w; Users := Users w; blobStore := blobStore w;
     destroyCalls := destroyCalls w; console := console w; clock := clock w;
     clockReads := n; nextObjectId := nextObjectId w;
     dbFaults := dbFaults w; blobFaults := blobFaults w |}.

Definition with_nextObjectId (i : ObjectId) (w : World) : World :=
  {| Videos := Videos w; Users := Users w; blobStore := blobStore w;
     destroyCalls := destroyCalls w; console := console w; clock := clock w;
     clockReads := clockReads w; nextObjectId := i;
     dbFaults := dbFaults w; blobFaults := blobFaults w |}.

Definition with_dbFaults (l : list bool) (w : World) : World :=
  {| Videos := Videos w; Users := Users w; blobStore := blobStore w;
     destroyCalls := destroyCalls w; console := console w; clock := clock w;
     clockReads := clockReads w; nextObjectId := nextObjectId w;
     dbFaults := l; blobFaults := blobFaults w |}.

Definition with_blobFaults (l : list bool) (w : World) : World :=
  {| Videos := Videos w; Users := Users w; blobStore := blobStore w;
     destroyCalls := destroyCalls w; console := console w; clock := clock w;
     clockReads := clockReads w; nextObjectId := nextObjectId w;
     dbFaults := dbFaults w; blobFaults := l |}.

(** ** The handler monad: state passing over [World], with exceptions *)

Definition M (A : Type) : Type := World → completion A * World.

#[global] Instance M_ret : MRet M := λ A a w, (Normal a, w).

#[global] Instance M_bind : MBind M := λ A B f m w,
  match m w with
  | (Normal a, w') => f a w'
  | (Throw e, w') => (Throw e, w')
  end.

Definition throw {A} (e : exn) : M A := λ w, (Throw e, w).

(** [try { body } catch (error) { handler }] *)
Definition try_catch {A} (body : M A) (handler : exn → M A) : M A := λ w,
  match body w with
  | (Normal a, w') => (Normal a, w')
  | (Throw e, w') => handler e w'
  end.

(** A pure computation that may throw, run inside a handler. *)
Definition lift {A} (c : completion A) : M A := λ w, (c, w).

Definition get_world : M World := λ w, (Normal w, w).

Definition modify (f : World → World) : M unit := λ w, (Normal (), f w).

Definition console_error (label : jsstring) (e : exn) : M unit :=
  modify (with_console (ConsoleError label e)).

(** [Date.now()] *)
Definition Date_now : M N :=
  w ← get_world;
  modify (with_clockReads (S (clockReads w)));;
  mret (clock w (clockReads w)).

(** Every awaited database call first learns whether the database rejects
    it; a rejected call changes nothing. *)
Definition dbCall : M unit :=
  w ← get_world;
  match dbFaults w with
  | [] => mret ()
  | false :: rest => modify (with_dbFaults rest)
  | true :: rest => modify (with_dbFaults rest);; throw PersistenceError
  end.

Definition blobCall : M unit :=
  w ← get_world;
  match blobFaults w with
  | [] => mret ()
  | false :: rest => modify (with_blobFaults rest)
  | true :: rest => modify (with_blobFaults rest);; throw BlobStoreError
  end.

(** *** Mongoose and Cloudinary calls used by the routes *)

(** [Video.findById(id)], the parameter already cast to the ObjectId [id];
    the cast of the string the request carries is in [delete_route],
    [like_route] and [video_route] below. *)
Definition Video_findById (id : ObjectId) : M (option Video.doc) :=
  dbCall;;
  w ← get_world;
  mret (Videos w !! id).

(** [Video.findByIdAndDelete(id)] *)
Definition Video_findByIdAndDelete (id : ObjectId) : M unit :=
  dbCall;;
  modify (with_Videos (delete id)).

(** [$push] and [$pull] on the [videos] array of a user. *)
Definition pushVideo (vid : ObjectId) (u : User.doc) : User.doc :=
  User.set_videos (User.videos u ++ [vid]) u.

Definition pullVideo (vid : ObjectId) (u : User.doc) : User.doc :=
  User.set_videos (filter (λ i, i ≠ vid) (User.videos u)) u.

(** [User.findByIdAndUpdate(uid, { $push: { videos: vid } })] *)
Definition User_push_video (uid vid : ObjectId) : M unit :=
  dbCall;;
  modify (with_Users (alter (pushVideo vid) uid)).

(** [User.findByIdAndUpdate(uid, { $pull: { videos: vid } })] *)
Definition User_pull_video (uid vid : ObjectId) : M unit :=
  dbCall;;
  modify (with_Users (alter (pullVideo vid) uid)).

(** [cloudinary.uploader.destroy(publicId, { resource_type: 'video' })]: the
    request is sent; the blob store either rejects it or drops the asset. *)
Definition cloudinary_destroy (publicId : jsstring) : M unit :=
  modify (with_destroyCall publicId);;
  blobCall;;
  modify (with_blobStore (λ s, s ∖ {[publicId]})).

(** [new Video({...})]: the document gets a fresh id, the schema's setters
    ([trim] on [title], [description] and every tag) and its defaults. *)
Definition new_Video (title description : option jsstring)
  (cloudinaryId videoUrl thumbnailUrl : jsstring) (uploader : ObjectId)
  (tags : list jsstring) : M Video.doc :=
  w ← get_world;
  modify (with_nextObjectId (N.succ (nextObjectId w)));;
  createdAt ← Date_now;
  updatedAt ← Date_now;
  mret {| Video._id := nextObjectId w;
          Video.title := trim <$> title;
          Video.description := trim <$> description;
          Video.cloudinaryId := cloudinaryId;
          Video.videoUrl := videoUrl;
          Video.thumbnailUrl := thumbnailUrl;
          Video.duration := 0;
          Video.views := 0;
          Video.likes := [];
          Video.uploader := uploader;
          Video.tags := trim <$> tags;
          Video.isPrivate := false;
          Video.createdAt := createdAt;
          Video.updatedAt := updatedAt |}.

(** [video.save()] on a new document: validation, the [pre('save')] hook
    that refreshes [updatedAt], then the insert (which a taken id fails). *)
Definition Video_save_new (video : Video.doc) : M Video.doc :=
  if Video.valid video then
    now ← Date_now;
    let video := Video.set_updatedAt now video in
    dbCall;;
    w ← get_world;
    match Videos w !! Video._id video with
    | Some _ => throw PersistenceError
    | None =>
        modify (with_Videos (insert (Video._id video) video));;
        mret video
    end
  else throw ValidationError.

(** [video.save()] on a document loaded from the collection: Mongoose
    validates the loaded paths again, so a stored record that fails the
    schema is rejected before anything is written; then the [pre('save')]
    hook runs and the document is written back. *)
Definition Video_save (video : Video.doc) : M Video.doc :=
  if Video.valid video then
    now ← Date_now;
    let video := Video.set_updatedAt now video in
    dbCall;;
    modify (with_Videos (insert (Video._id video) video));;
    mret video
  else throw ValidationError.

(** A video with its [uploader] reference expanded to the selected fields
    of the user ([null] when there is no such user). *)
Record Profile := {
  profile_id : ObjectId;
  profile_username : jsstring;
  profile_avatar : jsstring
}.

Record Populated := {
  document : Video.doc;
  uploaderProfile : option Profile
}.

Definition profileOf (u : User.doc) : Profile :=
  {| profile_id := User._id u;
     profile_username := User.username u;
     profile_avatar := User.avatar u |}.

Definition expand (w : World) (video : Video.doc) : Populated :=
  {| document := video;
     uploaderProfile := profileOf <$> Users w !! Video.uploader video |}.

(** [.populate('uploader', 'username avatar')] *)
Definition populate (video : Video.doc) : M Populated :=
  dbCall;;
  w ← get_world;
  mret (expand w video).

(** The order of [.sort({ createdAt: -1 })]. *)
Definition newerFirst (a b : Video.doc) : Prop :=
  Video.createdAt b ≤ Video.createdAt a.

#[global] Instance newerFirst_dec : RelDecision newerFirst.
Proof. intros a b. unfold newerFirst. apply _. Defined.

(** The documents of the collection that satisfy a filter. *)
Definition selected (q : Video.doc → bool) (w : World) : list Video.doc :=
  filter (λ v, q v = true) (map_to_list (Videos w)).*2.

(** The populate step of a [find]: one more query, for the uploaders of
    the documents found; none is sent when nothing was found. *)
Definition populate_all (found : list Video.doc) : M (list Populated) :=
  match found with
  | [] => mret []
  | _ :: _ =>
      dbCall;;
      w ← get_world;
      mret (expand w <$> found)
  end.

(** [Video.find(q).populate(..).sort({ createdAt: -1 }).limit(l).skip(s)]:
    the database sorts, skips, then limits; a limit of 0 means no limit and
    a negative skip is rejected. *)
Definition Video_find_page (q : Video.doc → bool) (limit : N) (skip : Z)
  : M (list Populated) :=
  dbCall;;
  w ← get_world;
  if (skip <? 0)%Z then throw PersistenceError
  else
    let sorted := merge_sort newerFirst (selected q w) in
    let skipped := drop (Z.to_nat skip) sorted in
    let page := if limit =? 0 then skipped
                else take (N.to_nat limit) skipped in
    populate_all page.

(** [Video.countDocuments(q)] *)
Definition Video_countDocuments (q : Video.doc → bool) : M N :=
  dbCall;;
  w ← get_world;
  mret (N.of_nat (length (selected q w))).

(** ** Requests and responses *)

Record Body := {
  body_title : option jsstring;
  body_description : option jsstring;
  body_tags : option jsstring;
  body_videoUrl : option jsstring
}.

(** [req.file], as the storage engine leaves it after the upload. *)
Record File := {
  filename : jsstring;
  path : jsstring
}.

(** [req.query]: [page] and [limit] are absent or decimal numerals. *)
Record Query := {
  query_page : option N;
  query_limit : option N;
  query_search : option jsstring
}.

Inductive Payload :=
| Message (message : jsstring)
| VideoJson (video : Populated)
| VideoPage (videos : list Populated) (totalPages : option N) (currentPage : N)
| LikeState (liked : bool) (likesCount : nat).

Record Response := {
  status : N;
  payload : Payload
}.

(** [res.status(code).json(payload)] *)
Definition respond (code : N) (p : Payload) : M Response :=
  mret {| status := code; payload := p |}.

(** ** The routes (routes/videos.js, lines 120-341) *)

(** [tags ? tags.split(',').map(tag => tag.trim()) : []] *)
Definition splitTags (tags : option jsstring) : list jsstring :=
  match tags with
  | Some tags =>
      if truthy tags then trim <$> split tags (js ",") else []
  | None => []
  end.

(** [Math.ceil(total / limit)] on natural numbers of the size a catalogue
    can have; [None] when the quotient is not finite. *)
Definition totalPagesOf (total limit : N) : option N :=
  if limit =? 0 then None
  else Some (if total mod limit =? 0 then total / limit
             else total / limit + 1).

Section Routes.

(** [new URL(s)] does not throw. *)
Variable isValidURL : jsstring → bool.

(** A case-insensitive regular-expression search of a pattern in a
    subject, as the database runs it for [$regex] with option [i]. *)
Variable regexTest : jsstring → jsstring → bool.

(** [new RegExp(s, 'i')] does not throw: [s] is a pattern. *)
Variable validPattern : jsstring → bool.

(** The handler of [router.post('/upload', auth, upload.single('video'),
    ...)], on the [req.file] the storage engine has left; the engine itself
    is [upload_single] below and the whole route [upload_route]. *)
Definition post_upload (user : ObjectId) (file : option File) (body : Body)
  : M Response :=
  try_catch
    (match file with
     | None => respond 400 (Message (js "No video file provided"))
     | Some file =>
         let cloudinaryId := filename file in
         let videoUrl := path file in
         thumbnailUrl ← lift (generateThumbnailUrl videoUrl);
         video ← new_Video (body_title body) (body_description body)
                   cloudinaryId videoUrl thumbnailUrl user
                   (splitTags (body_tags body));
         video ← Video_save_new video;
         User_push_video user (Video._id video);;
         populated ← populate video;
         respond 201 (VideoJson populated)
     end)
    (λ error,
       console_error (js "Video upload error:") error;;
       respond 500 (Message (js "Error uploading video"))).

(** [extractVideoId(videoUrl) || `link_${Date.now()}`] *)
Definition linkCloudinaryId (videoUrl : jsstring) : M jsstring :=
  match extractVideoId videoUrl with
  | Some id =>
      if truthy id then mret id
      else now ← Date_now; mret (js "link_" ++ ofNumber now)
  | None => now ← Date_now; mret (js "link_" ++ ofNumber now)
  end.

(** [router.post('/upload-link', auth, ...)] *)
Definition post_upload_link (user : ObjectId) (body : Body) : M Response :=
  try_catch
    (match body_videoUrl body with
     | None => respond 400 (Message (js "Video URL is required"))
     | Some videoUrl =>
         if negb (truthy videoUrl)
         then respond 400 (Message (js "Video URL is required"))
         else if negb (isValidURL videoUrl)
         then respond 400 (Message (js "Invalid video URL format"))
         else
           thumbnailUrl ← lift (generateThumbnailUrl videoUrl);
           cloudinaryId ← linkCloudinaryId videoUrl;
           video ← new_Video (body_title body) (body_description body)
                     cloudinaryId videoUrl thumbnailUrl user
                     (splitTags (body_tags body));
           video ← Video_save_new video;
           User_push_video user (Video._id video);;
           populated ← populate video;
           respond 201 (VideoJson populated)
     end)
    (λ error,
       console_error (js "Video link upload error:") error;;
       respond 500 (Message (js "Error adding video link"))).

(** The filter of [router.get('/')]: public videos, and with a search
    term a match in the title, the description or some tag. *)
Definition catalogQuery (search : option jsstring) (v : Video.doc) : bool :=
  negb (Video.isPrivate v) &&
  match search with
  | Some search =>
      if truthy search then
        from_option (regexTest search) false (Video.title v)
        || from_option (regexTest search) false (Video.description v)
        || existsb (regexTest search) (Video.tags v)
      else true
  | None => true
  end.

(** Building the query object of [router.get('/')]: with a search term,
    [new RegExp(search, 'i')] is evaluated for the tag condition and throws
    a SyntaxError when the term is no pattern. *)
Definition buildQuery (search : option jsstring)
  : completion (Video.doc → bool) :=
  match search with
  | Some term =>
      if truthy term && negb (validPattern term) then Throw SyntaxError
      else Normal (catalogQuery search)
  | None => Normal (catalogQuery search)
  end.

(** [router.get('/', ...)] *)
Definition get_videos (q : Query) : M Response :=
  try_catch
    (let page := default 1 (query_page q) in
     let limit := default 12 (query_limit q) in
     query ← lift (buildQuery (query_search q));
     videos ← Video_find_page query (limit * 1)
                ((Z.of_N page - 1) * Z.of_N limit)%Z;
     total ← Video_countDocuments query;
     respond 200 (VideoPage videos (totalPagesOf total limit) page))
    (λ error,
       console_error (js "Get videos error:") error;;
       respond 500 (Message (js "Error fetching videos"))).

(** [router.delete('/:id', auth, ...)] on a request whose [:id] is the
    ObjectId [id]. *)
Definition delete_video (user id : ObjectId) : M Response :=
  try_catch
    (video ← Video_findById id;
     match video with
     | None => respond 404 (Message (js "Video not found"))
     | Some video =>
         if negb (Video.uploader video =? user)
         then respond 403 (Message (js "Not authorized to delete this video"))
         else
           (if includes (Video.videoUrl video) (js "cloudinary.com")
            then try_catch
                   (cloudinary_destroy (Video.cloudinaryId video))
                   (λ cloudinaryError,
                      console_error (js "Cloudinary deletion error:")
                        cloudinaryError)
            else mret ());;
           Video_findByIdAndDelete id;;
           User_pull_video user id;;
           respond 200 (Message (js "Video deleted successfully"))
     end)
    (λ error,
       console_error (js "Delete video error:") error;;
       respond 500 (Message (js "Error deleting video"))).

(** [router.post('/:id/like', auth, ...)] on a request whose [:id] is the
    ObjectId [id].  [likes] is a Mongoose array of
    ObjectIds: its [includes] compares ids by value, as the comparison of
    the [toString()] renderings in the [filter] callback does. *)
Definition post_like (user id : ObjectId) : M Response :=
  try_catch
    (video ← Video_findById id;
     match video with
     | None => respond 404 (Message (js "Video not found"))
     | Some video =>
         let userLiked := bool_decide (user ∈ Video.likes video) in
         let video :=
           if userLiked
           then Video.set_likes
                  (filter (λ id, id ≠ user) (Video.likes video)) video
           else Video.set_likes (Video.likes video ++ [user]) video in
         video ← Video_save video;
         respond 200
           (LikeState (negb userLiked) (length (Video.likes video)))
     end)
    (λ error,
       console_error (js "Like video error:") error;;
       respond 500 (Message (js "Error liking video"))).

End Routes.

(** ** The storage engine in front of the file upload (routes/videos.js,
    lines 20-39 and 121)

    [upload.single('video')] runs before the handler of [POST /upload].
    Without a file part it leaves [req.file] unset.  With one, the storage
    engine sends the file to the blob store; what the blob store answers
    (the public id it gave the asset and the asset's URL) becomes
    [req.file.filename] and [req.file.path].  A refusal (of the format, of
    the size, or of the request) is a rejected blob-store call: the error
    goes to Express, not to the handler. *)

Record Asset := {
  public_id : jsstring;
  secure_url : jsstring
}.

Definition upload_single (part : option Asset) : M (option File) :=
  match part with
  | None => mret None
  | Some asset =>
      blobCall;;
      modify (with_blobStore (λ s, s ∪ {[public_id asset]}));;
      mret (Some {| filename := public_id asset; path := secure_url asset |})
  end.

(** [router.post('/upload', auth, upload.single('video'), ...)]: the storage
    engine, then the handler.  The route throws when the engine fails. *)
Definition upload_route (user : ObjectId) (part : option Asset) (body : Body)
  : M Response :=
  file ← upload_single part;
  post_upload user file body.

(** ** Vocabulary of the specification

    The provider patterns of the specification as tests on the URL string,
    built from the tests of the source. *)

Definition matched (m : option jsstring) : bool :=
  match m with Some _ => true | None => false end.

(** Blob-store-hosted: the URL contains the storage domain marker. *)
Definition isBlobStoreUrl (url : jsstring) : bool :=
  includes url (js "cloudinary.com").

(** Google Drive with an identifier: one of the two id patterns matches. *)
Definition hasDriveId (url : jsstring) : bool :=
  includes url (js "drive.google.com")
  && (matched (downloadMatch url) || matched (shareMatch url)).

(** YouTube: one of the two markers occurs. *)
Definition isYouTubeUrl (url : jsstring) : bool :=
  includes url (js "youtube.com/watch?v=") || includes url (js "youtu.be/").

Definition isVimeoUrl (url : jsstring) : bool :=
  includes url (js "vimeo.com").

(** A request's [title] and [description] pass the validators of the
    schema once its setters have trimmed them. *)
Definition validText (title description : option jsstring) : bool :=
  Video.required (trim <$> title)
  && Video.maxlength 200 (trim <$> title)
  && Video.maxlength 2000 (trim <$> description).

(** The storage identifier link mode gives a video at clock value [now]:
    [extractVideoId(videoUrl) || `link_${now}`]. *)
Definition linkIdAt (now : N) (videoUrl : jsstring) : jsstring :=
  match extractVideoId videoUrl with
  | Some id => if truthy id then id else js "link_" ++ ofNumber now
  | None => js "link_" ++ ofNumber now
  end.

(** The tag set as the specification words it: the comma-split segments,
    each trimmed, with empty segments excluded; empty without a tag string. *)
Definition specTags (tags : option jsstring) : list jsstring :=
  match tags with
  | Some tags => filter (λ t, truthy t = true) (trim <$> split tags (js ","))
  | None => []
  end.

(** A video the listing shows, in the words of the specification: it is
    public and, when a search term is given, the term is found in its
    title, in its description or in one of its tags. *)
Definition isListed (regexTest : jsstring → jsstring → bool)
  (search : option jsstring) (v : Video.doc) : bool :=
  match Video.isPrivate v, search with
  | true, _ => false
  | false, None => true
  | false, Some term =>
      match term with
      | [] => true
      | _ :: _ =>
          existsb (regexTest term)
            (option_list (Video.title v)
               ++ option_list (Video.description v) ++ Video.tags v)
      end
  end.

(** The search term of a request, when there is one, is a pattern. *)
Definition compiles (validPattern : jsstring → bool)
  (search : option jsstring) : Prop :=
  ∀ term, search = Some term → truthy term = true → validPattern term = true.

(** The [likes] array after one toggle by [user]: the caller's id is
    filtered out when present and pushed when absent. *)
Definition toggled (user : ObjectId) (likes : list ObjectId)
  : list ObjectId :=
  if bool_decide (user ∈ likes)
  then filter (λ id, id ≠ user) likes
  else likes ++ [user].

(** ** A concrete catalogue, for running the handlers *)

Module Sample.

(** A stand-in for the URL parser that accepts the sample URLs. *)
Definition parsesAsURL (s : jsstring) : bool := startsWith s (js "http").

(** A stand-in for the database's regular-expression search. *)
Definition search (pattern subject : jsstring) : bool :=
  includes subject pattern.

(** A stand-in for the pattern parser, right on the sample terms: it
    refuses the terms with an opening parenthesis. *)
Definition isPattern (s : jsstring) : bool := negb (includes s (js "(")).

Definition alice : User.doc :=
  {| User._id := 1; User.username := js "alice";
     User.avatar := js ""; User.videos := [10; 11] |}.

Definition bob : User.doc :=
  {| User._id := 2; User.username := js "bob";
     User.avatar := js ""; User.videos := [12] |}.

Definition hosted : Video.doc :=
  {| Video._id := 10; Video.title := Some (js "Harbour at dawn");
     Video.description := None;
     Video.cloudinaryId := js "video-sharing-platform/harbour";
     Video.videoUrl :=
       js "https://res.cloudinary.com/demo/video/upload/v1/video-sharing-platform/harbour.mp4";
     Video.thumbnailUrl :=
       js "https://res.cloudinary.com/demo/video/so_0/upload/v1/video-sharing-platform/harbour.mp4";
     Video.duration := 0; Video.views := 3; Video.likes := [2];
     Video.uploader := 1; Video.tags := [js "sea"];
     Video.isPrivate := false;
     Video.createdAt := 1000; Video.updatedAt := 1000 |}.

Definition linked : Video.doc :=
  {| Video._id := 11; Video.title := Some (js "Talk");
     Video.description := Some (js "A recorded talk");
     Video.cloudinaryId := js "link_3000";
     Video.videoUrl := js "https://youtu.be/abc123";
     Video.thumbnailUrl :=
       js "https://img.youtube.com/vi/abc123/maxresdefault.jpg";
     Video.duration := 0; Video.views := 0; Video.likes := [];
     Video.uploader := 1; Video.tags := [];
     Video.isPrivate := false;
     Video.createdAt := 3000; Video.updatedAt := 3000 |}.

Definition direct : Video.doc :=
  {| Video._id := 12; Video.title := Some (js "Clip");
     Video.description := None;
     Video.cloudinaryId := js "link_2000";
     Video.videoUrl := js "https://example.org/clip.mp4";
     Video.thumbnailUrl := placeholderThumbnail;
     Video.duration := 0; Video.views := 0; Video.likes := [1; 2];
     Video.uploader := 2; Video.tags := [js "short"];
     Video.isPrivate := false;
     Video.createdAt := 2000; Video.updatedAt := 2000 |}.

(** Three public videos, two users; the blob store refuses the next
    request it gets. *)
Definition world : World :=
  {| Videos := {[ 10 := hosted; 11 := linked; 12 := direct ]};
     Users := {[ 1 := alice; 2 := bob ]};
     blobStore := {[ js "video-sharing-platform/harbour" ]};
     destroyCalls := [];
     console := [];
     clock := λ n, 5000 + N.of_nat n;
     clockReads := 0;
     nextObjectId := 13;
     dbFaults := [];
     blobFaults := [true] |}.

Definition linkBody (videoUrl tags : string) : Body :=
  {| body_title := Some (js "  A title ");
     body_description := None;
     body_tags := Some (js tags);
     body_videoUrl := Some (js videoUrl) |}.

(** A stand-in for the cast to an ObjectId: the value of a string of 24
    hexadecimal digits. *)
Definition hexDigit (c : N) : option N :=
  if (48 <=? c) && (c <=? 57) then Some (c - 48)
  else if (97 <=? c) && (c <=? 102) then Some (c - 87)
  else if (65 <=? c) && (c <=? 70) then Some (c - 55)
  else None.

Definition objectIdOf (s : jsstring) : option ObjectId :=
  if bool_decide (length s = 24%nat)
  then foldl (λ acc c, a ← acc; d ← hexDigit c; Some (16 * a + d)) (Some 0) s
  else None.

Definition asset : Asset :=
  {| public_id := js "video-sharing-platform/new";
     secure_url := js "https://res.cloudinary.com/demo/video/upload/v1/video-sharing-platform/new.mp4" |}.

Definition file : File :=
  {| filename := js "video-sharing-platform/new";
     path := js "https://res.cloudinary.com/demo/video/upload/v1/video-sharing-platform/new.mp4" |}.

End Sample.

(** * The rest of the code

    ** The two reading routes (routes/videos.js, lines 239-272) *)

Definition Video_set_views (n : N) (v : Video.doc) : Video.doc :=
  {| Video._id := Video._id v; Video.title := Video.title v;
     Video.description := Video.description v;
     Video.cloudinaryId := Video.cloudinaryId v;
     Video.videoUrl := Video.videoUrl v;
     Video.thumbnailUrl := Video.thumbnailUrl v;
     Video.duration := Video.duration v; Video.views := n;
     Video.likes := Video.likes v; Video.uploader := Video.uploader v;
     Video.tags := Video.tags v; Video.isPrivate := Video.isPrivate v;
     Video.createdAt := Video.createdAt v;
     Video.updatedAt := Video.updatedAt v |}.

(** [n + 1] on a Number that holds the whole value [n]: exact below 2^53;
    from there on the sum is rounded to the nearest Number, to the even one
    when it lies between two. *)
Definition plusOne (n : N) : N :=
  if n <? 2 ^ 53 then n + 1
  else if (n <? 2 ^ 54) && (n mod 4 =? 2) then n + 2
  else n.

(** The fields [.populate('uploader', 'username avatar bio')] selects. *)
Record Author := {
  author_profile : Profile;
  author_bio : option jsstring
}.

Inductive Content :=
| Failure (message : jsstring)
| VideoDetail (video : Video.doc) (uploader : option Author)
| VideoArray (videos : list Populated).

Record Reply := {
  code : N;
  content : Content
}.

Definition reply (c : N) (p : Content) : M Reply :=
  mret {| code := c; content := p |}.

(** [Video.find(q).populate('uploader', 'username avatar')
      .sort({ createdAt: -1 })] *)
Definition Video_find_sorted (q : Video.doc → bool) : M (list Populated) :=
  dbCall;;
  w ← get_world;
  let sorted := merge_sort newerFirst (selected q w) in
  populate_all sorted.

Section ReadingRoutes.

(** The [bio] the users collection holds for a user; the user record of
    this development does not carry it and no video route writes it. *)
Variable bioOf : ObjectId → option jsstring.

Definition authorOf (u : User.doc) : Author :=
  {| author_profile := profileOf u; author_bio := bioOf (User._id u) |}.

(** [.populate('uploader', 'username avatar bio')] *)
Definition populate_author (video : Video.doc) : M (option Author) :=
  dbCall;;
  w ← get_world;
  mret (authorOf <$> Users w !! Video.uploader video).

(** [router.get('/:id', ...)] on a request whose [:id] is the ObjectId
    [id]. *)
Definition get_video (id : ObjectId) : M Reply :=
  try_catch
    (found ← Video_findById id;
     uploader ← match found with
                | Some video => populate_author video
                | None => mret None
                end;
     match found with
     | None => reply 404 (Failure (js "Video not found"))
     | Some video =>
         let video := Video_set_views (plusOne (Video.views video)) video in
         video ← Video_save video;
         reply 200 (VideoDetail video uploader)
     end)
    (λ error,
       console_error (js "Get video error:") error;;
       reply 500 (Failure (js "Error fetching video"))).

(** [router.get('/user/my-videos', auth, ...)] *)
Definition get_my_videos (user : ObjectId) : M Reply :=
  try_catch
    (videos ← Video_find_sorted (λ v, Video.uploader v =? user);
     reply 200 (VideoArray videos))
    (λ error,
       console_error (js "Get user videos error:") error;;
       reply 500 (Failure (js "Error fetching user videos"))).

End ReadingRoutes.

(** ** The routes on the [:id] parameter as the request carries it

    Express hands a handler [req.params.id] as a string.  The first
    statement of each of the three handlers is [await Video.findById(
    req.params.id)], inside the handler's [try]: Mongoose casts the string
    when it builds the query, and a string that is no ObjectId makes the
    call reject with a CastError before anything is sent to the database.
    The handler's own [catch] then logs and answers. *)

Section RouteParameter.

(** The cast: the ObjectId a string denotes, [None] when there is none. *)
Variable castObjectId : jsstring → option ObjectId.

Variable bioOf : ObjectId → option jsstring.

Definition delete_route (user : ObjectId) (param : jsstring) : M Response :=
  match castObjectId param with
  | Some id => delete_video user id
  | None =>
      try_catch (throw CastError)
        (λ error,
           console_error (js "Delete video error:") error;;
           respond 500 (Message (js "Error deleting video")))
  end.

Definition like_route (user : ObjectId) (param : jsstring) : M Response :=
  match castObjectId param with
  | Some id => post_like user id
  | None =>
      try_catch (throw CastError)
        (λ error,
           console_error (js "Like video error:") error;;
           respond 500 (Message (js "Error liking video")))
  end.

Definition video_route (param : jsstring) : M Reply :=
  match castObjectId param with
  | Some id => get_video bioOf id
  | None =>
      try_catch (throw CastError)
        (λ error,
           console_error (js "Get video error:") error;;
           reply 500 (Failure (js "Error fetching video")))
  end.

End RouteParameter.

(** ** The player component (its source is the second half of
    server/models/Video.js, lines 68-464) *)

(** [isGoogleDriveVideo], on the [src] of the component *)
Definition isGoogleDriveVideo (src : jsstring) : bool :=
  includes src (js "drive.google.com").

(** [getDriveEmbedUrl] *)
Definition getDriveEmbedUrl (url : jsstring) : jsstring :=
  match downloadMatch url with
  | Some fileId =>
      js "https://drive.google.com/file/d/" ++ fileId ++ js "/preview"
  | None =>
      match shareMatch url with
      | Some fileId =>
          js "https://drive.google.com/file/d/" ++ fileId ++ js "/preview"
      | None => url
      end
  end.

(** [getVideoUrl], on the [quality] and [src] of the component *)
Definition getVideoUrl (quality src : jsstring) : jsstring :=
  if bool_decide (quality = js "auto") then src
  else if includes src (js "cloudinary.com") then
    match split src (js "/upload/") with
    | [before; after] =>
        before ++ js "/upload/" ++ quality ++ js "/" ++ after
    | _ => src
    end
  else src.

(** What the component renders: an iframe for a Drive video, a video
    element otherwise. *)
Inductive Rendered :=
| DriveIframe (src : jsstring)
| VideoElement (src : jsstring).

Definition renderPlayer (quality src : jsstring) : Rendered :=
  if isGoogleDriveVideo src then DriveIframe (getDriveEmbedUrl src)
  else VideoElement (getVideoUrl quality src).

(** ** The video card (components/VideoCard.jsx) *)

(** [s.padStart(targetLength, padString)] *)
Definition padStart (s : jsstring) (targetLength : nat) (padString : jsstring)
  : jsstring :=
  if decide (targetLength ≤ length s)%nat then s
  else match padString with
       | [] => s
       | _ :: _ =>
           take (targetLength - length s)
             (mjoin (replicate (targetLength - length s) padString)) ++ s
       end.

(** [formatDuration], on a whole number of seconds below 2^53: there the
    division and the remainder are exact and the minutes print in full. *)
Definition formatDuration (seconds : N) : jsstring :=
  let minutes := seconds / 60 in
  let secs := seconds mod 60 in
  ofNumber minutes ++ js ":" ++ padStart (ofNumber secs) 2 (js "0").

(** The [intervals] table of [timeAgo]. *)
Definition intervals : list (jsstring * Z) :=
  [ (js "year", 31536000%Z); (js "month", 2592000%Z);
    (js "week", 604800%Z); (js "day", 86400%Z);
    (js "hour", 3600%Z); (js "minute", 60%Z) ].

(** [`${count} ${interval.label}${count > 1 ? 's' : ''} ago`] *)
Definition agoText (count : Z) (label : jsstring) : jsstring :=
  ofNumber (Z.to_N count) ++ js " " ++ label
    ++ (if (1 <? count)%Z then js "s" else js "") ++ js " ago".

(** The [for] loop of [timeAgo] over the intervals still to try. *)
Fixpoint timeAgoFrom (diffInSeconds : Z) (rest : list (jsstring * Z))
  : jsstring :=
  match rest with
  | [] => js "Just now"
  | (label, seconds) :: rest' =>
      let count := (diffInSeconds / seconds)%Z in
      if (1 <=? count)%Z then agoText count label
      else timeAgoFrom diffInSeconds rest'
  end.

(** The time value of [new Date(t)] for a whole number [t] of
    milliseconds: outside ±8.64e15 the date is an Invalid Date, [None]. *)
Definition timeClip (t : Z) : option Z :=
  if (Z.abs t <=? 8640000000000000)%Z then Some t else None.

(** [timeAgo]; [now] is the time value of [new Date()] and [date] the
    number of milliseconds the card passes.  With an Invalid Date the
    difference is NaN and no count is [>= 1].  The arithmetic is that of
    whole numbers, exact while the difference stays within ±2^53. *)
Definition timeAgo (now date : Z) : jsstring :=
  match timeClip date with
  | Some videoDate =>
      let diffInSeconds := ((now - videoDate) / 1000)%Z in
      timeAgoFrom diffInSeconds intervals
  | None => js "Just now"
  end.

(** ** The upload form (in src/components/Navbar.jsx, lines 180-629) *)

(** [normalizeDriveLink] *)
Definition normalizeDriveLink (url : jsstring) : jsstring :=
  match shareMatch url with
  | Some _ => url
  | None =>
      match downloadMatch url with
      | Some id =>
          if includes url (js "drive.google.com")
          then js "https://drive.google.com/file/d/" ++ id ++ js "/view"
          else url
      | None => url
      end
  end.

(** ** What a computation leaves alone *)

(** The persistent state: both collections and the blob store. *)
Definition stores (w : World)
  : gmap N Video.doc * gmap N User.doc * gset jsstring :=
  (Videos w, Users w, blobStore w).

(** [m] keeps the relation [R] between the world it starts in and the world
    it ends in, whatever it returns or throws. *)
Definition keeps {A} (R : World → World → Prop) (m : M A) : Prop :=
  ∀ w, R w (m w).2.

(** Nothing persistent changes. *)
Definition sameStores (w w' : World) : Prop := stores w' = stores w.

(** Videos other than [id] and users other than [user] are as they were. *)
Definition onlyTouches (id user : ObjectId) (w w' : World) : Prop :=
  (∀ j, j ≠ id → Videos w' !! j = Videos w !! j)
  ∧ (∀ u, u ≠ user → Users w' !! u = Users w !! u).

(** An upload by [user] only adds: the videos there stay as they are, the
    other users and the blob store are as they were. *)
Definition onlyAdds (user : ObjectId) (w w' : World) : Prop :=
  (∀ j v, Videos w !! j = Some v → Videos w' !! j = Some v)
  ∧ (∀ u, u ≠ user → Users w' !! u = Users w !! u)
  ∧ blobStore w' = blobStore w.

(** [m] always returns, and what it returns satisfies [P]. *)
Definition returns {A} (P : A → Prop) (m : M A) : Prop :=
  ∀ w, ∃ a w', m w = (Normal a, w') ∧ P a.

(** Every result [m] returns satisfies [P]. *)
Definition answers {A} (P : A → Prop) (m : M A) : Prop :=
  ∀ w a w', m w = (Normal a, w') → P a.

(** The collection is keyed by the [_id] of its documents. *)
Definition keyedById (w : World) : Prop :=
  ∀ i v, Videos w !! i = Some v → Video._id v = i.

(** The world after [n] requests for the video [id] in a row. *)
Fixpoint afterFetches (bioOf : ObjectId → option jsstring) (id : ObjectId)
  (n : nat) (w : World) : World :=
  match n with
  | O => w
  | S n' => afterFetches bioOf id n' (get_video bioOf id w).2
  end.

(** The blob store loses assets at most. *)
Definition blobShrinks (w w' : World) : Prop := blobStore w' ⊆ blobStore w.

(** A video without the fields a like writes, and without the fields a
    fetch writes: what must come out unchanged. *)
Definition apartFromLikes (v : Video.doc) : Video.doc :=
  Video.set_likes [] (Video.set_updatedAt 0 v).

Definition apartFromViews (v : Video.doc) : Video.doc :=
  Video_set_views 0 (Video.set_updatedAt 0 v).

(** * Properties *)

(** ** Strings *)

Section StringFacts.

Implicit Types s p sub t : jsstring.

Lemma startsWith_spec s p : startsWith s p = true ↔ ∃ t, s = p ++ t.
Proof.
  revert s. induction p as [|a p IH]; intros s; simpl.
  - split; [by exists s | by destruct s].
  - destruct s as [|b s].
    + split; [done | intros [t Ht]; done].
    + simpl. rewrite andb_true_iff, IH, N.eqb_eq. split.
      * intros [-> [t ->]]. eauto.
      * intros [t Ht]. simplify_eq. eauto.
Qed.

Lemma startsWith_app p t : startsWith (p ++ t) p = true.
Proof. apply startsWith_spec. eauto. Qed.

Lemma includes_spec s sub :
  includes s sub = true ↔ ∃ a b, s = a ++ sub ++ b.
Proof.
  induction s as [|c s IH]; cbn [includes].
  - rewrite orb_false_r, startsWith_spec. split.
    + intros [t Ht]. exists [], t. done.
    + intros (a & b & Hab). destruct a; [|done]. eauto.
  - rewrite orb_true_iff, startsWith_spec, IH. split.
    + intros [[t Ht] | (a & b & Hab)].
      * exists [], t. done.
      * exists (c :: a), b. by rewrite Hab.
    + intros (a & b & Hab). destruct a as [|c' a]; simpl in Hab.
      * left. eauto.
      * right. simplify_eq. eauto.
Qed.

Lemma includes_trans s p sub :
  includes s p = true → includes p sub = true → includes s sub = true.
Proof.
  rewrite !includes_spec. intros (a & b & ->) (a' & b' & ->).
  exists (a ++ a'), (b' ++ b). by rewrite <- !(assoc_L (++)).
Qed.

Lemma includes_false_weaken s p sub :
  includes p sub = true → includes s sub = false → includes s p = false.
Proof.
  intros Hp Hs. destruct (includes s p) eqn:E; [|done].
  by rewrite (includes_trans _ _ _ E Hp) in Hs.
Qed.

Lemma includes_nonempty s sub :
  truthy sub = true → includes s sub = true → truthy s = true.
Proof.
  intros Hsub (a & b & ->)%includes_spec.
  destruct a; [destruct sub|]; done.
Qed.

Lemma split_from_length sep k cur s :
  (1 ≤ length (split_from sep k cur s))%nat.
Proof.
  revert k cur.
  induction s as [|c s IH]; intros k cur; cbn [split_from]; [simpl; lia|].
  destruct k; [|apply IH].
  destruct (startsWith _ _); [simpl; lia | apply IH].
Qed.

Lemma split_length s sep :
  truthy sep = true → (1 ≤ length (split s sep))%nat.
Proof. destruct sep; [done|]. intros _. apply split_from_length. Qed.

Lemma split_from_includes sep cur s :
  truthy sep = true → includes s sep = true →
  (2 ≤ length (split_from sep 0 cur s))%nat.
Proof.
  intros Hsep. revert cur. induction s as [|c s IH]; intros cur.
  - cbn [includes]. rewrite orb_false_r.
    intros [t Ht]%startsWith_spec. symmetry in Ht.
    apply app_eq_nil in Ht as [-> _]. done.
  - cbn [includes split_from].
    destruct (startsWith (c :: s) sep) eqn:E.
    + intros _. simpl.
      pose proof (split_from_length sep (pred (length sep)) [] s). lia.
    + simpl. apply IH.
Qed.

Lemma split_includes s sep :
  truthy sep = true → includes s sep = true →
  (2 ≤ length (split s sep))%nat.
Proof. intros Hsep. destruct sep; [done|]. by apply split_from_includes. Qed.

Lemma at_index_lt (arr : list jsstring) i :
  (i < length arr)%nat → ∃ x, at_index arr i = Normal x.
Proof.
  intros [x Hx]%lookup_lt_is_Some. exists x. unfold at_index. by rewrite Hx.
Qed.

(** *** [trim] *)

Lemma trimStart_fixed c s :
  isWhiteSpace c = false → trimStart (c :: s) = c :: s.
Proof. intros H. cbn [trimStart]. by rewrite H. Qed.

Lemma trimStart_cases s :
  trimStart s = [] ∨
  ∃ c t, trimStart s = c :: t ∧ isWhiteSpace c = false.
Proof.
  induction s as [|c s IH]; [by left|]. cbn [trimStart].
  destruct (isWhiteSpace c) eqn:E; [done|]. right. eauto.
Qed.

Lemma trimStart_idemp s : trimStart (trimStart s) = trimStart s.
Proof.
  destruct (trimStart_cases s) as [-> | (c & t & -> & H)]; [done|].
  by apply trimStart_fixed.
Qed.

Lemma trimStart_snoc s c :
  isWhiteSpace c = false → ∃ t, trimStart (s ++ [c]) = t ++ [c].
Proof.
  intros H. induction s as [|a s IH]; cbn [app trimStart].
  - rewrite H. by exists [].
  - destruct (isWhiteSpace a); [done|]. by exists (a :: s).
Qed.

Lemma trimEnd_idemp s : trimEnd (trimEnd s) = trimEnd s.
Proof. unfold trimEnd. by rewrite reverse_involutive, trimStart_idemp. Qed.

Lemma trim_idemp s : trim (trim s) = trim s.
Proof.
  unfold trim.
  assert (trimStart (trimEnd (trimStart s)) = trimEnd (trimStart s)) as ->;
    [|apply trimEnd_idemp].
  destruct (trimStart_cases s) as [-> | (c & t & -> & H)]; [done|].
  unfold trimEnd. rewrite reverse_cons.
  destruct (trimStart_snoc (reverse t) c H) as [t' ->].
  rewrite reverse_app. by apply trimStart_fixed.
Qed.

Lemma trim_fmap_idemp (l : list jsstring) :
  trim <$> (trim <$> l) = trim <$> l.
Proof.
  rewrite <- list_fmap_compose. apply list_fmap_ext.
  intros _ x _. apply trim_idemp.
Qed.

End StringFacts.

(** ** The classifier never throws *)

Section ClassifierFacts.

Implicit Types url s id : jsstring.

Lemma truthy_app_l s t : truthy s = true → truthy (s ++ t) = true.
Proof. by destruct s. Qed.

Lemma replace_truthy s pat repl :
  truthy s = true → truthy repl = true → truthy (replace s pat repl) = true.
Proof.
  intros Hs Hrepl. destruct s as [|c s]; [done|]. cbn [replace].
  destruct (startsWith _ _); [by apply truthy_app_l | done].
Qed.

Lemma split_at_1 s sep :
  truthy sep = true → includes s sep = true →
  ∃ part, at_index (split s sep) 1 = Normal part.
Proof.
  intros Hsep Hs. apply at_index_lt.
  pose proof (split_includes s sep Hsep Hs). lia.
Qed.

Lemma split_at_0 s sep :
  truthy sep = true → ∃ part, at_index (split s sep) 0 = Normal part.
Proof.
  intros Hsep. apply at_index_lt.
  pose proof (split_length s sep Hsep). lia.
Qed.

Lemma youtubeVideoId_total url : ∃ id, youtubeVideoId url = Normal id.
Proof.
  unfold youtubeVideoId.
  destruct (includes url (js "youtube.com/watch?v=")) eqn:Hwatch.
  - destruct (split_at_1 url (js "v=")) as [part ->]; [done| |].
    + by eapply includes_trans.
    + by apply split_at_0.
  - destruct (includes url (js "youtu.be/")) eqn:Hshort; [|by eexists].
    destruct (split_at_1 url (js "youtu.be/")) as [part ->]; [done..|].
    by apply split_at_0.
Qed.

Lemma vimeoVideoId_total url : ∃ id, vimeoVideoId url = Normal id.
Proof.
  unfold vimeoVideoId.
  pose proof (split_length url (js "/") eq_refl) as Hlen.
  destruct (split url (js "/")) as [|x l] eqn:E using rev_ind;
    [simpl in Hlen; lia|].
  rewrite last_snoc. by apply split_at_0.
Qed.

Lemma vimeoOrDefault_total url :
  ∃ t, vimeoOrDefault url = Normal t ∧ truthy t = true.
Proof.
  unfold vimeoOrDefault. destruct (includes url (js "vimeo.com")).
  - destruct (vimeoVideoId_total url) as [id ->]. by eexists.
  - by eexists.
Qed.

Lemma youtubeOrLater_total url :
  ∃ t, youtubeOrLater url = Normal t ∧ truthy t = true.
Proof.
  unfold youtubeOrLater. destruct (_ || _); [|apply vimeoOrDefault_total].
  destruct (youtubeVideoId_total url) as [id ->].
  destruct (truthy id); [by eexists | apply vimeoOrDefault_total].
Qed.

(** [generateThumbnailUrl] returns on every input, and what it returns is
    a non-empty string. *)
Lemma generateThumbnailUrl_total url :
  ∃ t, generateThumbnailUrl url = Normal t ∧ truthy t = true.
Proof.
  unfold generateThumbnailUrl.
  destruct (includes url (js "cloudinary.com")) eqn:Hblob.
  - eexists. split; [done|]. apply replace_truthy; [|done].
    by apply (includes_nonempty url (js "cloudinary.com")).
  - destruct (includes url (js "drive.google.com"));
      [|apply youtubeOrLater_total].
    destruct (driveFileId url) as [fileId|]; [|apply youtubeOrLater_total].
    destruct (truthy fileId); [by eexists | apply youtubeOrLater_total].
Qed.

(** *** The two regular expressions *)

Lemma includes_unit_cons c s stop :
  includes (c :: s) [stop] = (stop =? c) || includes s [stop].
Proof. cbn [includes startsWith]. by destruct s, (stop =? c). Qed.

Lemma run_stop stop id post :
  includes id [stop] = false → run stop (id ++ stop :: post) = id.
Proof.
  induction id as [|c id IH]; intros H; simpl.
  - by rewrite N.eqb_refl.
  - rewrite includes_unit_cons, (N.eqb_sym stop c) in H.
    apply orb_false_elim in H as [-> H]. f_equal. by apply IH.
Qed.

Lemma run_no_stop stop id :
  includes id [stop] = false → run stop id = id.
Proof.
  induction id as [|c id IH]; intros H; simpl; [done|].
  rewrite includes_unit_cons, (N.eqb_sym stop c) in H.
  apply orb_false_elim in H as [-> H]. f_equal. by apply IH.
Qed.

Lemma capture_skip lit stop pre rest :
  indexOf (pre ++ rest) lit = Some (length pre) →
  capture [lit] stop (pre ++ rest) = capture [lit] stop rest.
Proof.
  induction pre as [|c pre IH]; [done|].
  cbn [app indexOf capture captureAt length].
  destruct (startsWith (c :: pre ++ rest) lit); [done|].
  cbn [andb]. intros H. apply IH.
  destruct (indexOf (pre ++ rest) lit); simpl in H; by simplify_eq.
Qed.

Lemma capture_here lit stop id rest :
  truthy id = true → run stop (id ++ rest) = id →
  capture [lit] stop (lit ++ id ++ rest) = Some id.
Proof.
  intros Hid Hrun.
  assert (captureAt [lit] stop (lit ++ id ++ rest) = Some id) as Hat.
  { cbn [captureAt]. by rewrite startsWith_app, drop_app_length, Hrun, Hid. }
  destruct (lit ++ id ++ rest); cbn [capture]; by rewrite Hat.
Qed.

(** A match of either expression needs its literal in the string. *)
Lemma captureAt_includes lits stop s m :
  captureAt lits stop s = Some m →
  ∃ lit, lit ∈ lits ∧ startsWith s lit = true.
Proof.
  induction lits as [|lit lits IH]; cbn [captureAt]; [done|].
  destruct (startsWith s lit) eqn:E.
  - intros _. exists lit. split; [left | done].
  - cbn [andb]. intros (l & Hl & Hs)%IH. exists l. split; [by right | done].
Qed.

Lemma capture_includes lits stop s m :
  capture lits stop s = Some m →
  ∃ lit, lit ∈ lits ∧ includes s lit = true.
Proof.
  induction s as [|c s IH]; cbn [capture includes].
  - destruct (captureAt lits stop []) eqn:E; [|done].
    intros _. apply captureAt_includes in E as (lit & Hl & Hs).
    exists lit. by rewrite Hs.
  - destruct (captureAt lits stop (c :: s)) eqn:E.
    + intros _. apply captureAt_includes in E as (lit & Hl & Hs).
      exists lit. by rewrite Hs.
    + intros (lit & Hl & Hs)%IH. exists lit. rewrite Hs.
      by rewrite orb_true_r.
Qed.

Lemma downloadMatch_none url :
  includes url (js "id=") = false → downloadMatch url = None.
Proof.
  intros Hid. destruct (downloadMatch url) eqn:E; [|done].
  apply capture_includes in E as (lit & Hlit & Hs).
  assert (includes lit (js "id=") = true) as Hsub.
  { apply elem_of_cons in Hlit as [-> | Hlit]; [done|].
    apply list_elem_of_singleton in Hlit as ->. done. }
  by rewrite (includes_trans _ _ _ Hs Hsub) in Hid.
Qed.

Lemma shareMatch_none url :
  includes url (js "/file/d/") = false → shareMatch url = None.
Proof.
  intros Hid. destruct (shareMatch url) eqn:E; [|done].
  apply capture_includes in E as (lit & Hlit & Hs).
  apply list_elem_of_singleton in Hlit as ->. congruence.
Qed.

End ClassifierFacts.

(** ** Claims about the classifier *)

(** C1 (as stated): every URL string containing [/file/d/<id>/], [<id>]
    being the path segment after [/file/d/], gets the Drive thumbnail of
    [<id>].  This fails on [https://example.com/file/d/abc/view]: the Drive
    block is entered only when the URL also contains [drive.google.com].
    The further conjuncts show what else the source asks for: no
    [cloudinary.com] in the URL, the first occurrence of [/file/d/], and a
    non-empty segment. *)
Lemma drive_share_thumbnail_unguarded_fails :
  ¬ (∀ url pre id post : jsstring,
       url = pre ++ js "/file/d/" ++ id ++ js "/" ++ post →
       includes id (js "/") = false →
       generateThumbnailUrl url =
         Normal (js "https://drive.google.com/thumbnail?id=" ++ id
                   ++ js "&sz=w800-h450"))
  ∧ ¬ (∀ url pre id post : jsstring,
       includes url (js "drive.google.com") = true →
       url = pre ++ js "/file/d/" ++ id ++ js "/" ++ post →
       includes id (js "/") = false →
       generateThumbnailUrl url =
         Normal (js "https://drive.google.com/thumbnail?id=" ++ id
                   ++ js "&sz=w800-h450"))
  ∧ ¬ (∀ url pre id post : jsstring,
       includes url (js "cloudinary.com") = false →
       includes url (js "drive.google.com") = true →
       url = pre ++ js "/file/d/" ++ id ++ js "/" ++ post →
       includes id (js "/") = false →
       truthy id = true →
       generateThumbnailUrl url =
         Normal (js "https://drive.google.com/thumbnail?id=" ++ id
                   ++ js "&sz=w800-h450"))
  ∧ ¬ (∀ url pre id post : jsstring,
       includes url (js "cloudinary.com") = false →
       includes url (js "drive.google.com") = true →
       url = pre ++ js "/file/d/" ++ id ++ js "/" ++ post →
       indexOf url (js "/file/d/") = Some (length pre) →
       includes id (js "/") = false →
       generateThumbnailUrl url =
         Normal (js "https://drive.google.com/thumbnail?id=" ++ id
                   ++ js "&sz=w800-h450")).
Proof.
  repeat split; intros H.
  - specialize (H (js "https://example.com/file/d/abc/view")
                  (js "https://example.com") (js "abc") (js "view")
                  eq_refl eq_refl).
    vm_compute in H. discriminate H.
  - specialize (H (js "https://drive.google.com/file/d/abc/cloudinary.com")
                  (js "https://drive.google.com") (js "abc")
                  (js "cloudinary.com") eq_refl eq_refl eq_refl).
    vm_compute in H. discriminate H.
  - specialize (H (js "https://drive.google.com/file/d/a/file/d/b/")
                  (js "https://drive.google.com/file/d/a") (js "b") (js "")
                  eq_refl eq_refl eq_refl eq_refl eq_refl).
    vm_compute in H. discriminate H.
  - specialize (H (js "https://drive.google.com/file/d//x")
                  (js "https://drive.google.com") (js "") (js "x")
                  eq_refl eq_refl eq_refl eq_refl eq_refl).
    vm_compute in H. discriminate H.
Qed.

(** C1 (amended): for every URL string that contains [drive.google.com],
    does not contain [cloudinary.com], and whose first occurrence of
    [/file/d/] is followed by a non-empty, slash-free segment [<id>] and a
    slash, [generateThumbnailUrl] returns
    [https://drive.google.com/thumbnail?id=<id>&sz=w800-h450]. *)
Theorem drive_share_thumbnail (url pre id post : jsstring) :
  includes url (js "cloudinary.com") = false →
  includes url (js "drive.google.com") = true →
  url = pre ++ js "/file/d/" ++ id ++ js "/" ++ post →
  indexOf url (js "/file/d/") = Some (length pre) →
  truthy id = true →
  includes id (js "/") = false →
  generateThumbnailUrl url =
    Normal (js "https://drive.google.com/thumbnail?id=" ++ id
              ++ js "&sz=w800-h450").
Proof.
  intros Hblob Hdrive Hurl Hfirst Hid Hslash.
  assert (shareMatch url = Some id) as Hshare.
  { unfold shareMatch. rewrite Hurl in Hfirst |- *.
    rewrite capture_skip by done.
    apply capture_here; [done|].
    change (js "/" ++ post) with (47 :: post). by apply run_stop. }
  unfold generateThumbnailUrl, driveFileId.
  rewrite Hblob, Hdrive, Hshare.
  destruct (downloadMatch url); by rewrite Hid.
Qed.

Lemma drive_share_thumbnail_witness :
  generateThumbnailUrl (js "https://drive.google.com/file/d/1AbC_x/view?usp=sharing") =
    Normal (js "https://drive.google.com/thumbnail?id=1AbC_x&sz=w800-h450").
Proof.
  apply (drive_share_thumbnail
           (js "https://drive.google.com/file/d/1AbC_x/view?usp=sharing")
           (js "https://drive.google.com") (js "1AbC_x")
           (js "view?usp=sharing")); reflexivity.
Defined.

(** ** Running the monad *)

Section MonadFacts.

Context {A B : Type}.

Lemma bind_Normal (m : M A) (f : A → M B) w a w' :
  m w = (Normal a, w') → (m ≫= f) w = f a w'.
Proof. unfold mbind, M_bind. by intros ->. Qed.

Lemma bind_Throw (m : M A) (f : A → M B) w e w' :
  m w = (Throw e, w') → (m ≫= f) w = (Throw e, w').
Proof. unfold mbind, M_bind. by intros ->. Qed.

Lemma try_Normal (body : M A) handler w a w' :
  body w = (Normal a, w') → try_catch body handler w = (Normal a, w').
Proof. unfold try_catch. by intros ->. Qed.

Lemma try_Throw (body : M A) handler w e w' :
  body w = (Throw e, w') → try_catch body handler w = handler e w'.
Proof. unfold try_catch. by intros ->. Qed.

End MonadFacts.

(** Chains the next call of a handler body, given what that call does. *)
Ltac run_with H :=
  first [ erewrite bind_Normal by (apply H; done)
        | erewrite bind_Normal by exact H ].

Section StoreFacts.

Implicit Types w : World.

Lemma dbCall_ok w : dbFaults w = [] → dbCall w = (Normal (), w).
Proof. intros H. unfold dbCall, mbind, M_bind, get_world. by rewrite H. Qed.

Lemma dbCall_rejects w rest :
  dbFaults w = true :: rest →
  dbCall w = (Throw PersistenceError, with_dbFaults rest w).
Proof. intros H. unfold dbCall, mbind, M_bind, get_world. by rewrite H. Qed.

Lemma Video_findById_run id w :
  dbFaults w = [] → Video_findById id w = (Normal (Videos w !! id), w).
Proof. intros H. unfold Video_findById. by run_with dbCall_ok. Qed.

Lemma Video_findByIdAndDelete_run id w :
  dbFaults w = [] →
  Video_findByIdAndDelete id w = (Normal (), with_Videos (delete id) w).
Proof. intros H. unfold Video_findByIdAndDelete. by run_with dbCall_ok. Qed.

Lemma User_push_video_run uid vid w :
  dbFaults w = [] →
  User_push_video uid vid w =
    (Normal (), with_Users (alter (pushVideo vid) uid) w).
Proof. intros H. unfold User_push_video. by run_with dbCall_ok. Qed.

Lemma User_pull_video_run uid vid w :
  dbFaults w = [] →
  User_pull_video uid vid w =
    (Normal (), with_Users (alter (pullVideo vid) uid) w).
Proof. intros H. unfold User_pull_video. by run_with dbCall_ok. Qed.

Lemma populate_run video w :
  dbFaults w = [] → populate video w = (Normal (expand w video), w).
Proof. intros H. unfold populate. by run_with dbCall_ok. Qed.

Lemma new_Video_run title description cloudinaryId videoUrl thumbnailUrl
  uploader tags w :
  new_Video title description cloudinaryId videoUrl thumbnailUrl uploader
    tags w =
  (Normal
     {| Video._id := nextObjectId w;
        Video.title := trim <$> title;
        Video.description := trim <$> description;
        Video.cloudinaryId := cloudinaryId;
        Video.videoUrl := videoUrl;
        Video.thumbnailUrl := thumbnailUrl;
        Video.duration := 0;
        Video.views := 0;
        Video.likes := [];
        Video.uploader := uploader;
        Video.tags := trim <$> tags;
        Video.isPrivate := false;
        Video.createdAt := clock w (clockReads w);
        Video.updatedAt := clock w (S (clockReads w)) |},
   with_clockReads (S (S (clockReads w)))
     (with_nextObjectId (N.succ (nextObjectId w)) w)).
Proof. reflexivity. Qed.

Lemma Video_save_new_run video w :
  Video.valid video = true →
  dbFaults w = [] →
  Videos w !! Video._id video = None →
  Video_save_new video w =
    (Normal (Video.set_updatedAt (clock w (clockReads w)) video),
     with_Videos
       (insert (Video._id video)
          (Video.set_updatedAt (clock w (clockReads w)) video))
       (with_clockReads (S (clockReads w)) w)).
Proof.
  intros Hvalid Hdb Hfree. unfold Video_save_new. rewrite Hvalid.
  erewrite bind_Normal by reflexivity.
  run_with dbCall_ok.
  erewrite bind_Normal by reflexivity.
  simpl. by rewrite Hfree.
Qed.

Lemma Video_save_run video w :
  Video.valid video = true →
  dbFaults w = [] →
  Video_save video w =
    (Normal (Video.set_updatedAt (clock w (clockReads w)) video),
     with_Videos
       (insert (Video._id video)
          (Video.set_updatedAt (clock w (clockReads w)) video))
       (with_clockReads (S (clockReads w)) w)).
Proof.
  intros Hvalid Hdb. unfold Video_save. rewrite Hvalid.
  erewrite bind_Normal by reflexivity.
  by run_with dbCall_ok.
Qed.

End StoreFacts.

(** ** The upload handlers *)

Section UploadFacts.

Variable isValidURL : jsstring → bool.

Lemma linkIdAt_truthy now url : truthy (linkIdAt now url) = true.
Proof.
  unfold linkIdAt. destruct (extractVideoId url) as [id|]; [|done].
  by destruct (truthy id) eqn:E.
Qed.

Lemma linkCloudinaryId_run url w :
  ∃ n, linkCloudinaryId url w =
         (Normal (linkIdAt (clock w (clockReads w)) url),
          with_clockReads n w).
Proof.
  unfold linkCloudinaryId, linkIdAt.
  destruct (extractVideoId url) as [id|]; [destruct (truthy id)|].
  - exists (clockReads w). by destruct w.
  - by exists (S (clockReads w)).
  - by exists (S (clockReads w)).
Qed.

(** A link-mode upload of a well-formed request, with the database
    answering and the next id free, creates the video and answers 201. *)
Lemma post_upload_link_created (user : ObjectId) (body : Body)
  (url : jsstring) (w : World) :
  body_videoUrl body = Some url →
  truthy url = true →
  isValidURL url = true →
  validText (body_title body) (body_description body) = true →
  dbFaults w = [] →
  Videos w !! nextObjectId w = None →
  ∃ video w',
    post_upload_link isValidURL user body w =
      (Normal {| status := 201; payload := VideoJson (expand w' video) |}, w')
    ∧ Videos w' = <[nextObjectId w := video]> (Videos w)
    ∧ Users w' = alter (pushVideo (nextObjectId w)) user (Users w)
    ∧ Video._id video = nextObjectId w
    ∧ generateThumbnailUrl url = Normal (Video.thumbnailUrl video)
    ∧ Video.cloudinaryId video = linkIdAt (clock w (clockReads w)) url
    ∧ Video.videoUrl video = url
    ∧ Video.uploader video = user
    ∧ Video.tags video = trim <$> splitTags (body_tags body).
Proof.
  intros Hurl Htruthy Hvalid Htext Hdb Hfresh.
  destruct (generateThumbnailUrl_total url) as (thumb & Hthumb & Hthumb').
  pose proof (linkIdAt_truthy (clock w (clockReads w)) url) as Hid.
  destruct (linkCloudinaryId_run url w) as [n Hlink].
  unfold post_upload_link. rewrite Hurl, Htruthy, Hvalid. cbn [negb].
  eexists _, _. split.
  { apply try_Normal. unfold lift at 1. rewrite Hthumb.
    erewrite bind_Normal by reflexivity.
    run_with Hlink.
    erewrite bind_Normal by apply new_Video_run.
    erewrite bind_Normal.
    2:{ apply Video_save_new_run; [|done..].
        unfold Video.valid, validText in *. simpl.
        by rewrite Htext, Hid, Htruthy, Hthumb'. }
    run_with User_push_video_run.
    run_with populate_run.
    reflexivity. }
  simpl. by rewrite Hthumb.
Qed.

End UploadFacts.

Section UploadFileFacts.

(** A file-mode upload of a well-formed request, with the database
    answering and the next id free, creates the video and answers 201. *)
Lemma post_upload_created (user : ObjectId) (file : File) (body : Body)
  (w : World) :
  truthy (filename file) = true →
  truthy (path file) = true →
  validText (body_title body) (body_description body) = true →
  dbFaults w = [] →
  Videos w !! nextObjectId w = None →
  ∃ video w',
    post_upload user (Some file) body w =
      (Normal {| status := 201; payload := VideoJson (expand w' video) |}, w')
    ∧ Videos w' = <[nextObjectId w := video]> (Videos w)
    ∧ Users w' = alter (pushVideo (nextObjectId w)) user (Users w)
    ∧ Video._id video = nextObjectId w
    ∧ generateThumbnailUrl (path file) = Normal (Video.thumbnailUrl video)
    ∧ Video.cloudinaryId video = filename file
    ∧ Video.videoUrl video = path file
    ∧ Video.uploader video = user
    ∧ Video.tags video = trim <$> splitTags (body_tags body).
Proof.
  intros Hname Hpath Htext Hdb Hfresh.
  destruct (generateThumbnailUrl_total (path file))
    as (thumb & Hthumb & Hthumb').
  unfold post_upload.
  eexists _, _. split.
  { apply try_Normal. unfold lift at 1. rewrite Hthumb.
    erewrite bind_Normal by reflexivity.
    erewrite bind_Normal by apply new_Video_run.
    erewrite bind_Normal.
    2:{ apply Video_save_new_run; [|done..].
        unfold Video.valid, validText in *. simpl.
        by rewrite Htext, Hname, Hpath, Hthumb'. }
    run_with User_push_video_run.
    run_with populate_run.
    reflexivity. }
  simpl. by rewrite Hthumb.
Qed.

End UploadFileFacts.

(** C2 (as stated): both upload modes store the comma-split segments,
    trimmed, with the empty segments excluded.  This fails in both modes:
    nothing removes an empty segment, so with the tag string [a,,b] the
    stored tags are [a], the empty string, and [b].  The link-mode run is
    the same under every URL parser that accepts the URL. *)
Lemma upload_tags_without_empty_fails :
  (∀ isValidURL : jsstring → bool,
     isValidURL (js "https://example.org/v.mp4") = true →
     ∃ video w',
       post_upload_link isValidURL 1
         (Sample.linkBody "https://example.org/v.mp4" "a,,b") Sample.world =
         (Normal {| status := 201;
                    payload := VideoJson (expand w' video) |}, w')
       ∧ Videos w' !! Video._id video = Some video
       ∧ Video.tags video = [js "a"; js ""; js "b"]
       ∧ Video.tags video ≠ specTags (Some (js "a,,b")))
  ∧ (∃ video w',
       post_upload 1 (Some Sample.file)
         (Sample.linkBody "https://example.org/v.mp4" "a,,b") Sample.world =
         (Normal {| status := 201;
                    payload := VideoJson (expand w' video) |}, w')
       ∧ Videos w' !! Video._id video = Some video
       ∧ Video.tags video = [js "a"; js ""; js "b"]
       ∧ Video.tags video ≠ specTags (Some (js "a,,b"))).
Proof.
  split.
  - intros isValidURL Hvalid.
    destruct (post_upload_link_created isValidURL 1
                (Sample.linkBody "https://example.org/v.mp4" "a,,b")
                (js "https://example.org/v.mp4") Sample.world)
      as (video & w' & Hrun & Hvideos & _ & Hid & _ & _ & _ & _ & Htags);
      [done..|].
    exists video, w'. split; [done|]. split; [|split].
    + by rewrite Hvideos, Hid, lookup_insert_eq.
    + by rewrite Htags.
    + rewrite Htags. vm_compute. intros Heq. discriminate Heq.
  - destruct (post_upload_created 1 Sample.file
                (Sample.linkBody "https://example.org/v.mp4" "a,,b")
                Sample.world)
      as (video & w' & Hrun & Hvideos & _ & Hid & _ & _ & _ & _ & Htags);
      [done..|].
    exists video, w'. split; [done|]. split; [|split].
    + by rewrite Hvideos, Hid, lookup_insert_eq.
    + by rewrite Htags.
    + rewrite Htags. vm_compute. intros Heq. discriminate Heq.
Qed.

(** C2 (amended): for every caller-supplied tag string, both upload modes
    store as the video's tags the comma-split segments, each trimmed, in
    order and with the empty segments kept; when the tag string is absent or
    empty the stored tag list is empty. *)
Theorem upload_tags (isValidURL : jsstring → bool) (user : ObjectId)
  (body : Body) (w : World) :
  validText (body_title body) (body_description body) = true →
  dbFaults w = [] →
  Videos w !! nextObjectId w = None →
  let stored :=
    match body_tags body with
    | Some tags => if truthy tags then trim <$> split tags (js ",") else []
    | None => []
    end in
  Forall (λ t, trim t = t) stored
  ∧ (∀ file : File,
       truthy (filename file) = true →
       truthy (path file) = true →
       ∃ video w',
         post_upload user (Some file) body w =
           (Normal {| status := 201;
                      payload := VideoJson (expand w' video) |}, w')
         ∧ Videos w' !! Video._id video = Some video
         ∧ Video.tags video = stored)
  ∧ (∀ url : jsstring,
       body_videoUrl body = Some url →
       truthy url = true →
       isValidURL url = true →
       ∃ video w',
         post_upload_link isValidURL user body w =
           (Normal {| status := 201;
                      payload := VideoJson (expand w' video) |}, w')
         ∧ Videos w' !! Video._id video = Some video
         ∧ Video.tags video = stored).
Proof.
  intros Htext Hdb Hfresh stored.
  assert (Forall (λ t, trim t = t) stored) as Htrimmed.
  { subst stored. destruct (body_tags body) as [tags|]; [|done].
    destruct (truthy tags); [|done].
    apply Forall_fmap, Forall_true. intros t. apply trim_idemp. }
  assert (trim <$> splitTags (body_tags body) = stored) as Hstored.
  { apply Forall_fmap_ext_1 with (g := id) in Htrimmed.
    rewrite list_fmap_id in Htrimmed. exact Htrimmed. }
  split; [done|]. split.
  - intros file Hname Hpath.
    destruct (post_upload_created user file body w)
      as (video & w' & Hrun & Hvideos & _ & Hid & _ & _ & _ & _ & Htags);
      [done..|].
    exists video, w'. split; [done|]. split; [|congruence].
    by rewrite Hvideos, Hid, lookup_insert_eq.
  - intros url Hurl Htruthy Hvalid.
    destruct (post_upload_link_created isValidURL user body url w)
      as (video & w' & Hrun & Hvideos & _ & Hid & _ & _ & _ & _ & Htags);
      [done..|].
    exists video, w'. split; [done|]. split; [|congruence].
    by rewrite Hvideos, Hid, lookup_insert_eq.
Qed.

Lemma upload_tags_witness :
  ∃ video w',
    post_upload_link Sample.parsesAsURL 1
      (Sample.linkBody "https://example.org/v.mp4" " cats, ,dogs ")
      Sample.world =
      (Normal {| status := 201; payload := VideoJson (expand w' video) |}, w')
    ∧ Videos w' !! Video._id video = Some video
    ∧ Video.tags video = [js "cats"; js ""; js "dogs"].
Proof.
  destruct (upload_tags Sample.parsesAsURL 1
              (Sample.linkBody "https://example.org/v.mp4" " cats, ,dogs ")
              Sample.world eq_refl eq_refl eq_refl) as (_ & _ & Hlink).
  exact (Hlink (js "https://example.org/v.mp4") eq_refl eq_refl eq_refl).
Defined.

(** ** [split] at the first separator *)

Section SplitFacts.

Implicit Types s sep pre rest cur : jsstring.

Lemma split_from_skip sep x cur rest :
  split_from sep (length x) cur (x ++ rest) = split_from sep 0 cur rest.
Proof. induction x as [|c x IH]; [done|]. apply IH. Qed.

Lemma split_from_first sep pre rest cur :
  truthy sep = true →
  indexOf (pre ++ sep ++ rest) sep = Some (length pre) →
  split_from sep 0 cur (pre ++ sep ++ rest) =
    (reverse cur ++ pre) :: split_from sep 0 [] rest.
Proof.
  intros Hsep. revert cur. induction pre as [|c pre IH]; intros cur Hfirst.
  - destruct sep as [|a sep]; [done|].
    change (split_from (a :: sep) 0 cur ([] ++ (a :: sep) ++ rest))
      with (if startsWith ((a :: sep) ++ rest) (a :: sep)
            then reverse cur
                   :: split_from (a :: sep) (length sep) [] (sep ++ rest)
            else split_from (a :: sep) 0 (a :: cur) (sep ++ rest)).
    by rewrite startsWith_app, split_from_skip, app_nil_r.
  - cbn [app indexOf split_from length] in Hfirst |- *.
    destruct (startsWith (c :: pre ++ sep ++ rest) sep); [done|].
    rewrite IH.
    + by rewrite reverse_cons, <- (assoc_L (++)).
    + destruct (indexOf (pre ++ sep ++ rest) sep); simpl in Hfirst;
        by simplify_eq.
Qed.

(** The first segment of a split is the text before the first separator. *)
Lemma split_first s sep pre rest :
  truthy sep = true →
  s = pre ++ sep ++ rest →
  indexOf s sep = Some (length pre) →
  split s sep = pre :: split rest sep.
Proof.
  intros Hsep -> Hfirst. destruct sep as [|a sep]; [done|].
  unfold split. by rewrite split_from_first.
Qed.

Lemma split_from_absent sep s cur :
  includes s sep = false → split_from sep 0 cur s = [reverse cur ++ s].
Proof.
  revert cur. induction s as [|c s IH]; intros cur; cbn [includes split_from].
  - by rewrite app_nil_r.
  - intros [-> Hs]%orb_false_elim. rewrite IH by done.
    by rewrite reverse_cons, <- (assoc_L (++)).
Qed.

(** Without the separator there is one segment, the string itself. *)
Lemma split_absent s sep :
  truthy sep = true → includes s sep = false → split s sep = [s].
Proof.
  intros Hsep Hs. destruct sep as [|a sep]; [done|].
  unfold split. by rewrite split_from_absent.
Qed.

Lemma indexOf_unit id c rest :
  includes id [c] = false → indexOf (id ++ c :: rest) [c] = Some (length id).
Proof.
  induction id as [|a id IH]; intros H.
  - cbn [app indexOf startsWith length]. rewrite N.eqb_refl.
    by destruct rest.
  - rewrite includes_unit_cons in H.
    apply orb_false_elim in H as [Ha H].
    cbn [app indexOf startsWith length]. rewrite Ha. cbn [andb].
    by rewrite IH.
Qed.

(** A segment up to the first [c], or the whole string without one. *)
Lemma split_head_unit id c rest :
  includes id [c] = false →
  rest = [] ∨ (∃ q, rest = c :: q) →
  at_index (split (id ++ rest) [c]) 0 = Normal id.
Proof.
  intros Hid [-> | [q ->]].
  - by rewrite app_nil_r, split_absent.
  - rewrite (split_first (id ++ c :: q) [c] id q); [done..|].
    by apply indexOf_unit.
Qed.

End SplitFacts.

(** ** URLs no earlier provider claims *)

Section PriorityFacts.

Implicit Types url : jsstring.

Lemma hasDriveId_false url :
  hasDriveId url = false →
  includes url (js "drive.google.com") = true →
  downloadMatch url = None ∧ shareMatch url = None.
Proof.
  unfold hasDriveId. intros H Hdrive. rewrite Hdrive in H.
  by destruct (downloadMatch url), (shareMatch url).
Qed.

Lemma malformed_drive_has_no_id url :
  includes url (js "id=") = false →
  includes url (js "/file/d/") = false →
  hasDriveId url = false.
Proof.
  intros Hid Hshare. unfold hasDriveId.
  rewrite downloadMatch_none, shareMatch_none by done.
  apply andb_false_r.
Qed.

Lemma generateThumbnailUrl_later url :
  isBlobStoreUrl url = false →
  hasDriveId url = false →
  generateThumbnailUrl url = youtubeOrLater url.
Proof.
  unfold isBlobStoreUrl, generateThumbnailUrl. intros -> Hdrive.
  destruct (includes url (js "drive.google.com")) eqn:E; [|done].
  destruct (hasDriveId_false url Hdrive E) as [Hd Hs].
  unfold driveFileId. by rewrite Hd, Hs.
Qed.

Lemma extractVideoId_none url :
  isBlobStoreUrl url = false →
  hasDriveId url = false →
  extractVideoId url = None.
Proof.
  unfold isBlobStoreUrl, extractVideoId. intros -> Hdrive.
  destruct (includes url (js "drive.google.com")) eqn:E; [|done].
  destruct (hasDriveId_false url Hdrive E) as [Hd Hs].
  by rewrite Hd, Hs.
Qed.

Lemma extractVideoId_some url id :
  extractVideoId url = Some id →
  isBlobStoreUrl url = true ∨ hasDriveId url = true.
Proof.
  intros H. destruct (isBlobStoreUrl url) eqn:Hblob; [by left | right].
  destruct (hasDriveId url) eqn:Hdrive; [done|].
  by rewrite extractVideoId_none in H.
Qed.

Lemma linkIdAt_synthesized now url :
  isBlobStoreUrl url = false →
  hasDriveId url = false →
  linkIdAt now url = js "link_" ++ ofNumber now.
Proof. intros Hb Hd. unfold linkIdAt. by rewrite extractVideoId_none. Qed.

End PriorityFacts.

(** ** Claims about link-mode uploads *)

(** The rule behind C3: when the marker [youtu.be/] occurs once in a URL no
    earlier provider claims, the video id is the text after it up to the
    first [?]. *)
Lemma youtu_be_thumbnail (url pre id rest : jsstring) :
  isBlobStoreUrl url = false →
  hasDriveId url = false →
  includes url (js "youtube.com/watch?v=") = false →
  url = pre ++ js "youtu.be/" ++ id ++ rest →
  indexOf url (js "youtu.be/") = Some (length pre) →
  includes (id ++ rest) (js "youtu.be/") = false →
  truthy id = true →
  includes id (js "?") = false →
  rest = [] ∨ (∃ query, rest = js "?" ++ query) →
  generateThumbnailUrl url =
    Normal (js "https://img.youtube.com/vi/" ++ id ++ js "/maxresdefault.jpg").
Proof.
  intros Hblob Hdrive Hwatch Hurl Hfirst Honce Hid Hquery Hrest.
  rewrite generateThumbnailUrl_later by done.
  assert (includes url (js "youtu.be/") = true) as Hmarker.
  { apply includes_spec. eauto. }
  assert (includes url (js "youtu.be") = true) as Hhost.
  { by apply (includes_trans url (js "youtu.be/")). }
  unfold youtubeOrLater, youtubeVideoId.
  rewrite Hhost, orb_true_r, Hwatch, Hmarker.
  rewrite (split_first url (js "youtu.be/") pre (id ++ rest)) by done.
  rewrite (split_absent (id ++ rest)) by done.
  cbn [at_index lookup list_lookup].
  change (js "?") with [63] in *.
  rewrite split_head_unit by done. by rewrite Hid.
Qed.

(** C3: an upload-link request with
    [videoUrl = "https://youtu.be/abc123?t=5"] (valid URL, authenticated
    caller, title and description passing the schema, database answering)
    is answered 201 with a stored video record whose [thumbnailUrl] is
    ["https://img.youtube.com/vi/abc123/maxresdefault.jpg"]. *)
Theorem upload_link_youtu_be (isValidURL : jsstring → bool) (user : ObjectId)
  (body : Body) (w : World) :
  body_videoUrl body = Some (js "https://youtu.be/abc123?t=5") →
  isValidURL (js "https://youtu.be/abc123?t=5") = true →
  validText (body_title body) (body_description body) = true →
  dbFaults w = [] →
  Videos w !! nextObjectId w = None →
  ∃ video w',
    post_upload_link isValidURL user body w =
      (Normal {| status := 201; payload := VideoJson (expand w' video) |}, w')
    ∧ Videos w' !! Video._id video = Some video
    ∧ Video.videoUrl video = js "https://youtu.be/abc123?t=5"
    ∧ Video.thumbnailUrl video =
        js "https://img.youtube.com/vi/abc123/maxresdefault.jpg".
Proof.
  intros Hurl Hvalid Htext Hdb Hfresh.
  destruct (post_upload_link_created isValidURL user body _ w Hurl)
    as (video & w' & Hrun & Hvideos & _ & Hid & Hthumb & _ & Hlink & _);
    [done..|].
  exists video, w'. split; [done|]. split; [|split; [done|]].
  - by rewrite Hvideos, Hid, lookup_insert_eq.
  - rewrite (youtu_be_thumbnail _ (js "https://") (js "abc123") (js "?t=5"))
      in Hthumb; [|reflexivity..|right; by exists (js "t=5")].
    by injection Hthumb as <-.
Qed.

Lemma upload_link_youtu_be_witness :
  ∃ video w',
    post_upload_link Sample.parsesAsURL 2
      (Sample.linkBody "https://youtu.be/abc123?t=5" "talk") Sample.world =
      (Normal {| status := 201; payload := VideoJson (expand w' video) |}, w')
    ∧ Videos w' !! Video._id video = Some video
    ∧ Video.videoUrl video = js "https://youtu.be/abc123?t=5"
    ∧ Video.thumbnailUrl video =
        js "https://img.youtube.com/vi/abc123/maxresdefault.jpg".
Proof.
  apply (upload_link_youtu_be Sample.parsesAsURL 2
           (Sample.linkBody "https://youtu.be/abc123?t=5" "talk")
           Sample.world); reflexivity.
Defined.

(** C4: for every URL matching no recognized provider pattern (no storage
    domain marker, no Drive id pattern, no YouTube marker, no Vimeo marker),
    and so in particular for a Drive URL with neither [id=] nor [/file/d/],
    [generateThumbnailUrl] returns the fixed placeholder, [extractVideoId]
    returns null, and a link-mode upload stores the identifier
    [link_<timestamp>], the timestamp being the clock value the handler
    reads. *)
Theorem unrecognized_url_fallback (isValidURL : jsstring → bool)
  (url : jsstring) :
  (includes url (js "id=") = false →
   includes url (js "/file/d/") = false →
   hasDriveId url = false)
  ∧ (isBlobStoreUrl url = false →
     hasDriveId url = false →
     isYouTubeUrl url = false →
     isVimeoUrl url = false →
     generateThumbnailUrl url =
       Normal (js "https://images.unsplash.com/photo-1611162617474-5b21e879e113?w=800&h=450&fit=crop&crop=center")
     ∧ extractVideoId url = None
     ∧ ∀ (user : ObjectId) (body : Body) (w : World),
         body_videoUrl body = Some url →
         truthy url = true →
         isValidURL url = true →
         validText (body_title body) (body_description body) = true →
         dbFaults w = [] →
         Videos w !! nextObjectId w = None →
         ∃ video w',
           post_upload_link isValidURL user body w =
             (Normal {| status := 201;
                        payload := VideoJson (expand w' video) |}, w')
           ∧ Videos w' !! Video._id video = Some video
           ∧ Video.cloudinaryId video =
               js "link_" ++ ofNumber (clock w (clockReads w))
           ∧ Video.thumbnailUrl video =
               js "https://images.unsplash.com/photo-1611162617474-5b21e879e113?w=800&h=450&fit=crop&crop=center").
Proof.
  split; [apply malformed_drive_has_no_id|].
  intros Hblob Hdrive Hyoutube Hvimeo.
  assert (generateThumbnailUrl url = Normal placeholderThumbnail) as Hgen.
  { rewrite generateThumbnailUrl_later by done.
    unfold isYouTubeUrl, isVimeoUrl in *.
    apply orb_false_elim in Hyoutube as [Hwatch Hshort].
    unfold youtubeOrLater, youtubeVideoId, vimeoOrDefault.
    rewrite Hwatch, Hshort, Hvimeo. by destruct (_ || _). }
  split; [done|]. split; [by apply extractVideoId_none|].
  intros user body w Hurl Htruthy Hvalid Htext Hdb Hfresh.
  destruct (post_upload_link_created isValidURL user body url w)
    as (video & w' & Hrun & Hvideos & _ & Hid & Hthumb & Hlink & _);
    [done..|].
  exists video, w'. split; [done|]. split; [|split].
  - by rewrite Hvideos, Hid, lookup_insert_eq.
  - by rewrite Hlink, linkIdAt_synthesized.
  - rewrite Hgen in Hthumb. by injection Hthumb as <-.
Qed.

Lemma unrecognized_url_fallback_witness :
  generateThumbnailUrl (js "https://drive.google.com/drive/folders/xyz") =
    Normal placeholderThumbnail
  ∧ extractVideoId (js "https://drive.google.com/drive/folders/xyz") = None
  ∧ ∃ video w',
      post_upload_link Sample.parsesAsURL 1
        (Sample.linkBody "https://drive.google.com/drive/folders/xyz" "")
        Sample.world =
        (Normal {| status := 201;
                   payload := VideoJson (expand w' video) |}, w')
      ∧ Videos w' !! Video._id video = Some video
      ∧ Video.cloudinaryId video = js "link_5000"
      ∧ Video.thumbnailUrl video = placeholderThumbnail.
Proof.
  destruct (unrecognized_url_fallback Sample.parsesAsURL
              (js "https://drive.google.com/drive/folders/xyz"))
    as [Hmalformed Hfallback].
  destruct (Hfallback eq_refl (Hmalformed eq_refl eq_refl) eq_refl eq_refl)
    as (Hthumb & Hid & Hupload).
  split; [exact Hthumb|]. split; [exact Hid|].
  exact (Hupload 1
           (Sample.linkBody "https://drive.google.com/drive/folders/xyz" "")
           Sample.world eq_refl eq_refl eq_refl eq_refl eq_refl eq_refl).
Defined.

(** C10 (as stated): for every YouTube or Vimeo URL, [extractVideoId]
    returns null and a link-mode upload stores [link_<timestamp>].  This
    fails on [https://youtu.be/abc123?ref=cloudinary.com]: the blob-store
    test comes first and looks for [cloudinary.com] anywhere in the URL, so
    the identifier is the last path segment up to its first dot,
    [abc123?ref=cloudinary], and that is what the upload stores.  A Vimeo
    URL that carries [drive.google.com] and an [id=] parameter gets a Drive
    identifier in the same way. *)
Lemma youtube_vimeo_link_id_unguarded_fails :
  isYouTubeUrl (js "https://youtu.be/abc123?ref=cloudinary.com") = true
  ∧ extractVideoId (js "https://youtu.be/abc123?ref=cloudinary.com") =
      Some (js "abc123?ref=cloudinary")
  ∧ isVimeoUrl (js "https://vimeo.com/76979871?id=9&from=drive.google.com")
      = true
  ∧ extractVideoId (js "https://vimeo.com/76979871?id=9&from=drive.google.com")
      = Some (js "drive_9")
  ∧ (∀ isValidURL : jsstring → bool,
       isValidURL (js "https://youtu.be/abc123?ref=cloudinary.com") = true →
       ∃ video w',
         post_upload_link isValidURL 1
           (Sample.linkBody "https://youtu.be/abc123?ref=cloudinary.com" "a")
           Sample.world =
           (Normal {| status := 201;
                      payload := VideoJson (expand w' video) |}, w')
         ∧ Videos w' !! Video._id video = Some video
         ∧ Video.cloudinaryId video = js "abc123?ref=cloudinary"
         ∧ Video.cloudinaryId video ≠
             js "link_"
               ++ ofNumber (clock Sample.world (clockReads Sample.world))).
Proof.
  do 4 (split; [reflexivity|]).
  intros isValidURL Hvalid.
  destruct (post_upload_link_created isValidURL 1
              (Sample.linkBody "https://youtu.be/abc123?ref=cloudinary.com"
                 "a")
              (js "https://youtu.be/abc123?ref=cloudinary.com") Sample.world)
    as (video & w' & Hrun & Hvideos & _ & Hid & _ & Hlink & _);
    [done..|].
  exists video, w'. split; [done|]. split; [|split].
  - by rewrite Hvideos, Hid, lookup_insert_eq.
  - by rewrite Hlink.
  - rewrite Hlink. vm_compute. intros Heq. discriminate Heq.
Qed.

(** C10 (amended): only blob-store-hosted URLs and Drive URLs with an id
    pattern get an identifier from [extractVideoId]; for every URL that
    carries a YouTube or Vimeo marker, does not contain [cloudinary.com] and
    is not a Drive URL with an id pattern, it returns null, and a link-mode
    upload of it stores the synthesized identifier [link_<timestamp>]. *)
Theorem youtube_vimeo_link_id (isValidURL : jsstring → bool)
  (url : jsstring) :
  (∀ id, extractVideoId url = Some id →
         isBlobStoreUrl url = true ∨ hasDriveId url = true)
  ∧ (isYouTubeUrl url || isVimeoUrl url = true →
     isBlobStoreUrl url = false →
     hasDriveId url = false →
     extractVideoId url = None
     ∧ ∀ (user : ObjectId) (body : Body) (w : World),
         body_videoUrl body = Some url →
         isValidURL url = true →
         validText (body_title body) (body_description body) = true →
         dbFaults w = [] →
         Videos w !! nextObjectId w = None →
         ∃ video w',
           post_upload_link isValidURL user body w =
             (Normal {| status := 201;
                        payload := VideoJson (expand w' video) |}, w')
           ∧ Videos w' !! Video._id video = Some video
           ∧ Video.videoUrl video = url
           ∧ Video.cloudinaryId video =
               js "link_" ++ ofNumber (clock w (clockReads w))).
Proof.
  split; [intros id; apply extractVideoId_some|].
  intros Hprovider Hblob Hdrive.
  split; [by apply extractVideoId_none|].
  intros user body w Hurl Hvalid Htext Hdb Hfresh.
  assert (truthy url = true) as Htruthy.
  { unfold isYouTubeUrl, isVimeoUrl in Hprovider.
    apply orb_true_iff in Hprovider as [[H|H]%orb_true_iff | H];
      eapply includes_nonempty in H; done. }
  destruct (post_upload_link_created isValidURL user body url w)
    as (video & w' & Hrun & Hvideos & _ & Hid & _ & Hlink & Hvurl & _);
    [done..|].
  exists video, w'. split; [done|]. split; [|split; [done|]].
  - by rewrite Hvideos, Hid, lookup_insert_eq.
  - by rewrite Hlink, linkIdAt_synthesized.
Qed.

Lemma youtube_vimeo_link_id_witness :
  extractVideoId (js "https://vimeo.com/76979871?share=copy") = None
  ∧ ∃ video w',
      post_upload_link Sample.parsesAsURL 2
        (Sample.linkBody "https://vimeo.com/76979871?share=copy" "a,b")
        Sample.world =
        (Normal {| status := 201;
                   payload := VideoJson (expand w' video) |}, w')
      ∧ Videos w' !! Video._id video = Some video
      ∧ Video.videoUrl video = js "https://vimeo.com/76979871?share=copy"
      ∧ Video.cloudinaryId video = js "link_5000".
Proof.
  destruct (youtube_vimeo_link_id Sample.parsesAsURL
              (js "https://vimeo.com/76979871?share=copy"))
    as [_ Hlink].
  destruct (Hlink eq_refl eq_refl eq_refl) as [Hnull Hupload].
  split; [exact Hnull|].
  exact (Hupload 2
           (Sample.linkBody "https://vimeo.com/76979871?share=copy" "a,b")
           Sample.world eq_refl eq_refl eq_refl eq_refl eq_refl).
Defined.

(** ** The like toggle *)

Section LikeFacts.

Implicit Types likes : list ObjectId.

Lemma filter_absent (user : ObjectId) likes :
  user ∉ likes → filter (λ id, id ≠ user) likes = likes.
Proof.
  induction likes as [|x likes IH]; [done|].
  intros [Hx Hlikes]%not_elem_of_cons.
  rewrite filter_cons_True by done. by rewrite IH.
Qed.

Lemma toggled_NoDup user likes : NoDup likes → NoDup (toggled user likes).
Proof.
  intros Hnodup. unfold toggled. case_bool_decide as Hin.
  - by apply NoDup_filter.
  - apply NoDup_app. split; [done|]. split; [|apply NoDup_singleton].
    intros x Hx ->%list_elem_of_singleton. done.
Qed.

Lemma toggled_flips user likes : user ∈ toggled user likes ↔ user ∉ likes.
Proof.
  unfold toggled. case_bool_decide as Hin.
  - rewrite list_elem_of_filter. tauto.
  - rewrite elem_of_app, list_elem_of_singleton. tauto.
Qed.

Lemma toggled_others user other likes :
  other ≠ user → other ∈ toggled user likes ↔ other ∈ likes.
Proof.
  intros Hne. unfold toggled. case_bool_decide as Hin.
  - rewrite list_elem_of_filter. tauto.
  - rewrite elem_of_app, list_elem_of_singleton. tauto.
Qed.

Lemma toggled_twice user likes :
  user ∉ likes → toggled user (toggled user likes) = likes.
Proof.
  intros Hout. unfold toggled at 2. rewrite bool_decide_eq_false_2 by done.
  unfold toggled. rewrite bool_decide_eq_true_2.
  - rewrite filter_app, filter_absent by done.
    rewrite filter_cons_False by naive_solver. apply app_nil_r.
  - rewrite elem_of_app, list_elem_of_singleton. by right.
Qed.

(** What one call of the like handler does to a stored video. *)
Lemma post_like_run (user id : ObjectId) (video : Video.doc) (w : World) :
  Video.valid video = true →
  dbFaults w = [] →
  Videos w !! id = Some video →
  let video' :=
    Video.set_updatedAt (clock w (clockReads w))
      (Video.set_likes (toggled user (Video.likes video)) video) in
  post_like user id w =
    (Normal {| status := 200;
               payload :=
                 LikeState (negb (bool_decide (user ∈ Video.likes video)))
                   (length (toggled user (Video.likes video))) |},
     with_Videos (insert (Video._id video) video')
       (with_clockReads (S (clockReads w)) w)).
Proof.
  intros Hvalid Hdb Hfound video'. unfold post_like. apply try_Normal.
  run_with Video_findById_run. rewrite Hfound.
  assert ((if bool_decide (user ∈ Video.likes video)
           then Video.set_likes
                  (filter (λ i, i ≠ user) (Video.likes video)) video
           else Video.set_likes (Video.likes video ++ [user]) video)
          = Video.set_likes (toggled user (Video.likes video)) video) as ->.
  { unfold toggled. by case_bool_decide. }
  by run_with Video_save_run.
Qed.

End LikeFacts.

(** C6: on a video whose likes list has no duplicate, one like-toggle call
    keeps the list free of duplicates and flips exactly the caller's
    membership: a present id is removed and the answer says [liked = false],
    an absent id is appended and the answer says [liked = true]; the
    returned [likesCount] is the length of the new list.  The call succeeds
    when the database answers and the stored record passes the validators
    that [save()] runs again. *)
Theorem like_toggle_once (user id : ObjectId) (video : Video.doc)
  (w : World) :
  dbFaults w = [] →
  Videos w !! id = Some video →
  Video._id video = id →
  Video.valid video = true →
  NoDup (Video.likes video) →
  ∃ video' w' liked likesCount,
    post_like user id w =
      (Normal {| status := 200; payload := LikeState liked likesCount |}, w')
    ∧ Videos w' !! id = Some video'
    ∧ NoDup (Video.likes video')
    ∧ (user ∈ Video.likes video' ↔ user ∉ Video.likes video)
    ∧ (∀ other, other ≠ user →
         other ∈ Video.likes video' ↔ other ∈ Video.likes video)
    ∧ (user ∈ Video.likes video →
         Video.likes video' = filter (λ i, i ≠ user) (Video.likes video)
         ∧ liked = false)
    ∧ (user ∉ Video.likes video →
         Video.likes video' = Video.likes video ++ [user] ∧ liked = true)
    ∧ likesCount = length (Video.likes video').
Proof.
  intros Hdb Hfound Hid Hvalid Hnodup.
  pose proof (post_like_run user id video w Hvalid Hdb Hfound) as Hrun.
  cbv zeta in Hrun.
  eexists _, _, _, _. split; [exact Hrun|].
  simpl. rewrite Hid, lookup_insert_eq.
  cbn [Video.likes Video.set_updatedAt Video.set_likes].
  split; [done|]. split; [by apply toggled_NoDup|].
  split; [apply toggled_flips|]. split; [intros other Hne; by apply toggled_others|].
  unfold toggled. split; [|split; [|done]]; intros Hin.
  - by rewrite !bool_decide_eq_true_2.
  - by rewrite !bool_decide_eq_false_2.
Qed.

Lemma like_toggle_once_witness :
  ∃ video' w' liked likesCount,
    post_like 1 12 Sample.world =
      (Normal {| status := 200; payload := LikeState liked likesCount |}, w')
    ∧ Videos w' !! 12 = Some video'
    ∧ Video.likes video' = [2]
    ∧ liked = false
    ∧ likesCount = 1%nat.
Proof.
  destruct (like_toggle_once 1 12 Sample.direct Sample.world
              eq_refl eq_refl eq_refl eq_refl)
    as (video' & w' & liked & n & Hrun & Hstored & _ & _ & _ & Hin & _ & Hn).
  { apply (bool_decide_unpack _). vm_compute. exact I. }
  destruct Hin as [Hlikes Hliked].
  { apply (bool_decide_unpack _). vm_compute. exact I. }
  exists video', w', liked, n.
  split; [exact Hrun|]. split; [exact Hstored|]. split; [exact Hlikes|].
  split; [exact Hliked|]. rewrite Hn, Hlikes. reflexivity.
Defined.

(** C5: on a video whose likes list has no duplicate and does not hold the
    caller, two like-toggle calls in sequence by the same user (a like, then
    an unlike) bring the likes list back to its original elements and
    count.  Both calls succeed when the database answers and the stored
    record passes the validators that [save()] runs again. *)
Theorem like_then_unlike (user id : ObjectId) (video : Video.doc)
  (w : World) :
  dbFaults w = [] →
  Videos w !! id = Some video →
  Video._id video = id →
  Video.valid video = true →
  user ∉ Video.likes video →
  NoDup (Video.likes video) →
  ∃ w1 w2 video2,
    post_like user id w =
      (Normal {| status := 200;
                 payload := LikeState true
                              (S (length (Video.likes video))) |}, w1)
    ∧ post_like user id w1 =
      (Normal {| status := 200;
                 payload := LikeState false
                              (length (Video.likes video)) |}, w2)
    ∧ Videos w2 !! id = Some video2
    ∧ Video.likes video2 = Video.likes video
    ∧ length (Video.likes video2) = length (Video.likes video)
    ∧ Video.set_updatedAt (Video.updatedAt video) video2 = video.
Proof.
  intros Hdb Hfound Hid Hvalid Hout Hnodup.
  pose proof (post_like_run user id video w Hvalid Hdb Hfound) as Hfirst.
  cbv zeta in Hfirst.
  set (video1 := Video.set_updatedAt (clock w (clockReads w))
                   (Video.set_likes (toggled user (Video.likes video)) video))
    in Hfirst.
  set (w1 := with_Videos (insert (Video._id video) video1)
               (with_clockReads (S (clockReads w)) w)) in Hfirst.
  assert (Videos w1 !! id = Some video1) as Hfound1.
  { subst w1. simpl. by rewrite Hid, lookup_insert_eq. }
  pose proof (post_like_run user id video1 w1 Hvalid Hdb Hfound1) as Hsecond.
  cbv zeta in Hsecond.
  assert (toggled user (Video.likes video) = Video.likes video ++ [user])
    as Hliked.
  { unfold toggled. by rewrite bool_decide_eq_false_2. }
  assert (Video.likes video1 = Video.likes video ++ [user]) as Hlikes1
    by done.
  rewrite Hlikes1, <- Hliked, toggled_twice in Hsecond by done.
  rewrite bool_decide_eq_false_2, Hliked, length_app in Hfirst by done.
  rewrite Hliked, bool_decide_eq_true_2 in Hsecond
    by (rewrite elem_of_app, list_elem_of_singleton; by right).
  eexists _, _, _. split; [|split; [exact Hsecond|]].
  - rewrite Hfirst. simpl. by rewrite Nat.add_1_r.
  - simpl. rewrite Hid, lookup_insert_eq. split; [done|].
    split; [done|]. split; [done|]. by destruct video.
Qed.

Lemma like_then_unlike_witness :
  ∃ w1 w2 video2,
    post_like 1 10 Sample.world =
      (Normal {| status := 200; payload := LikeState true 2 |}, w1)
    ∧ post_like 1 10 w1 =
      (Normal {| status := 200; payload := LikeState false 1 |}, w2)
    ∧ Videos w2 !! 10 = Some video2
    ∧ Video.likes video2 = [2].
Proof.
  destruct (like_then_unlike 1 10 Sample.hosted Sample.world
              eq_refl eq_refl eq_refl eq_refl)
    as (w1 & w2 & video2 & Hlike & Hunlike & Hstored & Hlikes & _).
  { apply (bool_decide_unpack _). vm_compute. exact I. }
  { apply (bool_decide_unpack _). vm_compute. exact I. }
  exists w1, w2, video2.
  split; [exact Hlike|]. split; [exact Hunlike|]. split; [exact Hstored|].
  exact Hlikes.
Defined.

(** ** Deleting a video *)

Section DeleteFacts.

Implicit Types w : World.

(** The guarded blob-store request of the delete handler always completes:
    the request is sent, and a rejection is logged and swallowed. *)
Lemma destroy_attempt (publicId : jsstring) w :
  ∃ w1,
    try_catch (cloudinary_destroy publicId)
      (λ cloudinaryError,
         console_error (js "Cloudinary deletion error:") cloudinaryError) w
      = (Normal (), w1)
    ∧ Videos w1 = Videos w
    ∧ Users w1 = Users w
    ∧ dbFaults w1 = dbFaults w
    ∧ destroyCalls w1 = destroyCalls w ++ [publicId]
    ∧ (head (blobFaults w) = Some true →
         blobStore w1 = blobStore w
         ∧ console w1 =
             console w
               ++ [ConsoleError (js "Cloudinary deletion error:")
                     BlobStoreError])
    ∧ (head (blobFaults w) ≠ Some true →
         blobStore w1 = blobStore w ∖ {[publicId]}
         ∧ console w1 = console w).
Proof.
  destruct w as [vs us blob calls con clk reads next dbf blf].
  destruct blf as [|[] rest]; eexists; (split; [reflexivity|]); simpl;
    repeat split; try done; intros H; by simplify_eq.
Qed.

Lemma delete_video_missing (user id : ObjectId) w :
  dbFaults w = [] →
  Videos w !! id = None →
  delete_video user id w =
    (Normal {| status := 404; payload := Message (js "Video not found") |},
     w).
Proof.
  intros Hdb Hmissing. unfold delete_video. apply try_Normal.
  run_with Video_findById_run. by rewrite Hmissing.
Qed.

Lemma delete_video_denied (user id : ObjectId) (video : Video.doc) w :
  dbFaults w = [] →
  Videos w !! id = Some video →
  Video.uploader video ≠ user →
  delete_video user id w =
    (Normal {| status := 403;
               payload :=
                 Message (js "Not authorized to delete this video") |},
     w).
Proof.
  intros Hdb Hfound Hother. unfold delete_video. apply try_Normal.
  run_with Video_findById_run. rewrite Hfound.
  by rewrite (proj2 (N.eqb_neq _ _) Hother).
Qed.

End DeleteFacts.

(** C7 (as stated): for every id with no matching video the delete route
    answers 404.  This fails for an id that is no ObjectId: [DELETE
    /videos/abc] matches no video, yet the lookup rejects with a CastError
    and the route answers 500, after logging the error. *)
Lemma delete_rejected_any_id_fails :
  (∀ id, Sample.objectIdOf (js "abc") = Some id →
         Videos Sample.world !! id = None)
  ∧ delete_route Sample.objectIdOf 2 (js "abc") Sample.world =
      (Normal {| status := 500;
                 payload := Message (js "Error deleting video") |},
       with_console (ConsoleError (js "Delete video error:") CastError)
         Sample.world)
  ∧ delete_route Sample.objectIdOf 2 (js "abc") Sample.world ≠
      (Normal {| status := 404; payload := Message (js "Video not found") |},
       Sample.world).
Proof.
  split; [|split].
  - intros id Hid. discriminate Hid.
  - reflexivity.
  - intros Heq. discriminate Heq.
Qed.

(** C7 (amended): a delete request by an authenticated caller who is not
    the video's owner is answered 403 and leaves the video record, the
    owner's video list and the blob store (the whole state) unchanged; a
    delete request whose id is a well-formed ObjectId with no matching video
    is answered 404, with no state change. *)
Theorem delete_rejected (castObjectId : jsstring → option ObjectId)
  (user : ObjectId) (param : jsstring) (id : ObjectId) (w : World) :
  dbFaults w = [] →
  castObjectId param = Some id →
  (∀ video,
     Videos w !! id = Some video →
     Video.uploader video ≠ user →
     ∃ w',
       delete_route castObjectId user param w =
         (Normal {| status := 403;
                    payload :=
                      Message (js "Not authorized to delete this video") |},
          w')
       ∧ w' = w
       ∧ Videos w' !! id = Some video
       ∧ Users w' !! Video.uploader video = Users w !! Video.uploader video
       ∧ blobStore w' = blobStore w
       ∧ destroyCalls w' = destroyCalls w)
  ∧ (Videos w !! id = None →
     ∃ w',
       delete_route castObjectId user param w =
         (Normal {| status := 404;
                    payload := Message (js "Video not found") |}, w')
       ∧ w' = w).
Proof.
  intros Hdb Hcast. unfold delete_route. rewrite Hcast. split.
  - intros video Hfound Hother. exists w.
    split; [by apply (delete_video_denied user id video)|]. done.
  - intros Hmissing. exists w. split; [by apply delete_video_missing|]. done.
Qed.

Lemma delete_rejected_witness :
  delete_route Sample.objectIdOf 2 (js "00000000000000000000000a")
    Sample.world =
    (Normal {| status := 403;
               payload :=
                 Message (js "Not authorized to delete this video") |},
     Sample.world)
  ∧ delete_route Sample.objectIdOf 2 (js "000000000000000000000063")
      Sample.world =
    (Normal {| status := 404; payload := Message (js "Video not found") |},
     Sample.world).
Proof.
  destruct (delete_rejected Sample.objectIdOf 2
              (js "00000000000000000000000a") 10 Sample.world
              eq_refl eq_refl) as [Hdenied _].
  destruct (delete_rejected Sample.objectIdOf 2
              (js "000000000000000000000063") 99 Sample.world
              eq_refl eq_refl) as [_ Hmissing].
  destruct (Hdenied Sample.hosted eq_refl) as (w' & Hrun & -> & _).
  { apply (bool_decide_unpack _). vm_compute. exact I. }
  destruct (Hmissing eq_refl) as (w'' & Hrun' & ->).
  split; [exact Hrun | exact Hrun'].
Defined.

(** C8: when the owner deletes a video, the handler completes whatever the
    blob store answers: the video record is removed, its reference is
    pulled from the owner's video list and the success message is returned.
    The blob-store delete is requested, with the stored identifier, exactly
    when the stored URL contains the storage domain marker; when the blob
    store then rejects the request, the failure is logged and the blob
    store keeps its content. *)
Theorem owner_delete (user id : ObjectId) (video : Video.doc) (w : World) :
  dbFaults w = [] →
  Videos w !! id = Some video →
  Video.uploader video = user →
  ∃ w',
    delete_video user id w =
      (Normal {| status := 200;
                 payload := Message (js "Video deleted successfully") |}, w')
    ∧ Videos w' = delete id (Videos w)
    ∧ Videos w' !! id = None
    ∧ Users w' = alter (pullVideo id) user (Users w)
    ∧ (∀ owner, Users w' !! user = Some owner → id ∉ User.videos owner)
    ∧ (includes (Video.videoUrl video) (js "cloudinary.com") = true →
         destroyCalls w' = destroyCalls w ++ [Video.cloudinaryId video]
         ∧ (head (blobFaults w) = Some true →
              blobStore w' = blobStore w
              ∧ console w' =
                  console w
                    ++ [ConsoleError (js "Cloudinary deletion error:")
                          BlobStoreError])
         ∧ (head (blobFaults w) ≠ Some true →
              blobStore w' = blobStore w ∖ {[Video.cloudinaryId video]}))
    ∧ (includes (Video.videoUrl video) (js "cloudinary.com") = false →
         destroyCalls w' = destroyCalls w
         ∧ blobStore w' = blobStore w
         ∧ blobFaults w' = blobFaults w).
Proof.
  intros Hdb Hfound Howner.
  assert (∀ us : gmap N User.doc, ∀ owner,
            alter (pullVideo id) user us !! user = Some owner →
            id ∉ User.videos owner) as Hpulled.
  { intros us owner. rewrite lookup_alter_eq.
    destruct (us !! user) as [u|]; simpl; [|done].
    intros [= <-]. simpl. rewrite list_elem_of_filter. tauto. }
  unfold delete_video.
  destruct (includes (Video.videoUrl video) (js "cloudinary.com")) eqn:Hblob.
  - destruct (destroy_attempt (Video.cloudinaryId video) w)
      as (w1 & Hdestroy & Hvs & Hus & Hdb1 & Hcalls & Hfail & Hok).
    rewrite Hdb in Hdb1.
    eexists. split.
    { apply try_Normal. run_with Video_findById_run. rewrite Hfound.
      rewrite (proj2 (N.eqb_eq _ _) Howner). cbn [negb]. rewrite Hblob.
      run_with Hdestroy.
      run_with Video_findByIdAndDelete_run.
      run_with User_pull_video_run.
      reflexivity. }
    simpl. rewrite Hvs, Hus, Hcalls.
    split; [done|]. split; [apply lookup_delete_eq|]. split; [done|].
    split; [apply Hpulled|]. split; [|done].
    intros _. split; [done|]. split.
    + intros Hrejected. by apply Hfail.
    + intros Haccepted. by apply Hok.
  - eexists. split.
    { apply try_Normal. run_with Video_findById_run. rewrite Hfound.
      rewrite (proj2 (N.eqb_eq _ _) Howner). cbn [negb]. rewrite Hblob.
      erewrite bind_Normal by reflexivity.
      run_with Video_findByIdAndDelete_run.
      run_with User_pull_video_run.
      reflexivity. }
    simpl. split; [done|]. split; [apply lookup_delete_eq|]. split; [done|].
    split; [apply Hpulled|]. done.
Qed.

Lemma owner_delete_witness :
  ∃ w',
    delete_video 1 10 Sample.world =
      (Normal {| status := 200;
                 payload := Message (js "Video deleted successfully") |}, w')
    ∧ Videos w' !! 10 = None
    ∧ User.videos <$> Users w' !! 1 = Some [11]
    ∧ destroyCalls w' = [js "video-sharing-platform/harbour"]
    ∧ blobStore w' = blobStore Sample.world
    ∧ console w' =
        [ConsoleError (js "Cloudinary deletion error:") BlobStoreError].
Proof.
  destruct (owner_delete 1 10 Sample.hosted Sample.world
              eq_refl eq_refl eq_refl)
    as (w' & Hrun & _ & Hgone & Husers & _ & Hhosted & _).
  destruct (Hhosted eq_refl) as (Hcalls & Hrejected & _).
  destruct (Hrejected eq_refl) as [Hblob Hlog].
  exists w'. split; [exact Hrun|]. split; [exact Hgone|].
  split; [rewrite Husers; reflexivity|].
  split; [exact Hcalls|]. split; [exact Hblob | exact Hlog].
Defined.

(** ** Listing the catalogue *)

Section ListingFacts.

Implicit Types w : World.

#[local] Instance newerFirst_total : Total newerFirst.
Proof. intros a b. unfold newerFirst. lia. Qed.

Lemma populate_all_run (found : list Video.doc) w :
  dbFaults w = [] → populate_all found w = (Normal (expand w <$> found), w).
Proof.
  intros Hdb. destruct found as [|v found]; [done|].
  unfold populate_all. by run_with dbCall_ok.
Qed.

Lemma Video_find_page_run q (limit : N) (skip : Z) w :
  dbFaults w = [] →
  (0 ≤ skip)%Z →
  Video_find_page q limit skip w =
    (Normal
       (expand w <$>
          (let skipped :=
             drop (Z.to_nat skip) (merge_sort newerFirst (selected q w)) in
           if limit =? 0 then skipped else take (N.to_nat limit) skipped)),
     w).
Proof.
  intros Hdb Hskip. unfold Video_find_page.
  run_with dbCall_ok. erewrite bind_Normal by reflexivity.
  rewrite (proj2 (Z.ltb_ge _ _) Hskip). cbv zeta.
  by apply populate_all_run.
Qed.

Lemma Video_countDocuments_run q w :
  dbFaults w = [] →
  Video_countDocuments q w = (Normal (N.of_nat (length (selected q w))), w).
Proof. intros Hdb. unfold Video_countDocuments. by run_with dbCall_ok. Qed.

(** Three documents, sorted newest first. *)
Lemma sorted_three (l : list Video.doc) :
  length l = 3%nat →
  ∃ newest second oldest,
    merge_sort newerFirst l = [newest; second; oldest]
    ∧ l ≡ₚ [newest; second; oldest]
    ∧ Video.createdAt second ≤ Video.createdAt newest
    ∧ Video.createdAt oldest ≤ Video.createdAt second.
Proof.
  intros Hlen.
  pose proof (merge_sort_Permutation newerFirst l) as Hperm.
  pose proof (Sorted_merge_sort newerFirst l) as Hsorted.
  apply Permutation_length in Hperm as Hlen'. rewrite Hlen in Hlen'.
  destruct (merge_sort newerFirst l) as [|a [|b [|c [|d rest]]]];
    try done.
  exists a, b, c. split; [done|]. split; [done|].
  apply Sorted_inv in Hsorted as [Hsorted Hab].
  apply Sorted_inv in Hsorted as [_ Hbc].
  apply HdRel_inv in Hab, Hbc. done.
Qed.

(** The filter of the route is the one the specification words. *)
Lemma catalogQuery_isListed regexTest search v :
  catalogQuery regexTest search v = isListed regexTest search v.
Proof.
  unfold catalogQuery, isListed.
  destruct (Video.isPrivate v); [done|]. cbn [negb andb].
  destruct search as [[|c term]|]; [done| |done]. cbn [truthy].
  rewrite !existsb_app, orb_assoc.
  destruct (Video.title v), (Video.description v); simpl;
    by rewrite ?orb_false_r.
Qed.

Lemma selected_isListed regexTest search w :
  selected (catalogQuery regexTest search) w =
    filter (λ v, isListed regexTest search v = true)
      (map_to_list (Videos w)).*2.
Proof.
  unfold selected. apply list_filter_iff. intros v.
  by rewrite catalogQuery_isListed.
Qed.

Lemma buildQuery_compiles regexTest validPattern search :
  compiles validPattern search →
  buildQuery regexTest validPattern search =
    Normal (catalogQuery regexTest search).
Proof.
  intros Hsearch. unfold buildQuery. destruct search as [term|]; [|done].
  destruct (truthy term) eqn:Hterm; [|done].
  by rewrite (Hsearch term eq_refl Hterm).
Qed.

End ListingFacts.

(** C9: against a catalogue with exactly 3 public videos matching the query,
    [GET /videos] with [page=2] and [limit=1] returns exactly one video,
    the second of the three in descending order of creation time, together
    with [totalPages = 3].  The videos matching the query are the public
    ones in which the search term, when there is one, is found in the
    title, the description or one of the tags; the request succeeds when
    the database answers and the term, when there is one, is a pattern. *)
Theorem page_two_of_three (regexTest : jsstring → jsstring → bool)
  (validPattern : jsstring → bool) (search : option jsstring) (w : World) :
  dbFaults w = [] →
  compiles validPattern search →
  length (filter (λ v, isListed regexTest search v = true)
            (map_to_list (Videos w)).*2) = 3%nat →
  ∃ newest second oldest,
    filter (λ v, isListed regexTest search v = true)
      (map_to_list (Videos w)).*2 ≡ₚ [newest; second; oldest]
    ∧ Video.createdAt second ≤ Video.createdAt newest
    ∧ Video.createdAt oldest ≤ Video.createdAt second
    ∧ get_videos regexTest validPattern
        {| query_page := Some 2; query_limit := Some 1;
           query_search := search |} w =
        (Normal {| status := 200;
                   payload := VideoPage [expand w second] (Some 3) 2 |}, w).
Proof.
  intros Hdb Hsearch Hthree. rewrite <- selected_isListed in Hthree |- *.
  destruct (sorted_three _ Hthree)
    as (newest & second & oldest & Hsorted & Hperm & Hnew & Hold).
  exists newest, second, oldest. do 3 (split; [done|]).
  unfold get_videos. apply try_Normal. cbn [default query_page query_limit
                                            query_search].
  rewrite buildQuery_compiles by done.
  erewrite bind_Normal by reflexivity.
  erewrite bind_Normal by (by apply Video_find_page_run).
  run_with Video_countDocuments_run.
  rewrite Hsorted, Hthree. reflexivity.
Qed.

Lemma page_two_of_three_witness :
  ∃ newest second oldest,
    filter (λ v, isListed Sample.search (Some (js "o")) v = true)
      (map_to_list (Videos Sample.world)).*2
      ≡ₚ [newest; second; oldest]
    ∧ Video.createdAt second ≤ Video.createdAt newest
    ∧ Video.createdAt oldest ≤ Video.createdAt second
    ∧ get_videos Sample.search Sample.isPattern
        {| query_page := Some 2; query_limit := Some 1;
           query_search := Some (js "o") |} Sample.world =
        (Normal {| status := 200;
                   payload :=
                     VideoPage [expand Sample.world second] (Some 3) 2 |},
         Sample.world).
Proof.
  apply (page_two_of_three Sample.search Sample.isPattern (Some (js "o"))
           Sample.world).
  - reflexivity.
  - intros term [= <-] _. reflexivity.
  - vm_compute. reflexivity.
Defined.

(** The same request run on the sample catalogue: the video created second
    to last comes back. *)
Example page_two_sample :
  get_videos Sample.search Sample.isPattern
    {| query_page := Some 2; query_limit := Some 1; query_search := None |}
    Sample.world =
    (Normal {| status := 200;
               payload :=
                 VideoPage [expand Sample.world Sample.direct] (Some 3) 2 |},
     Sample.world).
Proof. vm_compute. reflexivity. Qed.

(** ** The error paths, run on the sample catalogue *)

(** A rejected database lookup is caught at the handler boundary: the
    answer is the generic 500 and the collections are untouched. *)
Example delete_video_database_failure :
  ∃ w',
    delete_video 1 10 (with_dbFaults [true] Sample.world) =
      (Normal {| status := 500;
                 payload := Message (js "Error deleting video") |}, w')
    ∧ Videos w' = Videos Sample.world
    ∧ Users w' = Users Sample.world
    ∧ console w' = [ConsoleError (js "Delete video error:") PersistenceError].
Proof. eexists. split; [reflexivity|]. done. Qed.

(** A link upload without a title fails the schema's validation: nothing is
    stored and the answer is the generic 500. *)
Example upload_link_without_title :
  ∃ w',
    post_upload_link Sample.parsesAsURL 1
      {| body_title := None; body_description := None;
         body_tags := None;
         body_videoUrl := Some (js "https://youtu.be/abc123") |}
      Sample.world =
      (Normal {| status := 500;
                 payload := Message (js "Error adding video link") |}, w')
    ∧ Videos w' = Videos Sample.world
    ∧ console w' =
        [ConsoleError (js "Video link upload error:") ValidationError].
Proof. eexists. split; [vm_compute; reflexivity|]. done. Qed.

(** An id that is no ObjectId never reaches the database: the like route
    and the fetch route answer the generic 500 and log the CastError. *)
Example like_route_malformed_id :
  like_route Sample.objectIdOf 1 (js "abc") Sample.world =
    (Normal {| status := 500; payload := Message (js "Error liking video") |},
     with_console (ConsoleError (js "Like video error:") CastError)
       Sample.world).
Proof. reflexivity. Qed.

Example video_route_malformed_id :
  video_route Sample.objectIdOf (λ _, None) (js "abc") Sample.world =
    (Normal {| code := 500; content := Failure (js "Error fetching video") |},
     with_console (ConsoleError (js "Get video error:") CastError)
       Sample.world).
Proof. reflexivity. Qed.

(** A stored record that fails the schema cannot be liked: [save()]
    validates it again, the answer is the generic 500 and nothing is
    written. *)
Example like_on_invalid_record :
  let untitled :=
    {| Video._id := 12; Video.title := None; Video.description := None;
       Video.cloudinaryId := js "link_2000";
       Video.videoUrl := js "https://example.org/clip.mp4";
       Video.thumbnailUrl := placeholderThumbnail;
       Video.duration := 0; Video.views := 0; Video.likes := [];
       Video.uploader := 2; Video.tags := []; Video.isPrivate := false;
       Video.createdAt := 2000; Video.updatedAt := 2000 |} in
  let w := with_Videos (insert 12 untitled) Sample.world in
  post_like 1 12 w =
    (Normal {| status := 500; payload := Message (js "Error liking video") |},
     with_console (ConsoleError (js "Like video error:") ValidationError) w).
Proof. reflexivity. Qed.

(** A link upload whose URL does not parse is refused with 400. *)
Example upload_link_malformed_url :
  post_upload_link Sample.parsesAsURL 1
    (Sample.linkBody "not a url" "") Sample.world =
    (Normal {| status := 400;
               payload := Message (js "Invalid video URL format") |},
     Sample.world).
Proof. reflexivity. Qed.

(** * Further properties of the classifier *)

Section MoreStringFacts.

Implicit Types s t cur pre rest : jsstring.

Lemma startsWith_nil s : startsWith s [] = true.
Proof. by destruct s. Qed.

Lemma includes_unit_elem s (c : N) : includes s [c] = true ↔ c ∈ s.
Proof.
  induction s as [|a s IH].
  - split; [done | by intros ?%elem_of_nil].
  - rewrite includes_unit_cons, orb_true_iff, IH, elem_of_cons, N.eqb_eq.
    tauto.
Qed.

Lemma includes_unit_absent s (c : N) : includes s [c] = false ↔ c ∉ s.
Proof.
  rewrite <- includes_unit_elem. by destruct (includes s [c]).
Qed.

Lemma run_truthy_absent stop s :
  includes (run stop s) [stop] = false.
Proof.
  apply includes_unit_absent. induction s as [|c s IH]; simpl.
  - by intros ?%elem_of_nil.
  - destruct (c =? stop) eqn:E; [by intros ?%elem_of_nil|].
    apply N.eqb_neq in E. by intros [->|?]%elem_of_cons.
Qed.

(** What a regular expression of the source captures is never empty and
    never holds the excluded code unit. *)
Lemma captureAt_result lits stop s m :
  captureAt lits stop s = Some m →
  truthy m = true ∧ includes m [stop] = false.
Proof.
  induction lits as [|lit lits IH]; cbn [captureAt]; [done|].
  destruct (startsWith s lit && truthy (run stop (drop (length lit) s)))
    eqn:E; [|done].
  intros [= <-]. apply andb_true_iff in E as [_ E].
  split; [done | apply run_truthy_absent].
Qed.

Lemma capture_result lits stop s m :
  capture lits stop s = Some m →
  truthy m = true ∧ includes m [stop] = false.
Proof.
  induction s as [|c s IH]; cbn [capture].
  - destruct (captureAt lits stop []) eqn:E; [|done].
    intros [= <-]. by apply captureAt_result in E.
  - destruct (captureAt lits stop (c :: s)) eqn:E; [|done].
    intros [= <-]. by apply captureAt_result in E.
Qed.

(** Splitting on one code unit: the segments never hold it. *)
Lemma split_from_unit_segments (c : N) cur s :
  c ∉ cur →
  Forall (λ seg, c ∉ seg) (split_from [c] 0 cur s).
Proof.
  revert cur. induction s as [|a s IH]; intros cur Hcur; cbn [split_from].
  - apply Forall_singleton. by rewrite elem_of_reverse.
  - cbn [startsWith]. rewrite startsWith_nil, andb_true_r.
    destruct (c =? a) eqn:E.
    + apply Forall_cons. split; [by rewrite elem_of_reverse|].
      apply IH. by intros ?%elem_of_nil.
    + apply IH. apply N.eqb_neq in E. by intros [?|?]%elem_of_cons.
Qed.

Lemma split_unit_segments (c : N) s :
  Forall (λ seg, c ∉ seg) (split s [c]).
Proof. apply split_from_unit_segments. by intros ?%elem_of_nil. Qed.

(** Splitting on one code unit distributes over an occurrence of it. *)
Lemma split_from_unit_app (c : N) cur pre rest :
  split_from [c] 0 cur (pre ++ c :: rest) =
    split_from [c] 0 cur pre ++ split_from [c] 0 [] rest.
Proof.
  revert cur. induction pre as [|a pre IH]; intros cur;
    cbn [app split_from startsWith length pred].
  - by rewrite N.eqb_refl, startsWith_nil.
  - rewrite !startsWith_nil, !andb_true_r.
    destruct (c =? a); by rewrite IH.
Qed.

Lemma split_unit_app (c : N) pre rest :
  split (pre ++ c :: rest) [c] = split pre [c] ++ split rest [c].
Proof. apply split_from_unit_app. Qed.

(** The last segment is the text after the last occurrence. *)
Lemma split_unit_last (c : N) pre t :
  includes t [c] = false →
  last (split (pre ++ c :: t) [c]) = Some t.
Proof.
  intros Ht. rewrite split_unit_app, (split_absent t [c]) by done.
  apply last_snoc.
Qed.

Lemma at_index_head (arr : list jsstring) x :
  at_index arr 0 = Normal x → head arr = Some x.
Proof. destruct arr; [done|]. by intros [= ->]. Qed.

Lemma replace_first s pat repl pre rest :
  s = pre ++ pat ++ rest →
  indexOf s pat = Some (length pre) →
  replace s pat repl = pre ++ repl ++ rest.
Proof.
  intros ->. induction pre as [|c pre IH]; intros Hfirst.
  - cbn [app].
    assert (replace (pat ++ rest) pat repl
            = repl ++ drop (length pat) (pat ++ rest)) as ->.
    { destruct (pat ++ rest) eqn:E; cbn [replace]; rewrite <- E;
        by rewrite startsWith_app. }
    by rewrite drop_app_length.
  - cbn [app indexOf replace length] in Hfirst |- *.
    destruct (startsWith (c :: pre ++ pat ++ rest) pat); [done|].
    f_equal. apply IH.
    destruct (indexOf (pre ++ pat ++ rest) pat); simpl in Hfirst;
      by simplify_eq.
Qed.

Lemma replace_absent s pat repl :
  includes s pat = false → replace s pat repl = s.
Proof.
  induction s as [|c s IH]; cbn [includes replace].
  - rewrite orb_false_r. by intros ->.
  - intros [-> Hs]%orb_false_elim. by rewrite IH.
Qed.

End MoreStringFacts.

(** ** Splitting and joining *)

Section SplitJoinFacts.

Implicit Types s sep pre rest cur : jsstring.

Lemma join_cons x y (arr : list jsstring) sep :
  join (x :: y :: arr) sep = x ++ sep ++ join (y :: arr) sep.
Proof. done. Qed.

Lemma join_split_from sep k cur s :
  truthy sep = true →
  join (split_from sep k cur s) sep = reverse cur ++ drop k s.
Proof.
  intros Hsep. revert k cur. induction s as [|c s IH]; intros k cur.
  - cbn [split_from join]. by rewrite drop_nil, app_nil_r.
  - cbn [split_from]. destruct k as [|k]; [|by rewrite IH].
    destruct (startsWith (c :: s) sep) eqn:E.
    + apply startsWith_spec in E as [t Ht].
      destruct sep as [|a sep]; [done|].
      injection Ht as Hc Hs. subst c s. cbn [length pred].
      pose proof (split_from_length (a :: sep) (length sep) [] (sep ++ t))
        as Hlen.
      destruct (split_from (a :: sep) (length sep) [] (sep ++ t))
        as [|y arr] eqn:Hsplit; [simpl in Hlen; lia|].
      rewrite join_cons, <- Hsplit, IH, drop_app_length. done.
    + rewrite IH, reverse_cons, <- (assoc_L (++)). done.
Qed.

(** Joining the segments with the separator gives the string back. *)
Lemma join_split s sep :
  truthy sep = true → join (split s sep) sep = s.
Proof.
  intros Hsep. destruct sep as [|a sep']; [done|].
  unfold split. by rewrite join_split_from.
Qed.

Lemma indexOf_includes s sep :
  includes s sep = true →
  ∃ pre rest, s = pre ++ sep ++ rest ∧ indexOf s sep = Some (length pre).
Proof.
  induction s as [|c s IH]; cbn [includes indexOf].
  - rewrite orb_false_r. intros H. rewrite H.
    apply startsWith_spec in H as [t ->]. by exists [], t.
  - destruct (startsWith (c :: s) sep) eqn:E.
    + intros _. apply startsWith_spec in E as [t ->]. by exists [], t.
    + simpl. intros (pre & rest & -> & Hfirst)%IH.
      exists (c :: pre), rest. by rewrite Hfirst.
Qed.

Lemma indexOf_least s sep n a b :
  indexOf s sep = Some n → s = a ++ sep ++ b → (n ≤ length a)%nat.
Proof.
  revert n a. induction s as [|c s IH]; cbn [indexOf]; intros n a.
  - destruct (startsWith [] sep); [|done]. intros [= <-]. lia.
  - destruct (startsWith (c :: s) sep) eqn:E; [intros [= <-]; lia|].
    destruct (indexOf s sep) as [m|] eqn:Hm; [|done].
    simpl. intros [= <-] Hs. destruct a as [|c' a].
    + simpl in Hs. by rewrite Hs, startsWith_app in E.
    + simplify_eq/=. specialize (IH _ _ eq_refl eq_refl). lia.
Qed.

(** With two occurrences of the separator, one after the other, there are
    at least three segments. *)
Lemma split_twice s sep a b c :
  truthy sep = true →
  s = a ++ sep ++ b ++ sep ++ c →
  (3 ≤ length (split s sep))%nat.
Proof.
  intros Hsep Hs.
  assert (includes s sep = true) as Hin.
  { apply includes_spec. eauto. }
  destruct (indexOf_includes s sep Hin) as (pre & rest & Hpre & Hfirst).
  pose proof (indexOf_least s sep _ a (b ++ sep ++ c) Hfirst Hs) as Hleast.
  rewrite (split_first s sep pre rest) by done.
  assert (includes rest sep = true) as Hrest.
  { apply includes_spec.
    exists (drop (length pre + length sep) (a ++ sep ++ b)), c.
    assert (rest = drop (length pre + length sep) s) as ->.
    { rewrite Hpre.
      rewrite <- drop_drop, drop_app_length, drop_app_length. done. }
    rewrite Hs.
    replace (a ++ sep ++ b ++ sep ++ c) with ((a ++ sep ++ b) ++ sep ++ c)
      by by rewrite <- !(assoc_L (++)).
    rewrite drop_app_le; [done|]. rewrite !length_app. lia. }
  pose proof (split_includes rest sep Hsep Hrest). simpl. lia.
Qed.

(** With one occurrence of the separator there are two segments. *)
Lemma split_once s sep before after :
  truthy sep = true →
  s = before ++ sep ++ after →
  (∀ a b, s = a ++ sep ++ b → a = before) →
  split s sep = [before; after].
Proof.
  intros Hsep Hs Honce.
  assert (includes s sep = true) as Hin.
  { apply includes_spec. eauto. }
  destruct (indexOf_includes s sep Hin) as (pre & rest & Hpre & Hfirst).
  pose proof (Honce pre rest Hpre) as ->.
  assert (rest = after) as ->.
  { rewrite Hs in Hpre. by do 2 apply app_inv_head in Hpre. }
  rewrite (split_first s sep before after) by done. f_equal.
  apply split_absent; [done|].
  destruct (includes after sep) eqn:Hafter; [|done].
  apply includes_spec in Hafter as (x & y & ->).
  specialize (Honce (before ++ sep ++ x) y).
  rewrite <- !(assoc_L (++)) in Honce. specialize (Honce Hs).
  apply (f_equal length) in Honce. rewrite !length_app in Honce.
  destruct sep; [done|]. simpl in Honce. lia.
Qed.

(** The first occurrence is the only one when none starts after it. *)
Lemma occurs_once s sep before after :
  s = before ++ sep ++ after →
  indexOf s sep = Some (length before) →
  includes (drop (S (length before)) s) sep = false →
  ∀ a b, s = a ++ sep ++ b → a = before.
Proof.
  intros Hs Hfirst Hlater a b Hab.
  pose proof (indexOf_least s sep _ a b Hfirst Hab) as Hleast.
  destruct (decide (length a = length before)) as [Hlen|Hlen].
  - rewrite Hs in Hab. apply (f_equal (take (length before))) in Hab.
    rewrite take_app_length in Hab. rewrite <- Hlen in Hab.
    by rewrite take_app_length in Hab.
  - assert (includes (drop (S (length before)) s) sep = true) as Hin;
      [|by rewrite Hin in Hlater].
    apply includes_spec. exists (drop (S (length before)) a), b.
    rewrite Hab. rewrite drop_app_le by lia. done.
Qed.

End SplitJoinFacts.

(** The first segment of a split, and where it ends. *)
Lemma first_segment (s sep : jsstring) :
  truthy sep = true →
  ∃ x tail,
    split s sep = x :: tail
    ∧ ((includes s sep = false ∧ x = s)
       ∨ ∃ r, s = x ++ sep ++ r
              ∧ ∀ a b, s = a ++ sep ++ b → (length x ≤ length a)%nat).
Proof.
  intros Hsep. destruct (includes s sep) eqn:Hin.
  - destruct (indexOf_includes s sep Hin) as (pre & rest & Hs & Hfirst).
    exists pre, (split rest sep). split; [by apply split_first|].
    right. exists rest. split; [done|]. intros a b Hab.
    by apply (indexOf_least s sep _ a b).
  - exists s, []. split; [by apply split_absent|]. by left.
Qed.

(** The text after [v=], up to the next [&] or the next [v=]: what
    [split('v=')[1].split('&')[0]] takes when [v=] has just been passed. *)
Lemma watch_id (id rest : jsstring) :
  includes id (js "&") = false →
  includes id (js "v=") = false →
  rest = [] ∨ (∃ query, rest = js "&" ++ query)
  ∨ (∃ more, rest = js "v=" ++ more) →
  ∃ part tail,
    split (id ++ rest) (js "v=") = part :: tail
    ∧ at_index (split part (js "&")) 0 = Normal id.
Proof.
  intros Hamp Honce Hrest.
  change (js "&") with [38] in *.
  assert (∀ k' x, id ≠ x ++ js "v=" ++ k') as Hnot.
  { intros k' x Hid.
    assert (includes id (js "v=") = true) as Hin; [|congruence].
    apply includes_spec. eauto. }
  assert (at_index (split id [38]) 0 = Normal id) as Hwhole.
  { pose proof (split_head_unit id 38 [] Hamp (or_introl eq_refl)) as H.
    by rewrite app_nil_r in H. }
  assert (∀ q, at_index (split (id ++ 38 :: q) [38]) 0 = Normal id) as Hcut.
  { intros q. apply split_head_unit; [done|]. right. by exists q. }
  destruct (first_segment (id ++ rest) (js "v=") eq_refl)
    as (x & tail & Hsplit & Hx).
  exists x, tail. split; [done|].
  destruct Hrest as [-> | [[query ->] | [more ->]]].
  - rewrite app_nil_r in Hx.
    destruct Hx as [[_ ->] | (r & Hid & _)]; [done | by apply Hnot in Hid].
  - destruct Hx as [[_ ->] | (r & Hs & _)]; [apply Hcut|].
    apply app_eq_inv in Hs as [(k & Hid & Hk) | (k & -> & Hk)].
    + destruct k as [|a [|b k']]; [done | done |].
      injection Hk as <- <- _. by apply Hnot in Hid.
    + destruct k as [|a k]; [done|]. injection Hk as <- _. apply Hcut.
  - destruct Hx as [[Hin _] | (r & Hs & Hleast)].
    { assert (includes (id ++ js "v=" ++ more) (js "v=") = true) as Hyes;
        [|congruence].
      apply includes_spec. eauto. }
    specialize (Hleast id more eq_refl).
    apply app_eq_inv in Hs as [(k & Hid & Hk) | (k & -> & Hk)].
    + destruct k as [|a [|b k']].
      * rewrite app_nil_r in Hid. by subst x.
      * done.
      * injection Hk as <- <- _. by apply Hnot in Hid.
    + destruct k as [|a k].
      * by rewrite app_nil_r.
      * rewrite length_app in Hleast. simpl in Hleast. lia.
Qed.

Section MoreClassifierFacts.

Implicit Types url : jsstring.

Lemma youtube_test_of_marker url :
  isYouTubeUrl url = true →
  includes url (js "youtube.com") || includes url (js "youtu.be") = true.
Proof.
  unfold isYouTubeUrl. intros [H|H]%orb_true_iff; apply orb_true_iff.
  - left. by apply (includes_trans url (js "youtube.com/watch?v=")).
  - right. by apply (includes_trans url (js "youtu.be/")).
Qed.

Lemma youtubeOrLater_no_marker url :
  isYouTubeUrl url = false → youtubeOrLater url = vimeoOrDefault url.
Proof.
  unfold isYouTubeUrl. intros [Hwatch Hshort]%orb_false_elim.
  unfold youtubeOrLater, youtubeVideoId. rewrite Hwatch, Hshort.
  by destruct (_ || _).
Qed.

Lemma at_index_elem (arr : list jsstring) i x :
  at_index arr i = Normal x → x ∈ arr.
Proof.
  unfold at_index. destruct (arr !! i) eqn:E; [|done].
  intros [= <-]. by eapply list_elem_of_lookup_2.
Qed.

End MoreClassifierFacts.

(** X1: for a URL that contains [youtube.com/watch?v=], does not contain
    [cloudinary.com] and is not a Drive URL with an id pattern, the
    thumbnail is the YouTube one of [<id>], the non-empty text that follows
    the first [v=] of the URL and ends at the next [&], at the next [v=] or
    with the URL, whichever comes first. *)
Theorem youtube_watch_thumbnail (url pre id rest : jsstring) :
  isBlobStoreUrl url = false →
  hasDriveId url = false →
  includes url (js "youtube.com/watch?v=") = true →
  url = pre ++ js "v=" ++ id ++ rest →
  indexOf url (js "v=") = Some (length pre) →
  truthy id = true →
  includes id (js "&") = false →
  includes id (js "v=") = false →
  rest = [] ∨ (∃ query, rest = js "&" ++ query)
  ∨ (∃ more, rest = js "v=" ++ more) →
  generateThumbnailUrl url =
    Normal (js "https://img.youtube.com/vi/" ++ id ++ js "/maxresdefault.jpg").
Proof.
  intros Hblob Hdrive Hwatch Hurl Hfirst Hid Hamp Honce Hrest.
  rewrite generateThumbnailUrl_later by done.
  assert (includes url (js "youtube.com") = true) as Hhost.
  { by apply (includes_trans url (js "youtube.com/watch?v=")). }
  unfold youtubeOrLater, youtubeVideoId. rewrite Hhost, Hwatch. cbn [orb].
  rewrite (split_first url (js "v=") pre (id ++ rest)) by done.
  destruct (watch_id id rest Hamp Honce Hrest) as (part & tail & -> & Hpart).
  cbn [at_index lookup list_lookup]. by rewrite Hpart, Hid.
Qed.

Lemma youtube_watch_thumbnail_witness :
  generateThumbnailUrl (js "https://www.youtube.com/watch?v=dQw4w9WgXcQ&t=42&pv=1") =
    Normal (js "https://img.youtube.com/vi/dQw4w9WgXcQ/maxresdefault.jpg")
  ∧ generateThumbnailUrl (js "https://www.youtube.com/watch?v=abcv=d&x") =
    Normal (js "https://img.youtube.com/vi/abc/maxresdefault.jpg").
Proof.
  split.
  - apply (youtube_watch_thumbnail
             (js "https://www.youtube.com/watch?v=dQw4w9WgXcQ&t=42&pv=1")
             (js "https://www.youtube.com/watch?") (js "dQw4w9WgXcQ")
             (js "&t=42&pv=1")); try reflexivity.
    right. left. exists (js "t=42&pv=1"). reflexivity.
  - apply (youtube_watch_thumbnail
             (js "https://www.youtube.com/watch?v=abcv=d&x")
             (js "https://www.youtube.com/watch?") (js "abc")
             (js "v=d&x")); try reflexivity.
    right. right. exists (js "d&x"). reflexivity.
Defined.

(** X2: whatever the URL, the YouTube block of [generateThumbnailUrl]
    computes its video id without an exception; the id holds no [&] when
    the URL contains [youtube.com/watch?v=] and no [?] otherwise.  For a
    URL without [cloudinary.com] that is not a Drive URL with an id
    pattern: when the id is not empty the thumbnail is the YouTube one of
    that id; when it is empty the function goes on to the Vimeo test and
    returns the thumbnail of the Vimeo id if the URL contains [vimeo.com]
    and the placeholder if not. *)
Theorem youtube_id_has_no_query (url : jsstring) :
  ∃ id,
    youtubeVideoId url = Normal id
    ∧ (includes url (js "youtube.com/watch?v=") = true →
         includes id (js "&") = false)
    ∧ (includes url (js "youtube.com/watch?v=") = false →
         includes id (js "?") = false)
    ∧ (isBlobStoreUrl url = false →
       hasDriveId url = false →
       (truthy id = true →
        generateThumbnailUrl url =
          Normal (js "https://img.youtube.com/vi/" ++ id
                    ++ js "/maxresdefault.jpg"))
       ∧ (truthy id = false →
          includes url (js "vimeo.com") = true →
          ∃ vimeoId,
            vimeoVideoId url = Normal vimeoId
            ∧ generateThumbnailUrl url =
                Normal (js "https://vumbnail.com/" ++ vimeoId ++ js ".jpg"))
       ∧ (truthy id = false →
          includes url (js "vimeo.com") = false →
          generateThumbnailUrl url = Normal placeholderThumbnail)).
Proof.
  destruct (youtubeVideoId_total url) as [id Hid]. exists id.
  split; [done|].
  assert (∀ part (c : N), at_index (split part [c]) 0 = Normal id →
                          includes id [c] = false) as Hsegment.
  { intros part c Hat. apply includes_unit_absent.
    apply at_index_elem in Hat.
    by eapply (proj1 (Forall_forall _ _) (split_unit_segments c part)). }
  pose proof Hid as Hvideo.
  unfold youtubeVideoId in Hid. split; [|split].
  - intros Hwatch. rewrite Hwatch in Hid.
    destruct (at_index (split url (js "v=")) 1) as [part|]; [|done].
    by apply (Hsegment part 38).
  - intros Hwatch. rewrite Hwatch in Hid.
    destruct (includes url (js "youtu.be/")); [|by injection Hid as <-].
    destruct (at_index (split url (js "youtu.be/")) 1) as [part|]; [|done].
    by apply (Hsegment part 63).
  - intros Hblob Hdrive.
    rewrite generateThumbnailUrl_later by done.
    assert (truthy id = false → youtubeOrLater url = vimeoOrDefault url)
      as Hlater.
    { intros Hempty. unfold youtubeOrLater. rewrite Hvideo, Hempty.
      by destruct (_ || _). }
    split; [|split].
    + intros Htruthy.
      assert (isYouTubeUrl url = true) as Hmarker.
      { unfold isYouTubeUrl.
        destruct (includes url (js "youtube.com/watch?v=")); [done|].
        destruct (includes url (js "youtu.be/")); [done|].
        injection Hid as <-. done. }
      unfold youtubeOrLater. rewrite youtube_test_of_marker by done.
      by rewrite Hvideo, Htruthy.
    + intros Hempty Hvimeo. rewrite Hlater by done.
      destruct (vimeoVideoId_total url) as [vimeoId Hvimeo'].
      exists vimeoId. split; [done|].
      unfold vimeoOrDefault. by rewrite Hvimeo, Hvimeo'.
    + intros Hempty Hvimeo. rewrite Hlater by done.
      unfold vimeoOrDefault. by rewrite Hvimeo.
Qed.

Lemma youtube_id_has_no_query_witness :
  youtubeVideoId (js "https://youtu.be/?list=vimeo.com/7") = Normal []
  ∧ generateThumbnailUrl (js "https://youtu.be/?list=vimeo.com/7") =
      Normal (js "https://vumbnail.com/7.jpg").
Proof.
  destruct (youtube_id_has_no_query (js "https://youtu.be/?list=vimeo.com/7"))
    as (id & Hid & _ & _ & Hthumb).
  assert (id = []) as ->.
  { vm_compute in Hid. by injection Hid as <-. }
  split; [exact Hid|].
  destruct (Hthumb eq_refl eq_refl) as (_ & Hvimeo & _).
  destruct (Hvimeo eq_refl eq_refl) as (vimeoId & Hvid & ->).
  vm_compute in Hvid. by injection Hvid as <-.
Defined.

(** X3: for a URL without a YouTube marker that no earlier provider claims
    and that contains [vimeo.com], the thumbnail is
    [https://vumbnail.com/<id>.jpg], [<id>] being the text after the last
    slash of the whole string up to the first [?] after it; a URL ending in
    a slash gets the empty id. *)
Theorem vimeo_thumbnail (url pre id rest : jsstring) :
  isBlobStoreUrl url = false →
  hasDriveId url = false →
  isYouTubeUrl url = false →
  includes url (js "vimeo.com") = true →
  url = pre ++ js "/" ++ id ++ rest →
  includes (id ++ rest) (js "/") = false →
  includes id (js "?") = false →
  rest = [] ∨ (∃ query, rest = js "?" ++ query) →
  generateThumbnailUrl url =
    Normal (js "https://vumbnail.com/" ++ id ++ js ".jpg").
Proof.
  intros Hblob Hdrive Hyoutube Hvimeo -> Hlast Hid Hrest.
  rewrite generateThumbnailUrl_later, youtubeOrLater_no_marker by done.
  unfold vimeoOrDefault, vimeoVideoId. rewrite Hvimeo.
  change (js "/") with [47] in *. change (js "?") with [63] in *.
  cbn [app]. rewrite split_unit_last by done.
  by rewrite split_head_unit.
Qed.

Lemma vimeo_thumbnail_witness :
  generateThumbnailUrl (js "https://vimeo.com/76979871?share=copy") =
    Normal (js "https://vumbnail.com/76979871.jpg")
  ∧ generateThumbnailUrl (js "https://vimeo.com/76979871/") =
    Normal (js "https://vumbnail.com/.jpg").
Proof.
  split.
  - apply (vimeo_thumbnail (js "https://vimeo.com/76979871?share=copy")
             (js "https://vimeo.com") (js "76979871") (js "?share=copy"));
      try reflexivity.
    right. exists (js "share=copy"). reflexivity.
  - apply (vimeo_thumbnail (js "https://vimeo.com/76979871/")
             (js "https://vimeo.com/76979871") (js "") (js ""));
      try reflexivity.
    left. reflexivity.
Defined.

(** X4: for a URL containing [cloudinary.com], the thumbnail is the URL
    with [so_0/] inserted after its first [/video/], and the URL itself
    when it has no [/video/]. *)
Theorem blob_store_thumbnail (url : jsstring) :
  includes url (js "cloudinary.com") = true →
  (∀ pre rest,
     url = pre ++ js "/video/" ++ rest →
     indexOf url (js "/video/") = Some (length pre) →
     generateThumbnailUrl url = Normal (pre ++ js "/video/so_0/" ++ rest))
  ∧ (includes url (js "/video/") = false →
     generateThumbnailUrl url = Normal url).
Proof.
  intros Hblob. unfold generateThumbnailUrl. rewrite Hblob. split.
  - intros pre rest Hurl Hfirst.
    by rewrite (replace_first url _ _ pre rest).
  - intros Habsent. by rewrite replace_absent.
Qed.

Lemma blob_store_thumbnail_witness :
  generateThumbnailUrl
    (js "https://res.cloudinary.com/demo/video/upload/v1/clips/video/a.mp4") =
    Normal
      (js "https://res.cloudinary.com/demo/video/so_0/upload/v1/clips/video/a.mp4")
  ∧ generateThumbnailUrl (js "https://res.cloudinary.com/demo/a.mp4") =
    Normal (js "https://res.cloudinary.com/demo/a.mp4").
Proof.
  split.
  - destruct (blob_store_thumbnail
                (js "https://res.cloudinary.com/demo/video/upload/v1/clips/video/a.mp4")
                eq_refl) as [Hfirst _].
    exact (Hfirst (js "https://res.cloudinary.com/demo")
             (js "upload/v1/clips/video/a.mp4") eq_refl eq_refl).
  - destruct (blob_store_thumbnail
                (js "https://res.cloudinary.com/demo/a.mp4") eq_refl)
      as [_ Habsent].
    exact (Habsent eq_refl).
Defined.

(** X5: for a URL containing [cloudinary.com], [extractVideoId] returns the
    text between the last slash and the first dot after it (the file name
    without its extensions), and the whole last segment when it has no
    dot. *)
Theorem blob_store_identifier (url pre name rest : jsstring) :
  includes url (js "cloudinary.com") = true →
  url = pre ++ js "/" ++ name ++ rest →
  includes (name ++ rest) (js "/") = false →
  includes name (js ".") = false →
  rest = [] ∨ (∃ extension, rest = js "." ++ extension) →
  extractVideoId url = Some name.
Proof.
  intros Hblob -> Hlast Hname Hrest.
  unfold extractVideoId. rewrite Hblob.
  change (js "/") with [47] in *. change (js ".") with [46] in *.
  cbn [app]. rewrite split_unit_last by done.
  apply at_index_head. by apply split_head_unit.
Qed.

Lemma blob_store_identifier_witness :
  extractVideoId
    (js "https://res.cloudinary.com/demo/video/upload/v1/clips/a.b.mp4") =
    Some (js "a").
Proof.
  apply (blob_store_identifier
           (js "https://res.cloudinary.com/demo/video/upload/v1/clips/a.b.mp4")
           (js "https://res.cloudinary.com/demo/video/upload/v1/clips")
           (js "a") (js ".b.mp4")); try reflexivity.
  right. exists (js "b.mp4"). reflexivity.
Defined.

(** X6: for a URL containing [drive.google.com] and not [cloudinary.com],
    the identifier comes from the [id=] parameter when there is one and from
    the [/file/d/] segment otherwise, while the thumbnail comes from the
    [/file/d/] segment when there is one and from the [id=] parameter
    otherwise: with both in the URL the two name different ids.  A matched
    id is never empty, so a match always yields a Drive thumbnail. *)
Theorem drive_id_sources (url : jsstring) :
  includes url (js "cloudinary.com") = false →
  includes url (js "drive.google.com") = true →
  (∀ fromParam,
     downloadMatch url = Some fromParam →
     extractVideoId url = Some (js "drive_" ++ fromParam)
     ∧ truthy fromParam = true ∧ includes fromParam (js "&") = false)
  ∧ (∀ fromPath,
     shareMatch url = Some fromPath →
     generateThumbnailUrl url =
       Normal (js "https://drive.google.com/thumbnail?id=" ++ fromPath
                 ++ js "&sz=w800-h450")
     ∧ truthy fromPath = true ∧ includes fromPath (js "/") = false)
  ∧ (∀ fromParam,
     downloadMatch url = Some fromParam →
     shareMatch url = None →
     generateThumbnailUrl url =
       Normal (js "https://drive.google.com/thumbnail?id=" ++ fromParam
                 ++ js "&sz=w800-h450"))
  ∧ (∀ fromPath,
     downloadMatch url = None →
     shareMatch url = Some fromPath →
     extractVideoId url = Some (js "drive_" ++ fromPath)).
Proof.
  intros Hblob Hdrive.
  unfold generateThumbnailUrl, extractVideoId, driveFileId.
  rewrite Hblob, Hdrive. repeat split.
  - by rewrite H.
  - by apply capture_result in H as [? _].
  - by apply capture_result in H as [_ ?].
  - rewrite H. apply capture_result in H as [-> _].
    by destruct (downloadMatch url).
  - by apply capture_result in H as [? _].
  - by apply capture_result in H as [_ ?].
  - intros fromParam Hparam Hpath. rewrite Hparam, Hpath.
    by apply capture_result in Hparam as [-> _].
  - intros fromPath Hparam Hpath. by rewrite Hparam, Hpath.
Qed.

Lemma drive_id_sources_witness :
  extractVideoId (js "https://drive.google.com/file/d/abc/view?id=xyz") =
    Some (js "drive_xyz")
  ∧ generateThumbnailUrl (js "https://drive.google.com/file/d/abc/view?id=xyz") =
    Normal (js "https://drive.google.com/thumbnail?id=abc&sz=w800-h450").
Proof.
  destruct (drive_id_sources
              (js "https://drive.google.com/file/d/abc/view?id=xyz")
              eq_refl eq_refl) as (Hparam & Hpath & _).
  destruct (Hparam (js "xyz") eq_refl) as [Hid _].
  destruct (Hpath (js "abc") eq_refl) as [Hthumb _].
  split; [exact Hid | exact Hthumb].
Defined.

(** * What the handlers leave alone *)

Section KeepsFacts.

Context (R : World → World → Prop) `{!PreOrder R}.
Hypothesis R_quiet : ∀ w w', sameStores w w' → R w w'.

Lemma keeps_ret {A} (a : A) : keeps R (mret a).
Proof. intros w. simpl. reflexivity. Qed.

Lemma keeps_throw {A} e : keeps R (@throw A e).
Proof. intros w. simpl. reflexivity. Qed.

Lemma keeps_lift {A} (c : completion A) : keeps R (lift c).
Proof. intros w. simpl. reflexivity. Qed.

Lemma keeps_get_world : keeps R get_world.
Proof. intros w. simpl. reflexivity. Qed.

Lemma keeps_bind {A B} (m : M A) (f : A → M B) :
  keeps R m → (∀ a, keeps R (f a)) → keeps R (m ≫= f).
Proof.
  intros Hm Hf w. specialize (Hm w). unfold mbind, M_bind.
  destruct (m w) as [[a|e] w1]; simpl in *; [|done].
  by etrans; [|apply Hf].
Qed.

Lemma keeps_try {A} (body : M A) handler :
  keeps R body → (∀ e, keeps R (handler e)) → keeps R (try_catch body handler).
Proof.
  intros Hm Hh w. specialize (Hm w). unfold try_catch.
  destruct (body w) as [[a|e] w1]; simpl in *; [done|].
  by etrans; [|apply Hh].
Qed.

Lemma keeps_modify f : (∀ w, R w (f w)) → keeps R (modify f).
Proof. intros Hf w. apply Hf. Qed.

Lemma keeps_quiet_modify f :
  (∀ w, stores (f w) = stores w) → keeps R (modify f).
Proof. intros Hf. apply keeps_modify. intros w. apply R_quiet, Hf. Qed.

Lemma keeps_console_error label e : keeps R (console_error label e).
Proof. by apply keeps_quiet_modify. Qed.

Lemma keeps_Date_now : keeps R Date_now.
Proof.
  apply keeps_bind; [apply keeps_get_world|]. intros w.
  apply keeps_bind; [by apply keeps_quiet_modify|]. intros _.
  apply keeps_ret.
Qed.

Lemma keeps_dbCall : keeps R dbCall.
Proof.
  apply keeps_bind; [apply keeps_get_world|]. intros w.
  destruct (dbFaults w) as [|[] rest].
  - apply keeps_ret.
  - apply keeps_bind; [by apply keeps_quiet_modify|]. intros _.
    apply keeps_throw.
  - by apply keeps_quiet_modify.
Qed.

Lemma keeps_blobCall : keeps R blobCall.
Proof.
  apply keeps_bind; [apply keeps_get_world|]. intros w.
  destruct (blobFaults w) as [|[] rest].
  - apply keeps_ret.
  - apply keeps_bind; [by apply keeps_quiet_modify|]. intros _.
    apply keeps_throw.
  - by apply keeps_quiet_modify.
Qed.

Lemma keeps_Video_findById id : keeps R (Video_findById id).
Proof.
  apply keeps_bind; [apply keeps_dbCall|]. intros _.
  apply keeps_bind; [apply keeps_get_world|]. intros w. apply keeps_ret.
Qed.

Lemma keeps_populate video : keeps R (populate video).
Proof.
  apply keeps_bind; [apply keeps_dbCall|]. intros _.
  apply keeps_bind; [apply keeps_get_world|]. intros w. apply keeps_ret.
Qed.

Lemma keeps_populate_all found : keeps R (populate_all found).
Proof.
  destruct found as [|v found]; [apply keeps_ret|].
  apply keeps_bind; [apply keeps_dbCall|]. intros _.
  apply keeps_bind; [apply keeps_get_world|]. intros w. apply keeps_ret.
Qed.

Lemma keeps_populate_author bioOf video :
  keeps R (populate_author bioOf video).
Proof.
  apply keeps_bind; [apply keeps_dbCall|]. intros _.
  apply keeps_bind; [apply keeps_get_world|]. intros w. apply keeps_ret.
Qed.

Lemma keeps_respond code p : keeps R (respond code p).
Proof. apply keeps_ret. Qed.

Lemma keeps_reply code p : keeps R (reply code p).
Proof. apply keeps_ret. Qed.

Lemma keeps_new_Video title description cloudinaryId videoUrl thumbnailUrl
  uploader tags :
  keeps R (new_Video title description cloudinaryId videoUrl thumbnailUrl
             uploader tags).
Proof.
  apply keeps_bind; [apply keeps_get_world|]. intros w.
  apply keeps_bind; [by apply keeps_quiet_modify|]. intros _.
  apply keeps_bind; [apply keeps_Date_now|]. intros created.
  apply keeps_bind; [apply keeps_Date_now|]. intros updated.
  apply keeps_ret.
Qed.

Lemma keeps_linkCloudinaryId url : keeps R (linkCloudinaryId url).
Proof.
  unfold linkCloudinaryId.
  destruct (extractVideoId url) as [id|]; [destruct (truthy id)|].
  - apply keeps_ret.
  - apply keeps_bind; [apply keeps_Date_now|]. intros now. apply keeps_ret.
  - apply keeps_bind; [apply keeps_Date_now|]. intros now. apply keeps_ret.
Qed.

(** The catch clause of every route: log, then answer. *)
Lemma keeps_catch label (answer : M Response) e :
  keeps R answer → keeps R (console_error label e;; answer).
Proof.
  intros Hanswer. apply keeps_bind; [apply keeps_console_error|]. done.
Qed.

End KeepsFacts.

Section ReturnsFacts.

Context {A : Type}.

Lemma try_catch_returns (P : A → Prop) (body : M A) handler :
  answers P body →
  (∀ e, returns P (handler e)) →
  returns P (try_catch body handler).
Proof.
  intros Hbody Hhandler w. unfold try_catch.
  destruct (body w) as [[a|e] w1] eqn:E.
  - exists a, w1. split; [done|]. by eapply Hbody.
  - apply Hhandler.
Qed.

Lemma answers_bind {B} (P : A → Prop) (m : M B) (f : B → M A) :
  (∀ b, answers P (f b)) → answers P (m ≫= f).
Proof.
  intros Hf w a w'. unfold mbind, M_bind.
  destruct (m w) as [[b|e] w1]; [apply Hf | done].
Qed.

Lemma answers_ret (P : A → Prop) (a : A) : P a → answers P (mret a).
Proof. intros Ha w a' w' [= <- _]. done. Qed.

Lemma answers_throw (P : A → Prop) e : answers P (throw e).
Proof. intros w a w'. done. Qed.

Lemma answers_try (P : A → Prop) (body : M A) handler :
  answers P body → (∀ e, answers P (handler e)) →
  answers P (try_catch body handler).
Proof.
  intros Hbody Hhandler w a w'. unfold try_catch.
  destruct (body w) as [[b|e] w1] eqn:E.
  - intros [= <- <-]. by eapply Hbody.
  - apply Hhandler.
Qed.

Lemma catch_returns (P : A → Prop) label e (a : A) :
  P a → returns P (console_error label e;; mret a).
Proof. intros Ha w. eexists _, _. split; [reflexivity | done]. Qed.

End ReturnsFacts.

#[local] Instance sameStores_preorder : PreOrder sameStores.
Proof.
  split.
  - by intros w.
  - intros w1 w2 w3 H12 H23. unfold sameStores in *. congruence.
Qed.

Lemma onlyTouches_preorder id user : PreOrder (onlyTouches id user).
Proof.
  split.
  - by intros w.
  - intros w1 w2 w3 [Hv12 Hu12] [Hv23 Hu23]. split.
    + intros j Hj. by rewrite Hv23, Hv12.
    + intros u Hu. by rewrite Hu23, Hu12.
Qed.

Lemma onlyTouches_quiet id user w w' :
  sameStores w w' → onlyTouches id user w w'.
Proof.
  unfold sameStores, stores. intros [= Hv Hu Hb]. split; intros; congruence.
Qed.

Lemma onlyAdds_preorder user : PreOrder (onlyAdds user).
Proof.
  split.
  - by intros w.
  - intros w1 w2 w3 (Hv12 & Hu12 & Hb12) (Hv23 & Hu23 & Hb23).
    split; [|split].
    + intros j v Hj. by apply Hv23, Hv12.
    + intros u Hu. by rewrite Hu23, Hu12.
    + congruence.
Qed.

Lemma onlyAdds_quiet user w w' : sameStores w w' → onlyAdds user w w'.
Proof.
  unfold sameStores, stores. intros [= Hv Hu Hb].
  split; [|split]; intros; congruence.
Qed.

(** Walks through a handler body built from the calls above. *)
Ltac keeps_step pre quiet :=
  lazymatch goal with
  | |- PreOrder _ => exact pre
  | |- ∀ w w', sameStores w w' → _ => exact quiet
  | |- ∀ _, keeps _ _ => intro
  | |- keeps _ (mbind _ _) => apply keeps_bind
  | |- keeps _ (try_catch _ _) => apply keeps_try
  | |- keeps _ (mret _) => apply keeps_ret
  | |- keeps _ (throw _) => apply keeps_throw
  | |- keeps _ (lift _) => apply keeps_lift
  | |- keeps _ get_world => apply keeps_get_world
  | |- keeps _ dbCall => apply keeps_dbCall
  | |- keeps _ blobCall => apply keeps_blobCall
  | |- keeps _ Date_now => apply keeps_Date_now
  | |- keeps _ (console_error _ _) => apply keeps_console_error
  | |- keeps _ (Video_findById _) => apply keeps_Video_findById
  | |- keeps _ (populate _) => apply keeps_populate
  | |- keeps _ (populate_all _) => apply keeps_populate_all
  | |- keeps _ (populate_author _ _) => apply keeps_populate_author
  | |- keeps _ (respond _ _) => apply keeps_respond
  | |- keeps _ (reply _ _) => apply keeps_reply
  | |- keeps _ (new_Video _ _ _ _ _ _ _) => apply keeps_new_Video
  | |- keeps _ (linkCloudinaryId _) => apply keeps_linkCloudinaryId
  end.

Ltac keeps_with pre quiet := repeat keeps_step pre quiet.

Section ReadOnlyFacts.

Context (R : World → World → Prop) {R_pre : PreOrder R}.
Hypothesis R_quiet : ∀ w w', sameStores w w' → R w w'.

Lemma keeps_Video_find_page q limit skip :
  keeps R (Video_find_page q limit skip).
Proof.
  unfold Video_find_page. keeps_with R_pre R_quiet.
  destruct (skip <? 0)%Z; keeps_with R_pre R_quiet.
Qed.

Lemma keeps_Video_countDocuments q : keeps R (Video_countDocuments q).
Proof. unfold Video_countDocuments. keeps_with R_pre R_quiet. Qed.

Lemma keeps_Video_find_sorted q : keeps R (Video_find_sorted q).
Proof. unfold Video_find_sorted. keeps_with R_pre R_quiet. Qed.

End ReadOnlyFacts.

Lemma sameStores_quiet w w' : sameStores w w' → sameStores w w'.
Proof. done. Qed.

(** X7: the two listing routes are read-only: whatever the query, and
    whatever the database answers, [GET /videos] and
    [GET /videos/user/my-videos] return a response, with status 200 or 500,
    and leave both collections and the blob store as they were. *)
Theorem listing_is_read_only (regexTest : jsstring → jsstring → bool)
  (validPattern : jsstring → bool) (q : Query) (user : ObjectId)
  (w : World) :
  (∃ r w',
     get_videos regexTest validPattern q w = (Normal r, w')
     ∧ stores w' = stores w
     ∧ (status r = 200 ∨ status r = 500))
  ∧ (∃ r w',
     get_my_videos user w = (Normal r, w')
     ∧ stores w' = stores w
     ∧ (code r = 200 ∨ code r = 500)).
Proof.
  split.
  - assert (returns (λ r, status r = 200 ∨ status r = 500)
              (get_videos regexTest validPattern q)) as Hreturns.
    { apply try_catch_returns.
      - do 3 (apply answers_bind; intros ?). apply answers_ret. by left.
      - intros e. apply catch_returns. by right. }
    assert (keeps sameStores (get_videos regexTest validPattern q))
      as Hkeeps.
    { unfold get_videos. keeps_with sameStores_preorder sameStores_quiet.
      - apply keeps_Video_find_page;
          keeps_with sameStores_preorder sameStores_quiet.
      - apply keeps_Video_countDocuments;
          keeps_with sameStores_preorder sameStores_quiet. }
    destruct (Hreturns w) as (r & w' & Hrun & Hstatus).
    exists r, w'. split; [done|]. split; [|done].
    specialize (Hkeeps w). by rewrite Hrun in Hkeeps.
  - assert (returns (λ r, code r = 200 ∨ code r = 500)
              (get_my_videos user)) as Hreturns.
    { apply try_catch_returns.
      - apply answers_bind; intros ?. apply answers_ret. by left.
      - intros e. apply catch_returns. by right. }
    assert (keeps sameStores (get_my_videos user)) as Hkeeps.
    { unfold get_my_videos. keeps_with sameStores_preorder sameStores_quiet.
      apply keeps_Video_find_sorted;
        keeps_with sameStores_preorder sameStores_quiet. }
    destruct (Hreturns w) as (r & w' & Hrun & Hstatus).
    exists r, w'. split; [done|]. split; [|done].
    specialize (Hkeeps w). by rewrite Hrun in Hkeeps.
Qed.

(** ** The database calls under any schedule of rejections *)

Section AnyFaultFacts.

Implicit Types w : World.

Lemma Video_findById_any id w :
  ∃ w1, (Video_findById id w = (Normal (Videos w !! id), w1)
         ∨ Video_findById id w = (Throw PersistenceError, w1))
        ∧ stores w1 = stores w.
Proof.
  destruct w as [vs us blob calls con clk reads next dbf blf].
  destruct dbf as [|[] rest]; eexists;
    (split; [first [left; reflexivity | right; reflexivity] | done]).
Qed.

Lemma populate_author_any bioOf video w :
  ∃ w1, (populate_author bioOf video w =
           (Normal (authorOf bioOf <$> Users w !! Video.uploader video), w1)
         ∨ populate_author bioOf video w = (Throw PersistenceError, w1))
        ∧ stores w1 = stores w.
Proof.
  destruct w as [vs us blob calls con clk reads next dbf blf].
  destruct dbf as [|[] rest]; eexists;
    (split; [first [left; reflexivity | right; reflexivity] | done]).
Qed.

Lemma Video_save_any video w :
  ∃ now w1,
    (Video_save video w = (Normal (Video.set_updatedAt now video), w1)
     ∧ Videos w1 =
         <[Video._id video := Video.set_updatedAt now video]> (Videos w)
     ∧ Users w1 = Users w ∧ blobStore w1 = blobStore w)
    ∨ (∃ e, Video_save video w = (Throw e, w1) ∧ stores w1 = stores w).
Proof.
  destruct w as [vs us blob calls con clk reads next dbf blf].
  unfold Video_save. destruct (Video.valid video).
  - unfold Date_now, dbCall, get_world, modify, throw.
    unfold mbind, M_bind, mret, M_ret.
    destruct dbf as [|[] rest]; simpl; exists (clk reads); eexists;
      first [left; split; [reflexivity | done]
            | right; eexists; split; [reflexivity | done]].
  - exists 0. eexists. right. eexists. split; [reflexivity | done].
Qed.

End AnyFaultFacts.

Lemma blobShrinks_preorder : PreOrder blobShrinks.
Proof.
  split.
  - intros w. unfold blobShrinks. set_solver.
  - intros w1 w2 w3 H12 H23. unfold blobShrinks in *. set_solver.
Qed.

Lemma blobShrinks_quiet w w' : sameStores w w' → blobShrinks w w'.
Proof. unfold sameStores, stores, blobShrinks. intros [= _ _ ->]. done. Qed.

Section DeleteFrame.

Context (R : World → World → Prop) {R_pre : PreOrder R}.
Variables (user id : ObjectId).
Hypothesis R_quiet : ∀ w w', sameStores w w' → R w w'.
Hypothesis R_videos : ∀ w, R w (with_Videos (delete id) w).
Hypothesis R_blob : ∀ x w, R w (with_blobStore (λ s, s ∖ {[x]}) w).
Hypothesis R_users : ∀ w, R w (with_Users (alter (pullVideo id) user) w).

Lemma keeps_delete_video : keeps R (delete_video user id).
Proof.
  unfold delete_video. keeps_with R_pre R_quiet.
  destruct a as [video|]; [|keeps_with R_pre R_quiet].
  destruct (negb _); keeps_with R_pre R_quiet.
  - destruct (includes _ _); keeps_with R_pre R_quiet.
    unfold cloudinary_destroy. keeps_with R_pre R_quiet.
    + by apply keeps_quiet_modify.
    + by apply keeps_modify.
  - unfold Video_findByIdAndDelete. keeps_with R_pre R_quiet.
    by apply keeps_modify.
  - unfold User_pull_video. keeps_with R_pre R_quiet.
    by apply keeps_modify.
Qed.

End DeleteFrame.

Lemma delete_video_refused (user id : ObjectId) (w : World) :
  (Videos w !! id = None
   ∨ ∃ video, Videos w !! id = Some video ∧ Video.uploader video ≠ user) →
  stores (delete_video user id w).2 = stores w.
Proof.
  intros Hrefused. unfold delete_video.
  destruct (Video_findById_any id w) as (w1 & [Hfound|Hfound] & Hstores).
  - destruct Hrefused as [Hnone | (video & Hsome & Hother)].
    + erewrite try_Normal; [exact Hstores|].
      erewrite bind_Normal by exact Hfound. by rewrite Hnone.
    + erewrite try_Normal; [exact Hstores|].
      erewrite bind_Normal by exact Hfound. rewrite Hsome.
      by rewrite (proj2 (N.eqb_neq _ _) Hother).
  - erewrite try_Throw by (erewrite bind_Throw by exact Hfound; done).
    exact Hstores.
Qed.

(** X8: whatever the database and the blob store answer, a delete request
    returns a response (200, 403, 404 or 500), changes no video but the one
    named and no user but the caller, and never adds to the blob store; for
    an id without a video or a caller who is not the owner, it changes
    nothing persistent at all. *)
Theorem delete_touches_only_its_target (user id : ObjectId) (w : World) :
  ∃ r w',
    delete_video user id w = (Normal r, w')
    ∧ (∀ j, j ≠ id → Videos w' !! j = Videos w !! j)
    ∧ (∀ u, u ≠ user → Users w' !! u = Users w !! u)
    ∧ blobStore w' ⊆ blobStore w
    ∧ status r ∈ [200; 403; 404; 500]
    ∧ (Videos w !! id = None → stores w' = stores w)
    ∧ (∀ video,
         Videos w !! id = Some video →
         Video.uploader video ≠ user →
         stores w' = stores w).
Proof.
  assert (returns (λ r, status r ∈ [200; 403; 404; 500])
            (delete_video user id)) as Hreturns.
  { apply try_catch_returns.
    - apply answers_bind. intros [video|].
      + destruct (negb _).
        * apply answers_ret. set_solver.
        * do 3 (apply answers_bind; intros ?). apply answers_ret. set_solver.
      + apply answers_ret. set_solver.
    - intros e. apply catch_returns. set_solver. }
  destruct (Hreturns w) as (r & w' & Hrun & Hstatus).
  exists r, w'. split; [done|].
  assert (w' = (delete_video user id w).2) as Hw' by by rewrite Hrun.
  assert (onlyTouches id user w w') as [Hvideos Husers].
  { rewrite Hw'.
    apply (keeps_delete_video (onlyTouches id user)
             (R_pre := onlyTouches_preorder id user)).
    - apply onlyTouches_quiet.
    - intros w0. split; [|done]. intros j Hj. simpl.
      by rewrite lookup_delete_ne.
    - intros x w0. by split.
    - intros w0. split; [done|]. intros u Hu. simpl.
      by rewrite lookup_alter_ne. }
  assert (blobShrinks w w') as Hblob.
  { rewrite Hw'.
    apply (keeps_delete_video blobShrinks (R_pre := blobShrinks_preorder)).
    - apply blobShrinks_quiet.
    - intros w0. unfold blobShrinks. simpl. set_solver.
    - intros x w0. unfold blobShrinks. simpl.
      by apply subseteq_difference_l.
    - intros w0. unfold blobShrinks. simpl. set_solver. }
  do 4 (split; [done|]). rewrite Hw'. split.
  - intros Hmissing. apply delete_video_refused. by left.
  - intros video Hfound Hother. apply delete_video_refused. right. eauto.
Qed.

(** * The engagement routes *)

(** Membership in a list of literals. *)
Ltac in_list := apply (bool_decide_unpack _); vm_compute; exact I.

Section EngagementFacts.

Implicit Types w : World.

Lemma stores_fields w w' :
  stores w' = stores w →
  Videos w' = Videos w ∧ Users w' = Users w ∧ blobStore w' = blobStore w.
Proof. unfold stores. by intros [= -> -> ->]. Qed.

Lemma keyedById_sample : keyedById Sample.world.
Proof.
  change (map_Forall (λ i v, Video._id v = i) (Videos Sample.world)).
  apply (bool_decide_unpack _). vm_compute. exact I.
Qed.

Lemma keyedById_insert w w' id video :
  keyedById w →
  Video._id video = id →
  Videos w' = <[id := video]> (Videos w) →
  keyedById w'.
Proof.
  intros Hkeyed Hid Hvideos i v. rewrite Hvideos.
  destruct (decide (id = i)) as [<-|Hne].
  - rewrite lookup_insert_eq. by intros [= <-].
  - rewrite lookup_insert_ne by done. apply Hkeyed.
Qed.

End EngagementFacts.

(** X9: whatever the database answers, a like request on a collection keyed
    by id returns a response (200, 404 or 500) and changes at most the
    [likes] and [updatedAt] fields of the video named: every other field of
    it, every other video, the users and the blob store are as they were,
    and the collection stays keyed by id. *)
Theorem like_changes_only_likes (user id : ObjectId) (w : World) :
  keyedById w →
  ∃ r w',
    post_like user id w = (Normal r, w')
    ∧ (∀ j, j ≠ id → Videos w' !! j = Videos w !! j)
    ∧ apartFromLikes <$> Videos w' !! id = apartFromLikes <$> Videos w !! id
    ∧ Users w' = Users w
    ∧ blobStore w' = blobStore w
    ∧ keyedById w'
    ∧ status r ∈ [200; 404; 500].
Proof.
  intros Hkeyed. unfold post_like.
  destruct (Video_findById_any id w) as (w1 & [Hfound|Hfound] & Hstores);
    apply stores_fields in Hstores as (Hv1 & Hu1 & Hb1).
  - destruct (Videos w !! id) as [video|] eqn:Hvideo.
    + set (video2 := if bool_decide (user ∈ Video.likes video)
                     then Video.set_likes
                            (filter (λ i, i ≠ user) (Video.likes video)) video
                     else Video.set_likes (Video.likes video ++ [user]) video).
      assert (Video._id video2 = id) as Hid2.
      { subst video2. rewrite <- (Hkeyed id video Hvideo).
        by destruct (bool_decide _). }
      assert (apartFromLikes video2 = apartFromLikes video) as Hrest.
      { subst video2. by destruct (bool_decide _). }
      destruct (Video_save_any video2 w1)
        as (now & w2 & [(Hsave & Hv2 & Hu2 & Hb2) | (e & Hsave & Hstores2)]).
      * eexists _, w2. split.
        { apply try_Normal. erewrite bind_Normal by exact Hfound.
          cbv beta iota zeta. fold video2.
          erewrite bind_Normal by exact Hsave. reflexivity. }
        rewrite Hv2, Hid2, Hv1, Hu2, Hu1, Hb2, Hb1. split.
        { intros j Hj. by rewrite lookup_insert_ne. }
        rewrite lookup_insert_eq. split.
        { simpl. f_equal. rewrite <- Hrest. by destruct video2. }
        do 2 (split; [done|]). split; [|in_list].
        apply (keyedById_insert w w2 id (Video.set_updatedAt now video2));
          [done | by destruct video2 | by rewrite Hv2, Hid2, Hv1].
      * apply stores_fields in Hstores2 as (Hv2 & Hu2 & Hb2).
        eexists _, _. split.
        { erewrite try_Throw; [reflexivity|].
          erewrite bind_Normal by exact Hfound.
          cbv beta iota zeta. fold video2.
          by erewrite bind_Throw by exact Hsave. }
        simpl. rewrite Hv2, Hv1, Hu2, Hu1, Hb2, Hb1, Hvideo.
        do 4 (split; [done|]). split; [|in_list].
        intros i v. simpl. rewrite Hv2, Hv1. apply Hkeyed.
    + eexists _, w1. split.
      { apply try_Normal. by erewrite bind_Normal by exact Hfound. }
      rewrite Hv1, Hu1, Hb1, Hvideo.
      do 4 (split; [done|]). split; [|in_list].
      intros i v. rewrite Hv1. apply Hkeyed.
  - eexists _, _. split.
    { erewrite try_Throw; [reflexivity|].
      by erewrite bind_Throw by exact Hfound. }
    simpl. rewrite Hv1, Hu1, Hb1.
    do 4 (split; [done|]). split; [|in_list].
    intros i v. simpl. rewrite Hv1. apply Hkeyed.
Qed.

Lemma like_changes_only_likes_witness :
  ∃ r w',
    post_like 2 11 (with_dbFaults [false; true] Sample.world) = (Normal r, w')
    ∧ Videos w' !! 10 = Some Sample.hosted
    ∧ apartFromLikes <$> Videos w' !! 11 = Some (apartFromLikes Sample.linked)
    ∧ Users w' = Users Sample.world.
Proof.
  destruct (like_changes_only_likes 2 11
              (with_dbFaults [false; true] Sample.world) keyedById_sample)
    as (r & w' & Hrun & Hothers & Hrest & Husers & _).
  exists r, w'. split; [exact Hrun|]. split; [|split].
  - rewrite Hothers; [reflexivity|]. intros Heq. discriminate Heq.
  - exact Hrest.
  - exact Husers.
Defined.

Section FetchFacts.

Variable bioOf : ObjectId → option jsstring.

(** What one fetch does to a stored video when the database answers. *)
Lemma get_video_run (id : ObjectId) (video : Video.doc) (w : World) :
  Video.valid video = true →
  dbFaults w = [] →
  Videos w !! id = Some video →
  get_video bioOf id w =
    (Normal
       {| code := 200;
          content :=
            VideoDetail
              (Video.set_updatedAt (clock w (clockReads w))
                 (Video_set_views (plusOne (Video.views video)) video))
              (authorOf bioOf <$> Users w !! Video.uploader video) |},
     with_Videos
       (insert (Video._id video)
          (Video.set_updatedAt (clock w (clockReads w))
             (Video_set_views (plusOne (Video.views video)) video)))
       (with_clockReads (S (clockReads w)) w)).
Proof.
  intros Hvalid Hdb Hfound. unfold get_video. apply try_Normal.
  run_with Video_findById_run. rewrite Hfound.
  erewrite bind_Normal.
  2:{ unfold populate_author. run_with dbCall_ok. reflexivity. }
  by run_with Video_save_run.
Qed.

Lemma plusOne_exact (n : N) : n < 2 ^ 53 → plusOne n = n + 1.
Proof. intros Hn. unfold plusOne. by rewrite (proj2 (N.ltb_lt _ _) Hn). Qed.

Lemma afterFetches_views (id : ObjectId) (n : nat) :
  ∀ (video : Video.doc) (w : World),
    dbFaults w = [] →
    Videos w !! id = Some video →
    Video._id video = id →
    Video.valid video = true →
    Video.views video + N.of_nat n ≤ 2 ^ 53 →
    ∃ video',
      Videos (afterFetches bioOf id n w) !! id = Some video'
      ∧ Video.views video' = Video.views video + N.of_nat n
      ∧ apartFromViews video' = apartFromViews video
      ∧ Video.valid video' = true
      ∧ dbFaults (afterFetches bioOf id n w) = []
      ∧ (∀ j, j ≠ id →
           Videos (afterFetches bioOf id n w) !! j = Videos w !! j)
      ∧ Users (afterFetches bioOf id n w) = Users w.
Proof.
  induction n as [|n IH]; intros video w Hdb Hfound Hid Hvalid Hbound.
  - exists video. simpl. rewrite N.add_0_r. done.
  - cbn [afterFetches]. rewrite (get_video_run id video w Hvalid Hdb Hfound).
    cbn [snd]. rewrite plusOne_exact by lia.
    set (video1 := Video.set_updatedAt (clock w (clockReads w))
                     (Video_set_views (Video.views video + 1) video)).
    set (w1 := with_Videos (insert (Video._id video) video1)
                 (with_clockReads (S (clockReads w)) w)).
    destruct (IH video1 w1) as (video' & Hstored & Hviews & Hrest & Hvalid' &
                                Hdb' & Hothers & Husers).
    + done.
    + subst w1. simpl. by rewrite Hid, lookup_insert_eq.
    + subst video1. by destruct video.
    + done.
    + subst video1. simpl. lia.
    + exists video'. split; [done|].
      split; [|split; [|split; [done|split; [done|split]]]].
      * rewrite Hviews. subst video1. simpl. lia.
      * rewrite Hrest. subst video1. by destruct video.
      * intros j Hj. rewrite Hothers by done. subst w1. simpl.
        rewrite Hid. by rewrite lookup_insert_ne.
      * by rewrite Husers.
Qed.

End FetchFacts.

(** X10: every fetch of a video counts as a view: with the database
    answering, for a stored record that passes the validators [save()] runs
    again and a view count that stays below 2^53, after [n] requests
    [GET /videos/:id] in a row the stored view count is the original one
    plus [n], the next request answers 200 with the count plus [n + 1], and
    nothing else of the record, of the other videos or of the users changes
    ([updatedAt] apart).  Nothing here asks whether the video is private or
    who is asking.  At 2^53 views the count stays where it is. *)
Theorem fetches_count_views (bioOf : ObjectId → option jsstring)
  (id : ObjectId) (n : nat) (video : Video.doc) (w : World) :
  dbFaults w = [] →
  Videos w !! id = Some video →
  Video._id video = id →
  Video.valid video = true →
  Video.views video + N.of_nat n < 2 ^ 53 →
  ∃ stored served author w',
    Videos (afterFetches bioOf id n w) !! id = Some stored
    ∧ Video.views stored = Video.views video + N.of_nat n
    ∧ apartFromViews stored = apartFromViews video
    ∧ (∀ j, j ≠ id → Videos (afterFetches bioOf id n w) !! j = Videos w !! j)
    ∧ Users (afterFetches bioOf id n w) = Users w
    ∧ get_video bioOf id (afterFetches bioOf id n w) =
        (Normal {| code := 200; content := VideoDetail served author |}, w')
    ∧ Video.views served = Video.views video + N.of_nat n + 1
    ∧ Video.isPrivate served = Video.isPrivate video
    ∧ (∀ full w0,
         dbFaults w0 = [] →
         Videos w0 !! id = Some full →
         Video.valid full = true →
         Video.views full = 2 ^ 53 →
         ∃ same author' w1,
           get_video bioOf id w0 =
             (Normal {| code := 200; content := VideoDetail same author' |},
              w1)
           ∧ Video.views same = 2 ^ 53).
Proof.
  intros Hdb Hfound Hid Hvalid Hbound.
  destruct (afterFetches_views bioOf id n video w Hdb Hfound Hid Hvalid)
    as (stored & Hstored & Hviews & Hrest & Hvalid' & Hdb' & Hothers
        & Husers); [lia|].
  eexists stored, _, _, _. do 5 (split; [done|]).
  split; [by apply get_video_run|].
  simpl. rewrite Hviews, plusOne_exact by lia. split; [done|]. split.
  - apply (f_equal Video.isPrivate) in Hrest. by destruct stored, video.
  - intros full w0 Hdb0 Hfound0 Hvalid0 Hfull. eexists _, _, _.
    split; [by apply get_video_run|]. simpl. by rewrite Hfull.
Qed.

Lemma fetches_count_views_witness :
  ∃ stored served author w',
    Videos (afterFetches (λ _, None) 10 5 Sample.world) !! 10 = Some stored
    ∧ Video.views stored = 8
    ∧ get_video (λ _, None) 10 (afterFetches (λ _, None) 10 5 Sample.world) =
        (Normal {| code := 200; content := VideoDetail served author |}, w')
    ∧ Video.views served = 9.
Proof.
  destruct (fetches_count_views (λ _, None) 10 5 Sample.hosted Sample.world
              eq_refl eq_refl eq_refl eq_refl eq_refl)
    as (stored & served & author & w' & Hstored & Hviews & _ & _ & _ &
        Hrun & Hserved & _).
  exists stored, served, author, w'.
  split; [exact Hstored|]. split; [exact Hviews|].
  split; [exact Hrun | exact Hserved].
Defined.

(** X11: whatever the database answers, a fetch on a collection keyed by id
    returns a response (200, 404 or 500) and changes at most the [views]
    and [updatedAt] fields of the video named; for an id without a video
    it changes nothing persistent. *)
Theorem fetch_changes_only_views (bioOf : ObjectId → option jsstring)
  (id : ObjectId) (w : World) :
  keyedById w →
  ∃ r w',
    get_video bioOf id w = (Normal r, w')
    ∧ (∀ j, j ≠ id → Videos w' !! j = Videos w !! j)
    ∧ apartFromViews <$> Videos w' !! id = apartFromViews <$> Videos w !! id
    ∧ Users w' = Users w
    ∧ blobStore w' = blobStore w
    ∧ keyedById w'
    ∧ code r ∈ [200; 404; 500]
    ∧ (Videos w !! id = None → stores w' = stores w).
Proof.
  intros Hkeyed. unfold get_video.
  destruct (Video_findById_any id w) as (w1 & [Hfound|Hfound] & Hstores);
    pose proof Hstores as Hstores1;
    apply stores_fields in Hstores as (Hv1 & Hu1 & Hb1).
  - destruct (Videos w !! id) as [video|] eqn:Hvideo.
    + pose proof (Hkeyed id video Hvideo) as Hid.
      destruct (populate_author_any bioOf video w1)
        as (w2 & [Hauthor|Hauthor] & Hstores2);
        apply stores_fields in Hstores2 as (Hv2 & Hu2 & Hb2).
      * set (video2 := Video_set_views (plusOne (Video.views video)) video).
        destruct (Video_save_any video2 w2)
          as (now & w3 & [(Hsave & Hv3 & Hu3 & Hb3) | (e & Hsave & Hstores3)]).
        -- eexists _, w3. split.
           { apply try_Normal. erewrite bind_Normal by exact Hfound.
             erewrite bind_Normal by exact Hauthor.
             cbv beta iota zeta. fold video2.
             erewrite bind_Normal by exact Hsave. reflexivity. }
           assert (Video._id video2 = id) as Hid2 by done.
           rewrite Hv3, Hid2, Hv2, Hv1, Hu3, Hu2, Hu1, Hb3, Hb2, Hb1.
           split; [intros j Hj; by rewrite lookup_insert_ne|].
           rewrite lookup_insert_eq. split.
           { simpl. f_equal; by destruct video. }
           do 2 (split; [done|]). split; [|split; [in_list|done]].
           apply (keyedById_insert w w3 id (Video.set_updatedAt now video2));
             [done | by destruct video | by rewrite Hv3, Hid2, Hv2, Hv1].
        -- apply stores_fields in Hstores3 as (Hv3 & Hu3 & Hb3).
           eexists _, _. split.
           { erewrite try_Throw; [reflexivity|].
             erewrite bind_Normal by exact Hfound.
             erewrite bind_Normal by exact Hauthor.
             cbv beta iota zeta. fold video2.
             by erewrite bind_Throw by exact Hsave. }
           simpl. rewrite Hv3, Hv2, Hv1, Hu3, Hu2, Hu1, Hb3, Hb2, Hb1, Hvideo.
           do 4 (split; [done|]). split; [|split; [in_list|done]].
           intros i v. simpl. rewrite Hv3, Hv2, Hv1. apply Hkeyed.
      * eexists _, _. split.
        { erewrite try_Throw; [reflexivity|].
          erewrite bind_Normal by exact Hfound.
          by erewrite bind_Throw by exact Hauthor. }
        simpl. rewrite Hv2, Hv1, Hu2, Hu1, Hb2, Hb1, Hvideo.
        do 4 (split; [done|]). split; [|split; [in_list|done]].
        intros i v. simpl. rewrite Hv2, Hv1. apply Hkeyed.
    + eexists _, w1. split.
      { apply try_Normal. erewrite bind_Normal by exact Hfound.
        by erewrite bind_Normal by reflexivity. }
      rewrite Hv1, Hu1, Hb1, Hvideo.
      do 4 (split; [done|]). split; [|split; [in_list|done]].
      intros i v. rewrite Hv1. apply Hkeyed.
  - eexists _, _. split.
    { erewrite try_Throw; [reflexivity|].
      by erewrite bind_Throw by exact Hfound. }
    simpl. rewrite Hv1, Hu1, Hb1.
    do 4 (split; [done|]). split; [|split; [in_list|]].
    + intros i v. simpl. rewrite Hv1. apply Hkeyed.
    + intros _. unfold stores. simpl. by rewrite Hv1, Hu1, Hb1.
Qed.

Lemma fetch_changes_only_views_witness :
  ∃ r w',
    get_video (λ _, None) 99 Sample.world = (Normal r, w')
    ∧ stores w' = stores Sample.world.
Proof.
  destruct (fetch_changes_only_views (λ _, None) 99 Sample.world
              keyedById_sample)
    as (r & w' & Hrun & _ & _ & _ & _ & _ & _ & Hmissing).
  exists r, w'. split; [exact Hrun | exact (Hmissing eq_refl)].
Defined.

(** * The catalogue, page by page *)

Section CatalogueFacts.

Implicit Types (w : World) (q : Video.doc → bool) (l : list Video.doc).

#[local] Instance newerFirst_transitive : Transitive newerFirst.
Proof. intros a b c. unfold newerFirst. lia. Qed.

#[local] Existing Instance newerFirst_total.

Lemma elem_of_selected q w v :
  v ∈ selected q w ↔ q v = true ∧ ∃ i, Videos w !! i = Some v.
Proof.
  unfold selected. rewrite list_elem_of_filter, list_elem_of_fmap.
  split.
  - intros [Hq ([i v'] & -> & Hin)]. split; [done|]. exists i.
    by apply elem_of_map_to_list.
  - intros [Hq [i Hi]]. split; [done|]. exists (i, v). split; [done|].
    by apply elem_of_map_to_list.
Qed.

Lemma sorted_selection q w :
  StronglySorted newerFirst (merge_sort newerFirst (selected q w)).
Proof. apply StronglySorted_merge_sort; apply _. Qed.

Lemma elem_of_sorted_selection q w v :
  v ∈ merge_sort newerFirst (selected q w) ↔ v ∈ selected q w.
Proof. by rewrite merge_sort_Permutation. Qed.




(** The documents of page [page] at [limit] per page. *)
Lemma get_videos_run regexTest validPattern (search : option jsstring)
  (page limit : N) w :
  dbFaults w = [] →
  compiles validPattern search →
  1 ≤ page →
  get_videos regexTest validPattern
    {| query_page := Some page; query_limit := Some limit;
       query_search := search |} w =
    (Normal
       {| status := 200;
          payload :=
            VideoPage
              (expand w <$>
                 (let skipped :=
                    drop (N.to_nat (page - 1) * N.to_nat limit)
                      (merge_sort newerFirst
                         (selected (catalogQuery regexTest search) w)) in
                  if limit =? 0 then skipped
                  else take (N.to_nat limit) skipped))
              (totalPagesOf
                 (N.of_nat
                    (length (selected (catalogQuery regexTest search) w)))
                 limit)
              page |}, w).
Proof.
  intros Hdb Hsearch Hpage. unfold get_videos. apply try_Normal.
  cbn [default query_page query_limit query_search from_option id].
  rewrite buildQuery_compiles by done.
  erewrite bind_Normal by reflexivity.
  erewrite bind_Normal.
  2:{ apply Video_find_page_run; [done|].
      apply Z.mul_nonneg_nonneg; lia. }
  run_with Video_countDocuments_run.
  rewrite N.mul_1_r.
  replace (Z.to_nat ((Z.of_N page - 1) * Z.of_N limit))
    with (N.to_nat (page - 1) * N.to_nat limit)%nat; [done|].
  rewrite Z2Nat.inj_mul by lia. f_equal; lia.
Qed.

(** A search term that is no pattern: nothing is asked of the database. *)
Lemma get_videos_syntax_error regexTest validPattern (q : Query) term w :
  query_search q = Some term →
  truthy term = true →
  validPattern term = false →
  get_videos regexTest validPattern q w =
    (Normal {| status := 500;
               payload := Message (js "Error fetching videos") |},
     with_console (ConsoleError (js "Get videos error:") SyntaxError) w).
Proof.
  intros Hterm Htruthy Hinvalid. unfold get_videos.
  erewrite try_Throw; [reflexivity|].
  unfold buildQuery. rewrite Hterm, Htruthy, Hinvalid. reflexivity.
Qed.

End CatalogueFacts.

Section PagingFacts.


End PagingFacts.

(** X12: with the database answering, [GET /videos/user/my-videos] returns
    exactly the videos whose uploader is the caller, private ones included,
    newest first, and leaves the world as it was. *)
Theorem my_videos_are_the_callers (user : ObjectId) (w : World) :
  dbFaults w = [] →
  ∃ docs,
    get_my_videos user w =
      (Normal {| code := 200; content := VideoArray (expand w <$> docs) |}, w)
    ∧ StronglySorted newerFirst docs
    ∧ docs ≡ₚ filter (λ v, Video.uploader v = user) (map_to_list (Videos w)).*2
    ∧ (∀ v, v ∈ docs ↔
            Video.uploader v = user ∧ ∃ i, Videos w !! i = Some v).
Proof.
  intros Hdb.
  exists (merge_sort newerFirst (selected (λ v, Video.uploader v =? user) w)).
  split; [|split; [apply sorted_selection|split]].
  - unfold get_my_videos. apply try_Normal.
    erewrite bind_Normal; [reflexivity|].
    unfold Video_find_sorted. run_with dbCall_ok.
    erewrite bind_Normal by reflexivity. cbv zeta.
    by apply populate_all_run.
  - rewrite merge_sort_Permutation. unfold selected.
    erewrite list_filter_iff; [done|]. intros v. simpl. apply N.eqb_eq.
  - intros v. rewrite elem_of_sorted_selection, elem_of_selected.
    by rewrite N.eqb_eq.
Qed.

Lemma my_videos_are_the_callers_witness :
  ∃ docs,
    get_my_videos 1 Sample.world =
      (Normal {| code := 200;
                 content := VideoArray (expand Sample.world <$> docs) |},
       Sample.world)
    ∧ (Sample.hosted ∈ docs ∧ Sample.linked ∈ docs ∧ Sample.direct ∉ docs).
Proof.
  destruct (my_videos_are_the_callers 1 Sample.world eq_refl)
    as (docs & Hrun & _ & _ & Hdocs).
  exists docs. split; [exact Hrun|]. split; [|split].
  - apply Hdocs. split; [reflexivity|]. exists 10. reflexivity.
  - apply Hdocs. split; [reflexivity|]. exists 11. reflexivity.
  - intros [Huploader _]%Hdocs. discriminate Huploader.
Defined.






(** X15: three edges of the listing.  A search term that is no pattern
    makes [new RegExp] throw before anything is asked of the database: the
    answer is the generic 500 and the SyntaxError is logged.  Otherwise,
    with the database answering: with [limit=0] the database applies no
    limit, every page [≥ 1] holds all the videos the listing shows and
    [totalPages] is not a finite number; with [page=0] and [limit ≥ 1] the
    skip is negative, the database rejects the query and the answer is the
    generic 500, logged. *)
Theorem listing_edges (regexTest : jsstring → jsstring → bool)
  (validPattern : jsstring → bool) (search : option jsstring) (w : World) :
  (∀ term page limit,
     search = Some term →
     truthy term = true →
     validPattern term = false →
     get_videos regexTest validPattern
       {| query_page := page; query_limit := limit;
          query_search := search |} w =
       (Normal {| status := 500;
                  payload := Message (js "Error fetching videos") |},
        with_console (ConsoleError (js "Get videos error:") SyntaxError) w))
  ∧ (dbFaults w = [] →
     compiles validPattern search →
     (∀ page, 1 ≤ page →
        get_videos regexTest validPattern
          {| query_page := Some page; query_limit := Some 0;
             query_search := search |} w =
          (Normal
             {| status := 200;
                payload :=
                  VideoPage
                    (expand w <$>
                       merge_sort newerFirst
                         (filter (λ v, isListed regexTest search v = true)
                            (map_to_list (Videos w)).*2))
                    None page |}, w))
     ∧ (∀ limit, 1 ≤ limit →
        get_videos regexTest validPattern
          {| query_page := Some 0; query_limit := Some limit;
             query_search := search |} w =
          (Normal {| status := 500;
                     payload := Message (js "Error fetching videos") |},
           with_console
             (ConsoleError (js "Get videos error:") PersistenceError) w))).
Proof.
  split.
  - intros term page limit Hterm Htruthy Hinvalid.
    by apply (get_videos_syntax_error _ _ _ term).
  - intros Hdb Hsearch. rewrite <- selected_isListed. split.
    + intros page Hpage. rewrite get_videos_run by done.
      by rewrite Nat.mul_0_r.
    + intros limit Hlimit. unfold get_videos.
      erewrite try_Throw; [reflexivity|].
      cbn [default query_page query_limit query_search from_option id].
      rewrite buildQuery_compiles by done.
      erewrite bind_Normal by reflexivity.
      erewrite bind_Throw; [reflexivity|].
      unfold Video_find_page. run_with dbCall_ok.
      erewrite bind_Normal by reflexivity.
      assert (((Z.of_N 0 - 1) * Z.of_N limit <? 0)%Z = true) as ->; [|done].
      apply Z.ltb_lt. lia.
Qed.

Lemma listing_edges_witness :
  get_videos Sample.search Sample.isPattern
    {| query_page := Some 1; query_limit := Some 12;
       query_search := Some (js "(") |}
    Sample.world =
    (Normal {| status := 500;
               payload := Message (js "Error fetching videos") |},
     with_console (ConsoleError (js "Get videos error:") SyntaxError)
       Sample.world)
  ∧ get_videos Sample.search Sample.isPattern
      {| query_page := Some 0; query_limit := Some 5; query_search := None |}
      Sample.world =
    (Normal {| status := 500;
               payload := Message (js "Error fetching videos") |},
     with_console (ConsoleError (js "Get videos error:") PersistenceError)
       Sample.world).
Proof.
  destruct (listing_edges Sample.search Sample.isPattern (Some (js "("))
              Sample.world) as [Hsyntax _].
  destruct (listing_edges Sample.search Sample.isPattern None Sample.world)
    as [_ Hzero].
  split.
  - apply (Hsyntax (js "(")); reflexivity.
  - destruct (Hzero eq_refl) as [_ Hskip].
    { intros term Hterm. discriminate Hterm. }
    apply Hskip. vm_compute. discriminate.
Defined.

(** * The upload routes under any schedule of rejections *)

Section UploadFrame.

Implicit Types (user : ObjectId) (isValidURL : jsstring → bool).

Lemma keeps_Video_save_new user video :
  keeps (onlyAdds user) (Video_save_new video).
Proof.
  intros w. unfold Video_save_new.
  destruct (Video.valid video); [|by apply onlyAdds_quiet].
  destruct w as [vs us blob calls con clk reads next dbf blf].
  unfold Date_now, dbCall, get_world, modify, throw.
  unfold mbind, M_bind, mret, M_ret.
  destruct dbf as [|[] rest]; simpl; try by apply onlyAdds_quiet.
  - destruct (vs !! Video._id video) eqn:Hfree; simpl;
      [by apply onlyAdds_quiet|].
    split; [|done]. intros j v Hj. simpl in *.
    rewrite lookup_insert_ne; [done|]. congruence.
  - destruct (vs !! Video._id video) eqn:Hfree; simpl;
      [by apply onlyAdds_quiet|].
    split; [|done]. intros j v Hj. simpl in *.
    rewrite lookup_insert_ne; [done|]. congruence.
Qed.

Lemma keeps_User_push_video user vid :
  keeps (onlyAdds user) (User_push_video user vid).
Proof.
  unfold User_push_video.
  keeps_with (onlyAdds_preorder user) (onlyAdds_quiet user).
  apply keeps_modify.
  intros w. split; [done|]. split; [|done].
  intros u Hu. simpl. by rewrite lookup_alter_ne.
Qed.

Lemma keeps_post_upload user file body :
  keeps (onlyAdds user) (post_upload user file body).
Proof.
  unfold post_upload.
  keeps_with (onlyAdds_preorder user) (onlyAdds_quiet user).
  destruct file as [file|];
    keeps_with (onlyAdds_preorder user) (onlyAdds_quiet user).
  - apply keeps_Video_save_new.
  - apply keeps_User_push_video.
Qed.

Lemma keeps_post_upload_link isValidURL user body :
  keeps (onlyAdds user) (post_upload_link isValidURL user body).
Proof.
  unfold post_upload_link.
  keeps_with (onlyAdds_preorder user) (onlyAdds_quiet user).
  destruct (body_videoUrl body) as [url|];
    keeps_with (onlyAdds_preorder user) (onlyAdds_quiet user).
  destruct (negb (truthy url));
    keeps_with (onlyAdds_preorder user) (onlyAdds_quiet user).
  destruct (negb (isValidURL url));
    keeps_with (onlyAdds_preorder user) (onlyAdds_quiet user).
  - apply keeps_Video_save_new.
  - apply keeps_User_push_video.
Qed.

Lemma post_upload_returns user file body :
  returns (λ r, status r ∈ [201; 400; 500]) (post_upload user file body).
Proof.
  apply try_catch_returns.
  - destruct file as [file|].
    + do 5 (apply answers_bind; intros ?). apply answers_ret. set_solver.
    + apply answers_ret. set_solver.
  - intros e. apply catch_returns. set_solver.
Qed.

Lemma post_upload_link_returns isValidURL user body :
  returns (λ r, status r ∈ [201; 400; 500])
    (post_upload_link isValidURL user body).
Proof.
  apply try_catch_returns.
  - destruct (body_videoUrl body) as [url|]; [|apply answers_ret; set_solver].
    destruct (negb (truthy url)); [apply answers_ret; set_solver|].
    destruct (negb (isValidURL url)); [apply answers_ret; set_solver|].
    do 6 (apply answers_bind; intros ?). apply answers_ret. set_solver.
  - intros e. apply catch_returns. set_solver.
Qed.

End UploadFrame.

Lemma upload_single_any (asset : Asset) (w : World) :
  ∃ w1,
    ((upload_single (Some asset) w =
        (Normal (Some {| filename := public_id asset;
                         path := secure_url asset |}), w1)
      ∧ blobStore w1 = blobStore w ∪ {[public_id asset]}
      ∧ head (blobFaults w) ≠ Some true)
     ∨ (upload_single (Some asset) w = (Throw BlobStoreError, w1)
        ∧ blobStore w1 = blobStore w
        ∧ head (blobFaults w) = Some true))
    ∧ Videos w1 = Videos w
    ∧ Users w1 = Users w
    ∧ console w1 = console w
    ∧ dbFaults w1 = dbFaults w
    ∧ nextObjectId w1 = nextObjectId w.
Proof.
  destruct w as [vs us blob calls con clk reads next dbf blf].
  destruct blf as [|[] rest]; eexists;
    (split; [first [left; split; [reflexivity|]; split; [reflexivity|];
                    simpl; congruence
                   | right; split; [reflexivity|]; done]
            | done]).
Qed.

(** X16: whatever the request, and whatever the database and the blob store
    answer, [POST /upload] either fails in the storage engine, the error
    going to Express with nothing persistent changed, or returns a response
    (201, 400 or 500); it leaves every video that was stored exactly as it
    was and changes no user but the caller; the blob store loses nothing
    and gains at most the asset of the file part.  [POST /upload-link]
    always returns a response (201, 400 or 500), with the same guarantees
    for videos and users, and does not touch the blob store. *)
Theorem uploads_only_add (isValidURL : jsstring → bool) (user : ObjectId)
  (part : option Asset) (body : Body) (w : World) :
  (∃ outcome w',
     upload_route user part body w = (outcome, w')
     ∧ match outcome with
       | Normal r => status r ∈ [201; 400; 500]
       | Throw e => e = BlobStoreError ∧ stores w' = stores w
       end
     ∧ (∀ j v, Videos w !! j = Some v → Videos w' !! j = Some v)
     ∧ (∀ u, u ≠ user → Users w' !! u = Users w !! u)
     ∧ blobStore w ⊆ blobStore w'
     ∧ (∀ x, x ∈ blobStore w' →
             x ∈ blobStore w
             ∨ ∃ asset, part = Some asset ∧ x = public_id asset))
  ∧ (∃ r w',
     post_upload_link isValidURL user body w = (Normal r, w')
     ∧ status r ∈ [201; 400; 500]
     ∧ (∀ j v, Videos w !! j = Some v → Videos w' !! j = Some v)
     ∧ (∀ u, u ≠ user → Users w' !! u = Users w !! u)
     ∧ blobStore w' = blobStore w).
Proof.
  split.
  - unfold upload_route. destruct part as [asset|].
    + destruct (upload_single_any asset w)
        as (w1 & Hengine & Hvs & Hus & _).
      destruct Hengine as [(Hstored & Hblob & _) | (Hfailed & Hblob & _)].
      * destruct (post_upload_returns user
                    (Some {| filename := public_id asset;
                             path := secure_url asset |}) body w1)
          as (r & w' & Hrun & Hstatus).
        pose proof (keeps_post_upload user
                      (Some {| filename := public_id asset;
                               path := secure_url asset |}) body w1)
          as (Hkept & Hothers & Hsame).
        rewrite Hrun in Hkept, Hothers, Hsame. simpl in *.
        exists (Normal r), w'. split.
        { erewrite bind_Normal by exact Hstored. exact Hrun. }
        split; [done|]. rewrite Hsame, Hblob.
        split; [intros j v Hj; apply Hkept; by rewrite Hvs|].
        split; [intros u Hu; by rewrite Hothers, Hus|].
        split; [apply union_subseteq_l|].
        intros x [Hx | Hx%elem_of_singleton]%elem_of_union; [by left|].
        right. by exists asset.
      * exists (Throw BlobStoreError), w1. split.
        { by erewrite bind_Throw by exact Hfailed. }
        unfold stores. rewrite Hvs, Hus, Hblob.
        split; [done|]. split; [done|]. split; [done|].
        split; [done|]. intros x Hx. by left.
    + destruct (post_upload_returns user None body w)
        as (r & w' & Hrun & Hstatus).
      pose proof (keeps_post_upload user None body w)
        as (Hkept & Hothers & Hsame).
      rewrite Hrun in Hkept, Hothers, Hsame. simpl in *.
      exists (Normal r), w'. split.
      { erewrite bind_Normal by reflexivity. exact Hrun. }
      rewrite Hsame. do 4 (split; [done|]). intros x Hx. by left.
  - destruct (post_upload_link_returns isValidURL user body w)
      as (r & w' & Hrun & Hstatus).
    exists r, w'. split; [done|]. split; [done|].
    pose proof (keeps_post_upload_link isValidURL user body w) as Hkeeps.
    by rewrite Hrun in Hkeeps.
Qed.

Section UploadEdges.

Implicit Types (w : World) (isValidURL : jsstring → bool).

Lemma dbCall_passes w rest :
  dbFaults w = false :: rest → dbCall w = (Normal (), with_dbFaults rest w).
Proof. intros H. unfold dbCall, mbind, M_bind, get_world. by rewrite H. Qed.

Lemma Video_save_new_invalid video w :
  Video.valid video = false →
  Video_save_new video w = (Throw ValidationError, w).
Proof. intros Hinvalid. unfold Video_save_new. by rewrite Hinvalid. Qed.

Lemma Video_save_new_accepted video w rest :
  Video.valid video = true →
  dbFaults w = false :: rest →
  Videos w !! Video._id video = None →
  Video_save_new video w =
    (Normal (Video.set_updatedAt (clock w (clockReads w)) video),
     with_Videos
       (insert (Video._id video)
          (Video.set_updatedAt (clock w (clockReads w)) video))
       (with_dbFaults rest (with_clockReads (S (clockReads w)) w))).
Proof.
  intros Hvalid Hdb Hfree. unfold Video_save_new. rewrite Hvalid.
  erewrite bind_Normal by reflexivity.
  run_with dbCall_passes.
  erewrite bind_Normal by reflexivity.
  simpl. by rewrite Hfree.
Qed.

Lemma User_push_video_rejected uid vid w rest :
  dbFaults w = true :: rest →
  User_push_video uid vid w = (Throw PersistenceError, with_dbFaults rest w).
Proof.
  intros H. unfold User_push_video.
  erewrite bind_Throw; [reflexivity|]. by apply dbCall_rejects.
Qed.

(** A file-mode upload whose text fails the validators of the schema. *)
Lemma post_upload_invalid user file body w :
  validText (body_title body) (body_description body) = false →
  ∃ w',
    post_upload user (Some file) body w =
      (Normal {| status := 500;
                 payload := Message (js "Error uploading video") |}, w')
    ∧ stores w' = stores w
    ∧ console w' =
        console w ++ [ConsoleError (js "Video upload error:") ValidationError].
Proof.
  intros Htext.
  destruct (generateThumbnailUrl_total (path file)) as (thumb & Hthumb & _).
  unfold post_upload. eexists. split.
  { erewrite try_Throw; cycle 1.
    { unfold lift at 1. rewrite Hthumb.
      erewrite bind_Normal by reflexivity.
      erewrite bind_Normal by apply new_Video_run.
      erewrite bind_Throw; [reflexivity|].
      apply Video_save_new_invalid.
      unfold Video.valid, validText in *. simpl. by rewrite Htext. }
    reflexivity. }
  done.
Qed.

(** A link-mode upload whose text fails the validators of the schema. *)
Lemma post_upload_link_invalid isValidURL user body url w :
  body_videoUrl body = Some url →
  truthy url = true →
  isValidURL url = true →
  validText (body_title body) (body_description body) = false →
  ∃ w',
    post_upload_link isValidURL user body w =
      (Normal {| status := 500;
                 payload := Message (js "Error adding video link") |}, w')
    ∧ stores w' = stores w
    ∧ console w' =
        console w
          ++ [ConsoleError (js "Video link upload error:") ValidationError].
Proof.
  intros Hurl Htruthy Hvalid Htext.
  destruct (generateThumbnailUrl_total url) as (thumb & Hthumb & _).
  destruct (linkCloudinaryId_run url w) as [n Hlink].
  unfold post_upload_link. rewrite Hurl, Htruthy, Hvalid. cbn [negb].
  eexists. split.
  { erewrite try_Throw; cycle 1.
    { unfold lift at 1. rewrite Hthumb.
      erewrite bind_Normal by reflexivity.
      run_with Hlink.
      erewrite bind_Normal by apply new_Video_run.
      erewrite bind_Throw; [reflexivity|].
      apply Video_save_new_invalid.
      unfold Video.valid, validText in *. simpl. by rewrite Htext. }
    reflexivity. }
  done.
Qed.

End UploadEdges.

(** X17: the requests the upload routes refuse store no video.  Without a
    file part, [POST /upload] answers 400 and the world is as it was; so
    does [POST /upload-link] without a URL, with an empty one, or with one
    the URL parser rejects.  A request whose title is missing or empty
    (after trimming), or whose title or description is too long, gets past
    these checks and fails in the schema's validators: both routes answer
    500, not 400, log the validation error and leave both collections as
    they were, whatever the database would have answered.  For a link the
    blob store is untouched; for a file the storage engine has run before
    the handler, so the asset it stored stays in the blob store, with no
    record that refers to it. *)
Theorem refused_uploads_store_no_video (isValidURL : jsstring → bool)
  (user : ObjectId) (body : Body) (w : World) :
  upload_route user None body w =
    (Normal {| status := 400;
               payload := Message (js "No video file provided") |}, w)
  ∧ (from_option truthy false (body_videoUrl body) = false →
     post_upload_link isValidURL user body w =
       (Normal {| status := 400;
                  payload := Message (js "Video URL is required") |}, w))
  ∧ (∀ url,
       body_videoUrl body = Some url →
       truthy url = true →
       isValidURL url = false →
       post_upload_link isValidURL user body w =
         (Normal {| status := 400;
                    payload := Message (js "Invalid video URL format") |}, w))
  ∧ (validText (body_title body) (body_description body) = false →
     (∀ asset,
        head (blobFaults w) ≠ Some true →
        ∃ w',
          upload_route user (Some asset) body w =
            (Normal {| status := 500;
                       payload := Message (js "Error uploading video") |}, w')
          ∧ Videos w' = Videos w
          ∧ Users w' = Users w
          ∧ blobStore w' = blobStore w ∪ {[public_id asset]}
          ∧ console w' =
              console w
                ++ [ConsoleError (js "Video upload error:") ValidationError])
     ∧ (∀ url,
          body_videoUrl body = Some url →
          truthy url = true →
          isValidURL url = true →
          ∃ w',
            post_upload_link isValidURL user body w =
              (Normal {| status := 500;
                         payload := Message (js "Error adding video link") |},
               w')
            ∧ stores w' = stores w
            ∧ console w' =
                console w
                  ++ [ConsoleError (js "Video link upload error:")
                        ValidationError])).
Proof.
  split; [done|]. split; [|split].
  - intros Hmissing. unfold post_upload_link.
    destruct (body_videoUrl body) as [url|]; [|done].
    simpl in Hmissing. by rewrite Hmissing.
  - intros url Hurl Htruthy Hinvalid. unfold post_upload_link.
    by rewrite Hurl, Htruthy, Hinvalid.
  - intros Htext. split.
    + intros asset Haccepts.
      destruct (upload_single_any asset w)
        as (w1 & Hengine & Hvs & Hus & Hconsole & _).
      destruct Hengine as [(Hstored & Hblob & _) | (_ & _ & Hrejects)];
        [|done].
      destruct (post_upload_invalid user
                  {| filename := public_id asset; path := secure_url asset |}
                  body w1 Htext)
        as (w' & Hrun & Hstores & Hlog).
      apply stores_fields in Hstores as (Hvs' & Hus' & Hblob').
      exists w'. split.
      { unfold upload_route. erewrite bind_Normal by exact Hstored.
        exact Hrun. }
      by rewrite Hvs', Hus', Hblob', Hlog, Hvs, Hus, Hblob, Hconsole.
    + intros url Hurl Htruthy Hvalid.
      by apply (post_upload_link_invalid isValidURL user body url).
Qed.

Lemma refused_uploads_store_no_video_witness :
  ∃ w',
    upload_route 1 (Some Sample.asset)
      {| body_title := Some (js "   "); body_description := None;
         body_tags := None; body_videoUrl := None |}
      (with_blobFaults [] Sample.world) =
      (Normal {| status := 500;
                 payload := Message (js "Error uploading video") |}, w')
    ∧ Videos w' = Videos Sample.world
    ∧ js "video-sharing-platform/new" ∈ blobStore w'.
Proof.
  destruct (refused_uploads_store_no_video Sample.parsesAsURL 1
              {| body_title := Some (js "   "); body_description := None;
                 body_tags := None; body_videoUrl := None |}
              (with_blobFaults [] Sample.world))
    as (_ & _ & _ & Hinvalid).
  destruct (Hinvalid eq_refl) as [Hfile _].
  destruct (Hfile Sample.asset) as (w' & Hrun & Hvs & _ & Hblob & _).
  { discriminate. }
  exists w'. split; [exact Hrun|]. split; [exact Hvs|].
  rewrite Hblob. apply elem_of_union_r, elem_of_singleton. reflexivity.
Defined.

(** * Uploading, then deleting *)

Section RoundTripFacts.

Implicit Types (w : World) (isValidURL : jsstring → bool).

(** What a successful link-mode upload leaves behind. *)
Lemma post_upload_link_effects isValidURL user body url w :
  body_videoUrl body = Some url →
  truthy url = true →
  isValidURL url = true →
  validText (body_title body) (body_description body) = true →
  dbFaults w = [] →
  Videos w !! nextObjectId w = None →
  ∃ video w',
    post_upload_link isValidURL user body w =
      (Normal {| status := 201; payload := VideoJson (expand w' video) |}, w')
    ∧ Videos w' = <[nextObjectId w := video]> (Videos w)
    ∧ Users w' = alter (pushVideo (nextObjectId w)) user (Users w)
    ∧ blobStore w' = blobStore w
    ∧ dbFaults w' = []
    ∧ blobFaults w' = blobFaults w
    ∧ Video._id video = nextObjectId w
    ∧ Video.uploader video = user
    ∧ Video.videoUrl video = url.
Proof.
  intros Hurl Htruthy Hvalid Htext Hdb Hfresh.
  destruct (generateThumbnailUrl_total url) as (thumb & Hthumb & Hthumb').
  pose proof (linkIdAt_truthy (clock w (clockReads w)) url) as Hid.
  destruct (linkCloudinaryId_run url w) as [n Hlink].
  unfold post_upload_link. rewrite Hurl, Htruthy, Hvalid. cbn [negb].
  eexists _, _. split.
  { apply try_Normal. unfold lift at 1. rewrite Hthumb.
    erewrite bind_Normal by reflexivity.
    run_with Hlink.
    erewrite bind_Normal by apply new_Video_run.
    erewrite bind_Normal.
    2:{ apply Video_save_new_run; [|done..].
        unfold Video.valid, validText in *. simpl.
        by rewrite Htext, Hid, Htruthy, Hthumb'. }
    run_with User_push_video_run.
    run_with populate_run.
    reflexivity. }
  simpl. by rewrite Hdb.
Qed.

(** What a successful file-mode upload leaves behind. *)
Lemma post_upload_effects user file body w :
  truthy (filename file) = true →
  truthy (path file) = true →
  validText (body_title body) (body_description body) = true →
  dbFaults w = [] →
  Videos w !! nextObjectId w = None →
  ∃ video w',
    post_upload user (Some file) body w =
      (Normal {| status := 201; payload := VideoJson (expand w' video) |}, w')
    ∧ Videos w' = <[nextObjectId w := video]> (Videos w)
    ∧ Users w' = alter (pushVideo (nextObjectId w)) user (Users w)
    ∧ blobStore w' = blobStore w
    ∧ dbFaults w' = []
    ∧ blobFaults w' = blobFaults w
    ∧ Video._id video = nextObjectId w
    ∧ Video.uploader video = user
    ∧ Video.videoUrl video = path file
    ∧ Video.cloudinaryId video = filename file.
Proof.
  intros Hname Hpath Htext Hdb Hfresh.
  destruct (generateThumbnailUrl_total (path file))
    as (thumb & Hthumb & Hthumb').
  unfold post_upload.
  eexists _, _. split.
  { apply try_Normal. unfold lift at 1. rewrite Hthumb.
    erewrite bind_Normal by reflexivity.
    erewrite bind_Normal by apply new_Video_run.
    erewrite bind_Normal.
    2:{ apply Video_save_new_run; [|done..].
        unfold Video.valid, validText in *. simpl.
        by rewrite Htext, Hname, Hpath, Hthumb'. }
    run_with User_push_video_run.
    run_with populate_run.
    reflexivity. }
  simpl. by rewrite Hdb.
Qed.

(** The guarded blob-store request, as far as the two collections and the
    pending database answers go. *)
Lemma destroy_attempt_frame (publicId : jsstring) w :
  ∃ w1,
    try_catch (cloudinary_destroy publicId)
      (λ cloudinaryError,
         console_error (js "Cloudinary deletion error:") cloudinaryError) w
      = (Normal (), w1)
    ∧ Videos w1 = Videos w
    ∧ Users w1 = Users w
    ∧ dbFaults w1 = dbFaults w
    ∧ (head (blobFaults w) = Some true → blobStore w1 = blobStore w)
    ∧ (head (blobFaults w) ≠ Some true →
         blobStore w1 = blobStore w ∖ {[publicId]}
         ∧ console w1 = console w).
Proof.
  destruct w as [vs us blob calls con clk reads next dbf blf].
  destruct blf as [|[] rest]; eexists; (split; [reflexivity|]); simpl;
    repeat split; try done; intros H; by simplify_eq.
Qed.

(** The owner's delete with the database answering. *)
Lemma delete_video_by_owner user id video w :
  dbFaults w = [] →
  Videos w !! id = Some video →
  Video.uploader video = user →
  ∃ w',
    delete_video user id w =
      (Normal {| status := 200;
                 payload := Message (js "Video deleted successfully") |}, w')
    ∧ Videos w' = delete id (Videos w)
    ∧ Users w' = alter (pullVideo id) user (Users w)
    ∧ (includes (Video.videoUrl video) (js "cloudinary.com") = false →
         blobStore w' = blobStore w)
    ∧ (includes (Video.videoUrl video) (js "cloudinary.com") = true →
         (head (blobFaults w) = Some true → blobStore w' = blobStore w)
         ∧ (head (blobFaults w) ≠ Some true →
              blobStore w' = blobStore w ∖ {[Video.cloudinaryId video]})).
Proof.
  intros Hdb Hfound Howner. unfold delete_video.
  destruct (includes (Video.videoUrl video) (js "cloudinary.com")) eqn:Hblob.
  - destruct (destroy_attempt_frame (Video.cloudinaryId video) w)
      as (w1 & Hdestroy & Hvs & Hus & Hdb1 & Hfail & Hok).
    rewrite Hdb in Hdb1.
    eexists. split.
    { apply try_Normal. run_with Video_findById_run. rewrite Hfound.
      rewrite (proj2 (N.eqb_eq _ _) Howner). cbn [negb]. rewrite Hblob.
      run_with Hdestroy.
      run_with Video_findByIdAndDelete_run.
      run_with User_pull_video_run.
      reflexivity. }
    simpl. rewrite Hvs, Hus. do 3 (split; [done|]). intros _. split.
    + done.
    + intros Haccepted. by apply Hok.
  - eexists. split.
    { apply try_Normal. run_with Video_findById_run. rewrite Hfound.
      rewrite (proj2 (N.eqb_eq _ _) Howner). cbn [negb]. rewrite Hblob.
      erewrite bind_Normal by reflexivity.
      run_with Video_findByIdAndDelete_run.
      run_with User_pull_video_run.
      reflexivity. }
    done.
Qed.

Lemma pull_after_push (id : ObjectId) (u : User.doc) :
  id ∉ User.videos u → pullVideo id (pushVideo id u) = u.
Proof.
  intros Hfresh. destruct u as [uid name avatar videos].
  unfold pullVideo, pushVideo, User.set_videos. simpl in *. f_equal.
  rewrite filter_app, filter_absent by done.
  rewrite filter_cons_False, filter_nil by (intros H; by apply H).
  apply app_nil_r.
Qed.

Lemma pull_after_push_users (id user : ObjectId)
  (us : gmap ObjectId User.doc) :
  (∀ u, us !! user = Some u → id ∉ User.videos u) →
  alter (pullVideo id) user (alter (pushVideo id) user us) = us.
Proof.
  intros Hfresh. apply map_eq. intros k.
  destruct (decide (k = user)) as [->|Hk].
  - rewrite !lookup_alter_eq. destruct (us !! user) as [u|] eqn:Hu; [|done].
    simpl. f_equal. by apply pull_after_push, Hfresh.
  - by rewrite !lookup_alter_ne.
Qed.

End RoundTripFacts.

(** X18: upload, then delete, is a round trip on the two collections.  When
    a link-mode upload of a well-formed request is answered 201 and the
    uploader then deletes the video the answer names, the delete is answered
    200 and the videos collection and the users collection are back as they
    were before the upload, provided the id the upload assigned was free and
    the uploader's list did not hold it already.  For a URL without the
    storage domain marker the blob store is not involved. *)
Theorem upload_link_then_delete (isValidURL : jsstring → bool)
  (user : ObjectId) (body : Body) (url : jsstring) (w : World) :
  body_videoUrl body = Some url →
  truthy url = true →
  isValidURL url = true →
  validText (body_title body) (body_description body) = true →
  dbFaults w = [] →
  Videos w !! nextObjectId w = None →
  (∀ u, Users w !! user = Some u → nextObjectId w ∉ User.videos u) →
  ∃ created w1 w2,
    post_upload_link isValidURL user body w =
      (Normal {| status := 201; payload := VideoJson created |}, w1)
    ∧ Videos w1 !! Video._id (document created) = Some (document created)
    ∧ delete_video user (Video._id (document created)) w1 =
      (Normal {| status := 200;
                 payload := Message (js "Video deleted successfully") |}, w2)
    ∧ Videos w2 = Videos w
    ∧ Users w2 = Users w
    ∧ (includes url (js "cloudinary.com") = false →
         blobStore w2 = blobStore w).
Proof.
  intros Hurl Htruthy Hvalid Htext Hdb Hfree Hlist.
  destruct (post_upload_link_effects isValidURL user body url w)
    as (video & w1 & Hupload & Hvs1 & Hus1 & Hblob1 & Hdb1 & _ & Hid
        & Howner & Hlink); [done..|].
  assert (Videos w1 !! Video._id video = Some video) as Hstored.
  { by rewrite Hvs1, Hid, lookup_insert_eq. }
  destruct (delete_video_by_owner user (Video._id video) video w1)
    as (w2 & Hdelete & Hvs2 & Hus2 & Hplain & _); [done..|].
  exists (expand w1 video), w1, w2. simpl.
  split; [done|]. split; [done|]. split; [done|]. split; [|split].
  - rewrite Hvs2, Hvs1, Hid. by apply delete_insert_id.
  - rewrite Hus2, Hus1, Hid. by apply pull_after_push_users.
  - intros Hmarker. rewrite Hplain, Hblob1; [done|]. by rewrite Hlink.
Qed.

Lemma upload_link_then_delete_witness :
  ∃ created w1 w2,
    post_upload_link Sample.parsesAsURL 1
      (Sample.linkBody "https://vimeo.com/76979871" "a,b") Sample.world =
      (Normal {| status := 201; payload := VideoJson created |}, w1)
    ∧ delete_video 1 (Video._id (document created)) w1 =
      (Normal {| status := 200;
                 payload := Message (js "Video deleted successfully") |}, w2)
    ∧ Videos w2 = Videos Sample.world
    ∧ Users w2 = Users Sample.world.
Proof.
  destruct (upload_link_then_delete Sample.parsesAsURL 1
              (Sample.linkBody "https://vimeo.com/76979871" "a,b")
              (js "https://vimeo.com/76979871") Sample.world
              eq_refl eq_refl eq_refl eq_refl eq_refl eq_refl)
    as (created & w1 & w2 & Hupload & _ & Hdelete & Hvs & Hus & _).
  { intros u [= <-]. in_list. }
  exists created, w1, w2. repeat split; assumption.
Defined.

(** X19: a file-mode upload followed by the uploader's delete is the same
    round trip on the two collections, and for a file the storage engine put
    at a URL with the storage domain marker, the delete asks the blob store
    to drop the asset under the file's name: when the blob store accepts,
    it ends without that asset; when it rejects, it is as it was. *)
Theorem upload_file_then_delete (user : ObjectId) (file : File) (body : Body)
  (w : World) :
  truthy (filename file) = true →
  includes (path file) (js "cloudinary.com") = true →
  validText (body_title body) (body_description body) = true →
  dbFaults w = [] →
  Videos w !! nextObjectId w = None →
  (∀ u, Users w !! user = Some u → nextObjectId w ∉ User.videos u) →
  ∃ created w1 w2,
    post_upload user (Some file) body w =
      (Normal {| status := 201; payload := VideoJson created |}, w1)
    ∧ delete_video user (Video._id (document created)) w1 =
      (Normal {| status := 200;
                 payload := Message (js "Video deleted successfully") |}, w2)
    ∧ Videos w2 = Videos w
    ∧ Users w2 = Users w
    ∧ (head (blobFaults w) = Some true → blobStore w2 = blobStore w)
    ∧ (head (blobFaults w) ≠ Some true →
         blobStore w2 = blobStore w ∖ {[filename file]}).
Proof.
  intros Hname Hmarker Htext Hdb Hfree Hlist.
  assert (truthy (path file) = true) as Hpath.
  { by apply (includes_nonempty (path file) (js "cloudinary.com")). }
  destruct (post_upload_effects user file body w)
    as (video & w1 & Hupload & Hvs1 & Hus1 & Hblob1 & Hdb1 & Hbf1 & Hid
        & Howner & Hurl & Hcid); [done..|].
  assert (Videos w1 !! Video._id video = Some video) as Hstored.
  { by rewrite Hvs1, Hid, lookup_insert_eq. }
  destruct (delete_video_by_owner user (Video._id video) video w1)
    as (w2 & Hdelete & Hvs2 & Hus2 & _ & Hhosted); [done..|].
  rewrite Hurl in Hhosted. destruct (Hhosted Hmarker) as [Hfail Hok].
  rewrite Hbf1, Hblob1, Hcid in *.
  exists (expand w1 video), w1, w2. simpl.
  split; [done|]. split; [done|]. split; [|split; [|done]].
  - rewrite Hvs2, Hvs1, Hid. by apply delete_insert_id.
  - rewrite Hus2, Hus1, Hid. by apply pull_after_push_users.
Qed.

Lemma upload_file_then_delete_witness :
  ∃ created w1 w2,
    post_upload 1 (Some Sample.file)
      (Sample.linkBody "" "a,b") Sample.world =
      (Normal {| status := 201; payload := VideoJson created |}, w1)
    ∧ delete_video 1 (Video._id (document created)) w1 =
      (Normal {| status := 200;
                 payload := Message (js "Video deleted successfully") |}, w2)
    ∧ Videos w2 = Videos Sample.world
    ∧ Users w2 = Users Sample.world
    ∧ blobStore w2 = blobStore Sample.world.
Proof.
  destruct (upload_file_then_delete 1 Sample.file
              (Sample.linkBody "" "a,b") Sample.world
              eq_refl eq_refl eq_refl eq_refl eq_refl)
    as (created & w1 & w2 & Hupload & Hdelete & Hvs & Hus & Hfail & _).
  { intros u [= <-]. in_list. }
  exists created, w1, w2. repeat split; try assumption.
  apply Hfail. reflexivity.
Defined.

(** * Requests that fail half-way *)

Section HalfWayFacts.

Implicit Types w : World.

Lemma Video_findById_passes id w rest :
  dbFaults w = false :: rest →
  Video_findById id w = (Normal (Videos w !! id), with_dbFaults rest w).
Proof. intros H. unfold Video_findById. by run_with dbCall_passes. Qed.

Lemma Video_findByIdAndDelete_rejected id w rest :
  dbFaults w = true :: rest →
  Video_findByIdAndDelete id w =
    (Throw PersistenceError, with_dbFaults rest w).
Proof.
  intros H. unfold Video_findByIdAndDelete.
  erewrite bind_Throw; [reflexivity|]. by apply dbCall_rejects.
Qed.

End HalfWayFacts.

(** X20: the upload handler writes in two steps and does not undo the
    first.  When the database accepts the insert of the new video and
    rejects the update of the uploader's list, a file-mode upload of a
    well-formed request is answered 500 and logged, yet the video is in the
    collection, with the caller as its uploader, and no user's list refers
    to it: the users collection is as it was. *)
Theorem upload_failure_after_save (user : ObjectId) (file : File)
  (body : Body) (rest : list bool) (w : World) :
  truthy (filename file) = true →
  truthy (path file) = true →
  validText (body_title body) (body_description body) = true →
  dbFaults w = false :: true :: rest →
  Videos w !! nextObjectId w = None →
  ∃ video w',
    post_upload user (Some file) body w =
      (Normal {| status := 500;
                 payload := Message (js "Error uploading video") |}, w')
    ∧ Videos w' = <[nextObjectId w := video]> (Videos w)
    ∧ Users w' = Users w
    ∧ blobStore w' = blobStore w
    ∧ Video.uploader video = user
    ∧ Video.videoUrl video = path file
    ∧ Video.cloudinaryId video = filename file
    ∧ console w' =
        console w
          ++ [ConsoleError (js "Video upload error:") PersistenceError]
    ∧ dbFaults w' = rest.
Proof.
  intros Hname Hpath Htext Hdb Hfree.
  destruct (generateThumbnailUrl_total (path file))
    as (thumb & Hthumb & Hthumb').
  unfold post_upload. eexists _, _. split.
  { erewrite try_Throw; cycle 1.
    { unfold lift at 1. rewrite Hthumb.
      erewrite bind_Normal by reflexivity.
      erewrite bind_Normal by apply new_Video_run.
      erewrite bind_Normal.
      2:{ apply (Video_save_new_accepted _ _ (true :: rest)); [|done..].
          unfold Video.valid, validText in *. simpl.
          by rewrite Htext, Hname, Hpath, Hthumb'. }
      erewrite bind_Throw; [reflexivity|].
      by apply (User_push_video_rejected _ _ _ rest). }
    reflexivity. }
  done.
Qed.

Lemma upload_failure_after_save_witness :
  ∃ video w',
    post_upload 1 (Some Sample.file) (Sample.linkBody "" "a")
      (with_dbFaults [false; true] Sample.world) =
      (Normal {| status := 500;
                 payload := Message (js "Error uploading video") |}, w')
    ∧ Videos w' !! 13 = Some video
    ∧ Users w' = Users Sample.world.
Proof.
  destruct (upload_failure_after_save 1 Sample.file (Sample.linkBody "" "a")
              [] (with_dbFaults [false; true] Sample.world)
              eq_refl eq_refl eq_refl eq_refl eq_refl)
    as (video & w' & Hrun & Hvs & Hus & _).
  exists video, w'. split; [exact Hrun|]. split; [|exact Hus].
  rewrite Hvs. apply lookup_insert_eq.
Defined.

(** X21: the delete handler asks the blob store first.  When the owner
    deletes a video whose URL has the storage domain marker, the blob store
    accepts, and the database then rejects the removal of the record, the
    request is answered 500 and logged: the asset is gone from the blob
    store while the video record and the owner's list are as they were. *)
Theorem delete_failure_after_destroy (user id : ObjectId) (video : Video.doc)
  (rest : list bool) (w : World) :
  dbFaults w = false :: true :: rest →
  head (blobFaults w) ≠ Some true →
  Videos w !! id = Some video →
  Video.uploader video = user →
  includes (Video.videoUrl video) (js "cloudinary.com") = true →
  ∃ w',
    delete_video user id w =
      (Normal {| status := 500;
                 payload := Message (js "Error deleting video") |}, w')
    ∧ Videos w' = Videos w
    ∧ Users w' = Users w
    ∧ blobStore w' = blobStore w ∖ {[Video.cloudinaryId video]}
    ∧ console w' =
        console w
          ++ [ConsoleError (js "Delete video error:") PersistenceError].
Proof.
  intros Hdb Hblob Hfound Howner Hmarker.
  destruct (destroy_attempt_frame (Video.cloudinaryId video)
              (with_dbFaults (true :: rest) w))
    as (w1 & Hdestroy & Hvs & Hus & Hdb1 & _ & Hok).
  destruct (Hok Hblob) as [Hgone Hconsole].
  unfold delete_video. eexists. split.
  { erewrite try_Throw; cycle 1.
    { erewrite bind_Normal by (by apply Video_findById_passes).
      rewrite Hfound, (proj2 (N.eqb_eq _ _) Howner). cbn [negb].
      rewrite Hmarker.
      run_with Hdestroy.
      erewrite bind_Throw; [reflexivity|].
      by apply (Video_findByIdAndDelete_rejected _ _ rest). }
    reflexivity. }
  simpl. by rewrite Hvs, Hus, Hgone, Hconsole.
Qed.

Lemma delete_failure_after_destroy_witness :
  ∃ w',
    delete_video 1 10
      (with_blobFaults [] (with_dbFaults [false; true] Sample.world)) =
      (Normal {| status := 500;
                 payload := Message (js "Error deleting video") |}, w')
    ∧ Videos w' !! 10 = Some Sample.hosted
    ∧ blobStore w' = ∅.
Proof.
  destruct (delete_failure_after_destroy 1 10 Sample.hosted []
              (with_blobFaults [] (with_dbFaults [false; true] Sample.world))
              eq_refl)
    as (w' & Hrun & Hvs & _ & Hblob & _); [discriminate | reflexivity..|].
  exists w'. split; [exact Hrun|]. split.
  - rewrite Hvs. reflexivity.
  - rewrite Hblob. simpl. apply set_eq. intros x. set_solver.
Defined.

(** * The client: player, card and upload form *)

(** X22: the player shows a URL containing [drive.google.com] in an iframe,
    whatever the quality selected, and every other URL in a video element.
    For a Drive URL the server did not class as blob-store-hosted, the
    iframe points at the file the stored identifier names: the identifier is
    [drive_<id>] exactly when the iframe's source is the preview page of
    [<id>], and when the server found no identifier the iframe gets the URL
    as it is. *)
Theorem player_embeds_the_stored_drive_file (quality src : jsstring) :
  (includes src (js "drive.google.com") = true →
   renderPlayer quality src = DriveIframe (getDriveEmbedUrl src))
  ∧ (includes src (js "drive.google.com") = false →
     renderPlayer quality src = VideoElement (getVideoUrl quality src)
     ∧ renderPlayer (js "auto") src = VideoElement src)
  ∧ (includes src (js "drive.google.com") = true →
     includes src (js "cloudinary.com") = false →
     match extractVideoId src with
     | Some stored =>
         ∃ id, stored = js "drive_" ++ id
               ∧ truthy id = true
               ∧ getDriveEmbedUrl src =
                   js "https://drive.google.com/file/d/" ++ id
                     ++ js "/preview"
     | None => getDriveEmbedUrl src = src
     end).
Proof.
  unfold renderPlayer, isGoogleDriveVideo. split; [|split].
  - by intros ->.
  - by intros ->.
  - intros Hdrive Hblob. unfold extractVideoId, getDriveEmbedUrl.
    rewrite Hblob, Hdrive.
    destruct (downloadMatch src) as [id|] eqn:Hparam.
    { exists id. by apply capture_result in Hparam as [-> _]. }
    destruct (shareMatch src) as [id|] eqn:Hpath; [|done].
    exists id. by apply capture_result in Hpath as [-> _].
Qed.

Lemma player_embeds_the_stored_drive_file_witness :
  renderPlayer (js "q_auto,h_720")
    (js "https://drive.google.com/uc?export=download&id=1AbC") =
    DriveIframe (js "https://drive.google.com/file/d/1AbC/preview").
Proof.
  destruct (player_embeds_the_stored_drive_file (js "q_auto,h_720")
              (js "https://drive.google.com/uc?export=download&id=1AbC"))
    as (Hframe & _ & _).
  rewrite (Hframe eq_refl). reflexivity.
Defined.

(** X23: the quality transform of the player.  With quality [auto], for a
    URL without [cloudinary.com], and for a URL without [/upload/], the
    video element gets the URL as it is.  For a blob-store URL with exactly
    one [/upload/] and another quality, the quality and a slash are inserted
    right after [/upload/].  A URL with [/upload/] twice is left as it is.
    In every case the result is the URL itself or the URL with the quality
    inserted after an occurrence of [/upload/]. *)
Theorem quality_is_inserted_after_upload (quality src : jsstring) :
  (quality = js "auto" ∨ includes src (js "cloudinary.com") = false
   ∨ includes src (js "/upload/") = false →
   getVideoUrl quality src = src)
  ∧ (∀ before after,
       quality ≠ js "auto" →
       includes src (js "cloudinary.com") = true →
       src = before ++ js "/upload/" ++ after →
       (∀ a b, src = a ++ js "/upload/" ++ b → a = before) →
       getVideoUrl quality src =
         before ++ js "/upload/" ++ quality ++ js "/" ++ after)
  ∧ (∀ a b c,
       src = a ++ js "/upload/" ++ b ++ js "/upload/" ++ c →
       getVideoUrl quality src = src)
  ∧ (getVideoUrl quality src = src
     ∨ ∃ before after,
         src = before ++ js "/upload/" ++ after
         ∧ getVideoUrl quality src =
             before ++ js "/upload/" ++ quality ++ js "/" ++ after).
Proof.
  unfold getVideoUrl. split; [|split; [|split]].
  - intros [-> | [-> | Hupload]]; [done| by destruct (bool_decide _) |].
    rewrite split_absent by done.
    destruct (bool_decide _); [done|].
    by destruct (includes src (js "cloudinary.com")).
  - intros before after Hquality Hblob Hsrc Honce.
    rewrite bool_decide_eq_false_2, Hblob by done.
    by rewrite (split_once src (js "/upload/") before after).
  - intros a b c Hsrc.
    destruct (bool_decide _); [done|].
    destruct (includes src (js "cloudinary.com")); [|done].
    pose proof (split_twice src (js "/upload/") a b c eq_refl Hsrc) as Hlen.
    destruct (split src (js "/upload/")) as [|x [|y [|z l]]];
      simpl in Hlen; try lia; done.
  - destruct (bool_decide _); [by left|].
    destruct (includes src (js "cloudinary.com")); [|by left].
    pose proof (join_split src (js "/upload/") eq_refl) as Hjoin.
    destruct (split src (js "/upload/")) as [|x [|y [|z l]]];
      try by left.
    right. exists x, y. split; [|done]. by rewrite <- Hjoin.
Qed.

Lemma quality_is_inserted_after_upload_witness :
  getVideoUrl (js "q_auto,h_720")
    (js "https://res.cloudinary.com/demo/video/upload/v1/a.mp4") =
    js "https://res.cloudinary.com/demo/video/upload/q_auto,h_720/v1/a.mp4"
  ∧ getVideoUrl (js "q_auto,h_720")
      (js "https://res.cloudinary.com/demo/upload/video/upload/v1/a.mp4") =
    js "https://res.cloudinary.com/demo/upload/video/upload/v1/a.mp4".
Proof.
  destruct (quality_is_inserted_after_upload (js "q_auto,h_720")
              (js "https://res.cloudinary.com/demo/video/upload/v1/a.mp4"))
    as (_ & Honce & _).
  destruct (quality_is_inserted_after_upload (js "q_auto,h_720")
              (js "https://res.cloudinary.com/demo/upload/video/upload/v1/a.mp4"))
    as (_ & _ & Htwice & _).
  split.
  - apply (Honce (js "https://res.cloudinary.com/demo/video")
             (js "v1/a.mp4")); [discriminate | reflexivity..|].
    apply (occurs_once _ _ _ (js "v1/a.mp4")); reflexivity.
  - apply (Htwice (js "https://res.cloudinary.com/demo") (js "video")
             (js "v1/a.mp4")).
    reflexivity.
Defined.

Section CardFacts.

(** [Math.floor(d / k) >= 1] says that [k] fits into [d]. *)
Lemma count_at_least_one (d k : Z) :
  (0 < k)%Z → (1 <=? d / k)%Z = (k <=? d)%Z.
Proof.
  intros Hk. destruct (Z.leb_spec k d) as [H|H].
  - apply Z.leb_le. apply Z.div_le_lower_bound; lia.
  - apply Z.leb_gt. apply Z.div_lt_upper_bound; lia.
Qed.

Lemma count_bounds (d k bound : Z) :
  (0 < k)%Z → (k ≤ d)%Z → (d < k * (bound + 1))%Z →
  (1 ≤ d / k ≤ bound)%Z.
Proof.
  intros Hk Hlow Hhigh. split.
  - apply Z.div_le_lower_bound; lia.
  - apply Z.lt_succ_r, Z.div_lt_upper_bound; lia.
Qed.

Lemma digits_inj (d d' : Decimal.uint) : digits d = digits d' → d = d'.
Proof.
  revert d'. induction d as [|d IH|d IH|d IH|d IH|d IH|d IH|d IH|d IH|d IH|d IH];
    intros [|d'|d'|d'|d'|d'|d'|d'|d'|d'|d']; simpl; intros H;
    try discriminate H; [done|..]; injection H as H; f_equal; by apply IH.
Qed.

Lemma ofNumber_inj (n m : N) : ofNumber n = ofNumber m → n = m.
Proof.
  intros H. by apply DecimalN.Unsigned.to_uint_inj, digits_inj.
Qed.

(** The seconds of a duration, padded to two digits. *)
Lemma two_digits (n : N) :
  n < 60 →
  padStart (ofNumber n) 2 (js "0") = [48 + n / 10; 48 + n mod 10].
Proof.
  intros Hn.
  assert (∃ k : nat, (k < 60)%nat ∧ n = N.of_nat k) as (k & Hk & ->).
  { exists (N.to_nat n). lia. }
  clear Hn.
  do 60 (destruct k as [|k]; [vm_compute; reflexivity|]). lia.
Qed.

End CardFacts.

(** X24: the age shown on a video card, for a current time [now] that is
    a Date.  A [date] outside the range of a Date (±8.64e15 ms) is an
    Invalid Date and gives [Just now].  For a [date] in range no more than
    2^53 ms away from [now], with [d] the whole seconds from the date to
    now: a video less than a minute old, or dated in the future, is [Just
    now]; otherwise the text counts the largest unit of the table that
    fits: minutes below an hour (1 to 59), hours below a day (1 to 23),
    days below a week (1 to 6), weeks below thirty days (1 to 4), months of
    thirty days below 365 days (1 to 12), and years of 365 days from then
    on.  The unit is in the plural exactly when the count is above one. *)
Theorem time_ago_counts_the_largest_unit (now date : Z) :
  (Z.abs now ≤ 8640000000000000)%Z →
  ((8640000000000000 < Z.abs date)%Z → timeAgo now date = js "Just now")
  ∧ ((Z.abs date ≤ 8640000000000000)%Z →
     (Z.abs (now - date) < 2 ^ 53)%Z →
     let d := ((now - date) / 1000)%Z in
     ((d < 60)%Z → timeAgo now date = js "Just now")
     ∧ ((60 ≤ d < 3600)%Z →
        timeAgo now date = agoText (d / 60) (js "minute")
        ∧ (1 ≤ d / 60 ≤ 59)%Z)
     ∧ ((3600 ≤ d < 86400)%Z →
        timeAgo now date = agoText (d / 3600) (js "hour")
        ∧ (1 ≤ d / 3600 ≤ 23)%Z)
     ∧ ((86400 ≤ d < 604800)%Z →
        timeAgo now date = agoText (d / 86400) (js "day")
        ∧ (1 ≤ d / 86400 ≤ 6)%Z)
     ∧ ((604800 ≤ d < 2592000)%Z →
        timeAgo now date = agoText (d / 604800) (js "week")
        ∧ (1 ≤ d / 604800 ≤ 4)%Z)
     ∧ ((2592000 ≤ d < 31536000)%Z →
        timeAgo now date = agoText (d / 2592000) (js "month")
        ∧ (1 ≤ d / 2592000 ≤ 12)%Z)
     ∧ ((31536000 ≤ d)%Z →
        timeAgo now date = agoText (d / 31536000) (js "year")
        ∧ (1 ≤ d / 31536000)%Z))
  ∧ (∀ label, agoText 1 label = js "1 " ++ label ++ js " ago")
  ∧ (∀ count label,
       (2 ≤ count)%Z →
       agoText count label =
         ofNumber (Z.to_N count) ++ js " " ++ label ++ js "s ago").
Proof.
  intros _. split; [|split; [|split]].
  - intros Hinvalid. unfold timeAgo, timeClip.
    by rewrite (proj2 (Z.leb_gt _ _) Hinvalid).
  - intros Hdate _ d. unfold timeAgo, timeClip.
    rewrite (proj2 (Z.leb_le _ _) Hdate). cbv zeta. fold d.
    generalize d. clear. intros d.
    unfold timeAgoFrom, intervals. cbv zeta.
    rewrite !count_at_least_one by lia.
    repeat apply conj.
    all: intros H;
      repeat match goal with
        | |- context [(?a <=? ?b)%Z] =>
            destruct (Z.leb_spec a b); try lia
        end;
      try reflexivity.
    all: split; [reflexivity|].
    all: first [apply count_bounds; lia | apply Z.div_le_lower_bound; lia].
  - intros label. reflexivity.
  - intros count label Hcount. unfold agoText.
    by rewrite (proj2 (Z.ltb_lt 1 count)) by lia.
Qed.

Lemma time_ago_counts_the_largest_unit_witness :
  timeAgo 1700000125000 1700000000000 = js "2 minutes ago"
  ∧ timeAgo 1700000000000 1700000005000 = js "Just now"
  ∧ timeAgo 1700000000000 (-8640000000000001) = js "Just now".
Proof.
  destruct (time_ago_counts_the_largest_unit 1700000125000 1700000000000)
    as (_ & Htable & _); [vm_compute; discriminate|].
  destruct (time_ago_counts_the_largest_unit 1700000000000 1700000005000)
    as (_ & Hfuture & _); [vm_compute; discriminate|].
  destruct (time_ago_counts_the_largest_unit 1700000000000
              (-8640000000000001))
    as (Hinvalid & _); [vm_compute; discriminate|].
  split; [|split].
  - destruct Htable as (_ & [-> _] & _).
    + vm_compute. discriminate.
    + vm_compute. reflexivity.
    + vm_compute. split; [discriminate | reflexivity].
    + reflexivity.
  - destruct Hfuture as (Hnow & _).
    + vm_compute. discriminate.
    + vm_compute. reflexivity.
    + apply Hnow. vm_compute. reflexivity.
  - apply Hinvalid. vm_compute. reflexivity.
Defined.

(** X25: the duration shown on a video card, for a whole number of
    seconds below 2^53, is the minutes in decimal, a colon, and the seconds
    left over as exactly two digits; two different such durations never get
    the same text. *)
Theorem duration_text (seconds : N) :
  seconds < 2 ^ 53 →
  formatDuration seconds =
    ofNumber (seconds / 60)
      ++ [58; 48 + (seconds mod 60) / 10; 48 + (seconds mod 60) mod 10]
  ∧ (∀ other, other < 2 ^ 53 →
              formatDuration other = formatDuration seconds →
              other = seconds).
Proof.
  intros _.
  assert (∀ n, formatDuration n =
               ofNumber (n / 60)
                 ++ [58; 48 + (n mod 60) / 10; 48 + (n mod 60) mod 10])
    as Hshape.
  { intros n. unfold formatDuration. cbv zeta.
    rewrite two_digits; [done|]. apply N.mod_lt. lia. }
  split; [apply Hshape|].
  intros other _. rewrite !Hshape.
  intros [Hminutes Hsecs]%app_inj_2; [|done].
  apply ofNumber_inj in Hminutes. injection Hsecs as Htens Hunits.
  pose proof (N.mod_lt other 60 ltac:(lia)).
  pose proof (N.mod_lt seconds 60 ltac:(lia)).
  assert (other mod 60 = seconds mod 60) as Hmod.
  { rewrite (N.div_mod (other mod 60) 10), (N.div_mod (seconds mod 60) 10)
      by lia.
    lia. }
  rewrite (N.div_mod other 60), (N.div_mod seconds 60) by lia.
  by rewrite Hminutes, Hmod.
Qed.

Lemma duration_text_witness : formatDuration 65 = js "1:05".
Proof.
  destruct (duration_text 65 eq_refl) as [-> _]. reflexivity.
Defined.

Section FormFacts.

Implicit Types s sub a b m : jsstring.

Lemma startsWith_before_unit (c : N) a b sub :
  c ∉ sub → startsWith (a ++ c :: b) sub = true → startsWith a sub = true.
Proof.
  revert a. induction sub as [|x sub IH]; intros a Hc; [by destruct a|].
  apply not_elem_of_cons in Hc as [Hx Hsub].
  destruct a as [|y a]; cbn [app startsWith].
  - intros [Heq _]%andb_true_iff. by apply N.eqb_eq in Heq.
  - intros [-> Hrest]%andb_true_iff. by apply IH.
Qed.

(** A text without the code unit [c] cannot lie across an occurrence of
    [c]. *)
Lemma includes_across_unit (c : N) a b sub :
  c ∉ sub →
  includes a sub = false → includes b sub = false →
  includes (a ++ c :: b) sub = false.
Proof.
  intros Hc Ha Hb. induction a as [|y a IH].
  - cbn [app includes]. rewrite Hb, orb_false_r.
    destruct (startsWith (c :: b) sub) eqn:E; [|done].
    apply (startsWith_before_unit c [] b sub Hc) in E.
    cbn [includes] in Ha. by rewrite E in Ha.
  - cbn [app includes] in Ha |- *.
    apply orb_false_elim in Ha as [Hstart Ha].
    rewrite IH, orb_false_r by done.
    destruct (startsWith (y :: a ++ c :: b) sub) eqn:E; [|done].
    apply (startsWith_before_unit c (y :: a) b sub Hc) in E. congruence.
Qed.

Lemma run_prefix stop s : ∃ t, s = run stop s ++ t.
Proof.
  induction s as [|c s [t IH]]; [by exists []|]. simpl.
  destruct (c =? stop); [by exists (c :: s)|].
  exists t. simpl. by f_equal.
Qed.

Lemma captureAt_substring lits stop s m :
  captureAt lits stop s = Some m → includes s m = true.
Proof.
  induction lits as [|lit lits IH]; cbn [captureAt]; [done|].
  destruct (startsWith s lit && truthy (run stop (drop (length lit) s)));
    [|done].
  intros [= <-]. apply includes_spec.
  destruct (run_prefix stop (drop (length lit) s)) as [t Ht].
  exists (take (length lit) s), t.
  by rewrite <- Ht, take_drop.
Qed.

(** What a regular expression captures is a part of the string. *)
Lemma capture_substring lits stop s m :
  capture lits stop s = Some m → includes s m = true.
Proof.
  induction s as [|c s IH]; cbn [capture].
  - destruct (captureAt lits stop []) eqn:E; [|done].
    intros [= <-]. by apply captureAt_substring in E.
  - destruct (captureAt lits stop (c :: s)) eqn:E.
    + intros [= <-]. by apply captureAt_substring in E.
    + intros Hm%IH. cbn [includes]. by rewrite Hm, orb_true_r.
Qed.

Lemma startsWith_app_long x y sub :
  (length sub ≤ length x)%nat → startsWith (x ++ y) sub = startsWith x sub.
Proof.
  revert x. induction sub as [|c sub IH]; intros x Hlen.
  - by rewrite !startsWith_nil.
  - destruct x as [|d x]; [simpl in Hlen; lia|].
    cbn [app startsWith]. rewrite IH; [done|]. simpl in Hlen. lia.
Qed.

(** The occurrence after [pre] is the first one when no earlier one can
    start in [pre]. *)
Lemma indexOf_after pre body (z : N) rest :
  includes (pre ++ body) (body ++ [z]) = false →
  indexOf (pre ++ (body ++ [z]) ++ rest) (body ++ [z]) = Some (length pre).
Proof.
  induction pre as [|c pre IH]; cbn [app]; intros Hfree.
  - pose proof (startsWith_app (body ++ [z]) rest) as Hhere.
    destruct ((body ++ [z]) ++ rest); cbn [indexOf]; by rewrite Hhere.
  - cbn [includes] in Hfree. apply orb_false_elim in Hfree as [Hhere Hfree].
    cbn [indexOf length].
    assert (startsWith (c :: pre ++ (body ++ [z]) ++ rest) (body ++ [z])
            = false) as ->.
    { rewrite <- Hhere.
      replace (c :: pre ++ (body ++ [z]) ++ rest)
        with ((c :: pre ++ body) ++ z :: rest)
        by (simpl; by rewrite <- !(assoc_L (++))).
      apply startsWith_app_long. simpl. rewrite !length_app. simpl. lia. }
    by rewrite IH.
Qed.

(** The share link the form builds for the file [id]. *)
Lemma share_link_classified id :
  truthy id = true →
  includes id (js "/") = false →
  includes id (js "id=") = false →
  includes id (js "cloudinary.com") = false →
  let link := js "https://drive.google.com/file/d/" ++ id ++ js "/view" in
  includes link (js "cloudinary.com") = false
  ∧ includes link (js "drive.google.com") = true
  ∧ downloadMatch link = None
  ∧ shareMatch link = Some id.
Proof.
  intros Hid Hslash Hparam Hblob link.
  assert (∀ sub, 47 ∉ sub →
            includes (js "https:") sub = false →
            includes (js "drive.google.com") sub = false →
            includes (js "file") sub = false →
            includes (js "d") sub = false →
            includes (js "view") sub = false →
            includes [] sub = false →
            includes id sub = false →
            includes link sub = false) as Hpieces.
  { intros sub Hsub H1 H2 H3 H4 H5 H6 H7.
    change link
      with (js "https:" ++ 47 :: [] ++ 47 :: js "drive.google.com"
              ++ 47 :: js "file" ++ 47 :: js "d" ++ 47 :: id
              ++ 47 :: js "view").
    repeat (apply includes_across_unit; [done..|]). done. }
  split; [|split; [|split]].
  - apply Hpieces; [in_list | done..].
  - apply includes_spec.
    by exists (js "https://"), (js "/file/d/" ++ id ++ js "/view").
  - apply downloadMatch_none. apply Hpieces; [in_list | done..].
  - unfold shareMatch.
    change link
      with (js "https://drive.google.com"
              ++ js "/file/d/" ++ id ++ js "/view").
    rewrite capture_skip.
    2:{ change (js "/file/d/") with (js "/file/d" ++ [47]).
        by apply (indexOf_after _ (js "/file/d") 47 (id ++ js "/view")). }
    apply capture_here; [done|].
    change (js "/view") with (47 :: js "view"). by apply run_stop.
Qed.

End FormFacts.

(** X26: [normalizeDriveLink] of the upload form turns a Drive link that
    carries the file in an [id=] parameter, and has no [/file/d/] segment,
    into the share link of that file, and returns every other URL as it
    is.  When the id holds no
    slash and no [id=], and the URL is not a blob-store one, the server
    classifies the rewritten link as it classifies the original: the same
    storage identifier [drive_<id>], the same Drive thumbnail, and the
    player embeds the same preview page. *)
Theorem normalized_drive_link_keeps_its_file (url id : jsstring) :
  includes url (js "cloudinary.com") = false →
  includes url (js "drive.google.com") = true →
  shareMatch url = None →
  downloadMatch url = Some id →
  includes id (js "/") = false →
  includes id (js "id=") = false →
  normalizeDriveLink url =
    js "https://drive.google.com/file/d/" ++ id ++ js "/view"
  ∧ extractVideoId (normalizeDriveLink url) = Some (js "drive_" ++ id)
  ∧ extractVideoId url = Some (js "drive_" ++ id)
  ∧ generateThumbnailUrl (normalizeDriveLink url) =
      Normal (js "https://drive.google.com/thumbnail?id=" ++ id
                ++ js "&sz=w800-h450")
  ∧ generateThumbnailUrl url = generateThumbnailUrl (normalizeDriveLink url)
  ∧ getDriveEmbedUrl (normalizeDriveLink url) =
      js "https://drive.google.com/file/d/" ++ id ++ js "/preview"
  ∧ getDriveEmbedUrl url = getDriveEmbedUrl (normalizeDriveLink url)
  ∧ (∀ other,
       shareMatch other ≠ None ∨ downloadMatch other = None
       ∨ includes other (js "drive.google.com") = false →
       normalizeDriveLink other = other).
Proof.
  intros Hblob Hdrive Hshare Hparam Hslash Hnoparam.
  pose proof (capture_result _ _ _ _ Hparam) as [Hid _].
  assert (includes id (js "cloudinary.com") = false) as Hidblob.
  { destruct (includes id (js "cloudinary.com")) eqn:E; [|done].
    apply capture_substring in Hparam.
    by rewrite (includes_trans _ _ _ Hparam E) in Hblob. }
  destruct (share_link_classified id Hid Hslash Hnoparam Hidblob)
    as (Hblob' & Hdrive' & Hparam' & Hshare').
  assert (normalizeDriveLink url =
            js "https://drive.google.com/file/d/" ++ id ++ js "/view")
    as Hlink.
  { unfold normalizeDriveLink. by rewrite Hshare, Hparam, Hdrive. }
  rewrite Hlink.
  unfold extractVideoId, generateThumbnailUrl, driveFileId, getDriveEmbedUrl.
  rewrite Hblob, Hdrive, Hshare, Hparam, Hblob', Hdrive', Hparam', Hshare'.
  rewrite Hid. repeat split.
  intros other Hother. unfold normalizeDriveLink.
  destruct (shareMatch other); [done|].
  destruct (downloadMatch other); [|done].
  destruct (includes other (js "drive.google.com")); [|done].
  by destruct Hother as [? | [? | ?]].
Qed.

Lemma normalized_drive_link_keeps_its_file_witness :
  normalizeDriveLink (js "https://drive.google.com/uc?export=download&id=1AbC") =
    js "https://drive.google.com/file/d/1AbC/view"
  ∧ extractVideoId (js "https://drive.google.com/file/d/1AbC/view") =
    Some (js "drive_1AbC").
Proof.
  destruct (normalized_drive_link_keeps_its_file
              (js "https://drive.google.com/uc?export=download&id=1AbC")
              (js "1AbC") eq_refl eq_refl eq_refl eq_refl eq_refl eq_refl)
    as (Hlink & Hid & _).
  rewrite Hlink in Hid. split; [exact Hlink | exact Hid].
Defined.
